(** * Listen-to-the-Music: the playback queue, verified against its specification

    A shallow embedding of [src/Track.py] and [src/Queue.py] (with the one
    handler of [src/Main.py] that persists after [addTrack]).

    - Python objects of class [LinkedListNode] live in a heap addressed by
      object identity; [Queue] holds references into that heap.
    - Every method is a function from the world (heap, queue fields, state
      file) to an outcome: normal return, raised exception, or divergence.
    - [random.shuffle] is the Fisher-Yates loop of CPython, driven by an
      explicit list of random draws.
    - A [Track] is a value: no setter of [Track] is called anywhere in the
      program, so a track never changes once it is in the queue.
    - The state file is the dictionary that [json.dump] receives; encoding
      and decoding JSON text, and failures of the file system, are not
      modelled.  [print] output is not modelled.

    After the queue come the handlers of the queue menu of [src/Main.py],
    the methods of [Track] that compute, [src/Album.py], the album manager
    of [src/Managers.py], the search tree of [src/Library.py] and
    [src/Playlist.py].

    - These classes are values passed from call to call; where the program
      shares an object (the album a manager holds) the model writes the
      changed object back where the program holds it.
    - A method that can raise returns a [result]; the built-in functions
      it calls ([str.split], [int], [in], [list.sort]) are written out as
      far as the program uses them.
    - A string is a sequence of characters of eight bits.  On ASCII text
      the functions that look into the characters ([str.lower], [repr],
      [int]) are those of Python; on other text they are not, and the
      statements that depend on what they return say that the text is
      ASCII ([is_ascii]).
    - The recursion limit of the interpreter is not modelled, nor are the
      functions that only format or print, nor the imports from CSV and
      JSON files. *)

From Stdlib Require Import ZArith Ascii.
From stdpp Require Import base option list strings sorting.

(** ** Track.py *)

Module Track.

(** [__trackArtist]: "can be string or list". *)
Inductive Artist :=
  | Single (name : string)
  | Multiple (names : list string).

Record Track := mkTrack {
  trackTitle : string;
  trackArtist : Artist;
  trackAlbum : string;
  trackDuration : string            (* "mm:ss" *)
}.

#[export] Instance Artist_eq_dec : EqDecision Artist.
Proof. solve_decision. Defined.

#[export] Instance Track_eq_dec : EqDecision Track.
Proof. solve_decision. Defined.

(** *** The built-in [str] on the two shapes an artist can take.

    [str] of a string is the string itself; [str] of a list is its [repr]:
    the [repr] of every element, joined by a comma and a space, in square
    brackets.  [repr] of a string follows CPython: single quotes unless the
    text has a single quote and no double quote; backslash and the chosen
    quote are escaped; tab, newline and carriage return get their letter
    escapes; other control characters are written in hexadecimal.  Characters
    above 127 are taken to be printable and are left unchanged. *)

Definition hex_digit (n : nat) : ascii :=
  match n with
  | 0 => "0" | 1 => "1" | 2 => "2" | 3 => "3" | 4 => "4" | 5 => "5"
  | 6 => "6" | 7 => "7" | 8 => "8" | 9 => "9" | 10 => "a" | 11 => "b"
  | 12 => "c" | 13 => "d" | 14 => "e" | _ => "f"
  end%char.

Fixpoint has_char (c : ascii) (s : string) : bool :=
  match s with
  | EmptyString => false
  | String d s' => if Ascii.eqb c d then true else has_char c s'
  end.

Definition dquote : ascii := ascii_of_nat 34.
Definition backslash : ascii := ascii_of_nat 92.

Definition quote_for (s : string) : ascii :=
  if has_char "'" s && negb (has_char dquote s) then dquote else "'"%char.

Definition repr_char (quote c : ascii) : string :=
  let n := nat_of_ascii c in
  if Ascii.eqb c quote || Ascii.eqb c backslash then String backslash (String c EmptyString)
  else if Nat.eqb n 9 then String backslash "t"
  else if Nat.eqb n 10 then String backslash "n"
  else if Nat.eqb n 13 then String backslash "r"
  else if Nat.ltb n 32 || Nat.eqb n 127 then
    String backslash
      (String "x" (String (hex_digit (n / 16)) (String (hex_digit (n mod 16)) EmptyString)))
  else String c EmptyString.

Fixpoint repr_body (quote : ascii) (s : string) : string :=
  match s with
  | EmptyString => EmptyString
  | String c s' => repr_char quote c +:+ repr_body quote s'
  end.

Definition py_repr (s : string) : string :=
  let q := quote_for s in
  String q (repr_body q s +:+ String q EmptyString).

Fixpoint join_comma (l : list string) : string :=
  match l with
  | [] => EmptyString
  | [x] => x
  | x :: rest => x +:+ ", " +:+ join_comma rest
  end.

Definition py_str (a : Artist) : string :=
  match a with
  | Single name => name
  | Multiple names => "[" +:+ join_comma (map py_repr names) +:+ "]"
  end.

(** *** Track.toDict / Track.fromDict

    A dictionary with the four keys of a track; a key may be absent (then
    subscripting raises [KeyError]).  Values that are present have the JSON
    type [toDict] writes. *)

Record trackDict := mkTrackDict {
  d_title : option string;
  d_artist : option Artist;
  d_album : option string;
  d_duration : option string
}.

Definition toDict (self : Track) : trackDict :=
  {| d_title := Some (trackTitle self);
     d_artist := Some (trackArtist self);
     d_album := Some (trackAlbum self);
     d_duration := Some (trackDuration self) |}.

(** [None] stands for the [KeyError] of a missing key. *)
Definition fromDict (data : trackDict) : option Track :=
  match d_title data, d_artist data, d_album data, d_duration data with
  | Some t, Some a, Some al, Some d => Some (mkTrack t a al d)
  | _, _, _, _ => None
  end.

(** *** Track.__eq__ (the [isinstance] test always passes: the queue only
    ever compares tracks with tracks). *)

Definition __eq__ (self other : Track) : bool :=
  String.eqb (trackTitle self) (trackTitle other)
  && String.eqb (py_str (trackArtist self)) (py_str (trackArtist other))
  && String.eqb (trackAlbum self) (trackAlbum other)
  && String.eqb (trackDuration self) (trackDuration other).

(** The tuple [__eq__] really compares. *)
Definition key (t : Track) : string * string * string * string :=
  (trackTitle t, py_str (trackArtist t), trackAlbum t, trackDuration t).

(** *** The equality the specification describes: text fields compared after
    case normalisation ([str.lower] on ASCII letters), artists as sets. *)

Definition lower_char (c : ascii) : ascii :=
  let n := nat_of_ascii c in
  if Nat.leb 65 n && Nat.leb n 90 then ascii_of_nat (n + 32) else c.

Fixpoint lower (s : string) : string :=
  match s with
  | EmptyString => EmptyString
  | String c s' => String (lower_char c) (lower s')
  end.

Definition artist_names (a : Artist) : list string :=
  match a with
  | Single name => [name]
  | Multiple names => names
  end.

Definition same_artist_set (a b : Artist) : Prop :=
  forall n, n ∈ map lower (artist_names a) <-> n ∈ map lower (artist_names b).

Definition spec_equal (a b : Track) : Prop :=
  lower (trackTitle a) = lower (trackTitle b)
  /\ same_artist_set (trackArtist a) (trackArtist b)
  /\ lower (trackAlbum a) = lower (trackAlbum b)
  /\ trackDuration a = trackDuration b.

End Track.

Export Track.

(** ** random.shuffle

    CPython: [for i in reversed(range(1, len(x))): j = randbelow(i + 1);
    x[i], x[j] = x[j], x[i]].  The generator is replaced by the list of its
    raw draws; [randbelow (i + 1)] is the next draw reduced below [i + 1]
    (a missing draw counts as 0). *)

Module Random.

Definition swap {A} (x : list A) (i j : nat) : list A :=
  match x !! i, x !! j with
  | Some a, Some b => <[j := a]> (<[i := b]> x)
  | _, _ => x
  end.

Fixpoint shuffle_down {A} (i : nat) (draws : list nat) (x : list A) : list A :=
  match i with
  | 0 => x
  | S i' =>
      let j := hd 0 draws mod (i + 1) in
      shuffle_down i' (tl draws) (swap x i j)
  end.

Definition shuffle {A} (draws : list nat) (x : list A) : list A :=
  shuffle_down (length x - 1) draws x.

End Random.

(** ** Queue.py *)

Module Queue.

(** The identity of a [LinkedListNode] object. *)
Abbreviation ref := nat (only parsing).

Record LinkedListNode := mkNode {
  trackData : Track;
  nextNode : option ref;
  prevNode : option ref
}.

(** The object store: reference [r] is the [r]-th node ever created.  Nodes
    are never freed (a node that is no longer linked is merely unreachable). *)
Abbreviation heap := (list LinkedListNode) (only parsing).

Record Queue := mkQueue {
  headNode : option ref;
  tailNode : option ref;
  activeNode : option ref;
  queueSize : nat;
  shuffleEnabled : bool;
  repeatEnabled : bool;
  playbackActive : bool;
  originalSequence : list Track
}.

(** [Queue.__init__] *)
Definition init : Queue :=
  {| headNode := None; tailNode := None; activeNode := None; queueSize := 0;
     shuffleEnabled := false; repeatEnabled := false; playbackActive := false;
     originalSequence := [] |}.

Definition set_headNode (v : option ref) (q : Queue) : Queue :=
  mkQueue v (tailNode q) (activeNode q) (queueSize q) (shuffleEnabled q)
    (repeatEnabled q) (playbackActive q) (originalSequence q).
Definition set_tailNode (v : option ref) (q : Queue) : Queue :=
  mkQueue (headNode q) v (activeNode q) (queueSize q) (shuffleEnabled q)
    (repeatEnabled q) (playbackActive q) (originalSequence q).
Definition set_activeNode (v : option ref) (q : Queue) : Queue :=
  mkQueue (headNode q) (tailNode q) v (queueSize q) (shuffleEnabled q)
    (repeatEnabled q) (playbackActive q) (originalSequence q).
Definition set_queueSize (v : nat) (q : Queue) : Queue :=
  mkQueue (headNode q) (tailNode q) (activeNode q) v (shuffleEnabled q)
    (repeatEnabled q) (playbackActive q) (originalSequence q).
Definition set_shuffleEnabled (v : bool) (q : Queue) : Queue :=
  mkQueue (headNode q) (tailNode q) (activeNode q) (queueSize q) v
    (repeatEnabled q) (playbackActive q) (originalSequence q).
Definition set_repeatEnabled (v : bool) (q : Queue) : Queue :=
  mkQueue (headNode q) (tailNode q) (activeNode q) (queueSize q) (shuffleEnabled q)
    v (playbackActive q) (originalSequence q).
Definition set_playbackActive (v : bool) (q : Queue) : Queue :=
  mkQueue (headNode q) (tailNode q) (activeNode q) (queueSize q) (shuffleEnabled q)
    (repeatEnabled q) v (originalSequence q).
Definition set_originalSequence (v : list Track) (q : Queue) : Queue :=
  mkQueue (headNode q) (tailNode q) (activeNode q) (queueSize q) (shuffleEnabled q)
    (repeatEnabled q) (playbackActive q) v.

(** *** The state file [storage/queue_state.json]

    The dictionary [saveQueueState] dumps.  A key may be missing from a file
    that was edited by hand or written by another version (subscripting
    then raises [KeyError]); a value that is present has the type
    [saveQueueState] gives it.  JSON text that decodes to something other
    than an object fails at the first subscript, like an object with no key
    at all. *)

Record stateData := mkStateData {
  tracks : option (list trackDict);
  current_index : option Z;
  is_shuffled : option bool;
  is_repeat : option bool;
  is_playing : option bool;
  original_order : option (list trackDict)
}.

Inductive stateFile :=
  | NoFile                      (* [os.path.exists] is false *)
  | NotJson                     (* [json.load] raises *)
  | Json (d : stateData).

(** *** Worlds and outcomes *)

Record World := mkWorld {
  store : heap;
  self : Queue;
  file : stateFile
}.

Inductive exn := AttributeError | KeyError | JSONDecodeError.

(** A method either returns, raises, or never comes back.  [Diverge] is a
    loop over the links that does not end (the walk has visited more nodes
    than exist), or the use of a reference to no object, which Python cannot
    produce. *)
Inductive outcome (A : Type) :=
  | Return (a : A) (w : World)
  | Raise (e : exn) (w : World)
  | Diverge.
Arguments Return {A} a w.
Arguments Raise {A} e w.
Arguments Diverge {A}.

Definition M (A : Type) := World -> outcome A.

Definition ret {A} (a : A) : M A := fun w => Return a w.

Definition bind {A B} (m : M A) (k : A -> M B) : M B :=
  fun w =>
    match m w with
    | Return a w' => k a w'
    | Raise e w' => Raise e w'
    | Diverge => Diverge
    end.

Declare Scope queue_scope.
Delimit Scope queue_scope with queue.
Notation "x <- m ;; k" := (bind m (fun x => k))
  (at level 100, m at next level, right associativity) : queue_scope.
Notation "m ;; k" := (bind m (fun _ => k))
  (at level 100, right associativity) : queue_scope.
Local Open Scope queue_scope.

Definition raise {A} (e : exn) : M A := fun w => Raise e w.

Definition getq {A} (f : Queue -> A) : M A := fun w => Return (f (self w)) w.

Definition modq (f : Queue -> Queue) : M unit :=
  fun w => Return tt (mkWorld (store w) (f (self w)) (file w)).

Definition get_file : M stateFile := fun w => Return (file w) w.

Definition write_file (f : stateFile) : M unit :=
  fun w => Return tt (mkWorld (store w) (self w) f).

(** [LinkedListNode(track)] *)
Definition new_node (track : Track) : M ref :=
  fun w => Return (length (store w))
             (mkWorld (store w ++ [mkNode track None None]) (self w) (file w)).

Definition read_node (r : ref) : M LinkedListNode :=
  fun w => match store w !! r with
           | Some n => Return n w
           | None => Diverge
           end.

Definition set_nextNode (r : ref) (v : option ref) : M unit :=
  fun w => match store w !! r with
           | Some n => Return tt (mkWorld (<[r := mkNode (trackData n) v (prevNode n)]> (store w))
                                    (self w) (file w))
           | None => Diverge
           end.

Definition set_prevNode (r : ref) (v : option ref) : M unit :=
  fun w => match store w !! r with
           | Some n => Return tt (mkWorld (<[r := mkNode (trackData n) (nextNode n) v]> (store w))
                                    (self w) (file w))
           | None => Diverge
           end.

(** A [while] loop over the links: it reads the store, never writes it, and
    may visit each existing node once. *)
Definition loop {A} (body : nat -> heap -> option A) : M A :=
  fun w => match body (length (store w)) (store w) with
           | Some a => Return a w
           | None => Diverge
           end.

Fixpoint forEach {A} (l : list A) (body : A -> M unit) : M unit :=
  match l with
  | [] => ret tt
  | x :: l' => body x ;; forEach l' body
  end.

(** [d[key]] *)
Definition subscript {A} (v : option A) : M A :=
  match v with
  | Some a => ret a
  | None => raise KeyError
  end.

(** [try: ... except: return False] *)
Definition try_except_False (body : M bool) : M bool :=
  fun w => match body w with
           | Return b w' => Return b w'
           | Raise _ w' => Return false w'
           | Diverge => Diverge
           end.

(** *** The loops *)

(** addTrack, lines 58-63: is some node's track equal to [track]? *)
Fixpoint findDuplicate (fuel : nat) (h : heap) (currentNode : option ref) (track : Track)
  : option bool :=
  match currentNode with
  | None => Some false
  | Some r =>
      match fuel with
      | 0 => None
      | S fuel' =>
          match h !! r with
          | None => None
          | Some n =>
              if __eq__ (trackData n) track then Some true
              else findDuplicate fuel' h (nextNode n) track
          end
      end
  end.

(** lines 74-76 (and 203-205, 219-221, 235-237, 283-285): walk to the node
    without successor. *)
Fixpoint lastNode (fuel : nat) (h : heap) (current : ref) : option ref :=
  match fuel with
  | 0 => None
  | S fuel' =>
      match h !! current with
      | None => None
      | Some n =>
          match nextNode n with
          | None => Some current
          | Some nx => lastNode fuel' h nx
          end
      end
  end.

(** lines 82-86: count the nodes. *)
Fixpoint countNodes (fuel : nat) (h : heap) (counter : option ref) (size : nat)
  : option nat :=
  match counter with
  | None => Some size
  | Some r =>
      match fuel with
      | 0 => None
      | S fuel' =>
          match h !! r with
          | None => None
          | Some n => countNodes fuel' h (nextNode n) (size + 1)
          end
      end
  end.

(** lines 153-156: append every track to [seq]. *)
Fixpoint collectTracks (fuel : nat) (h : heap) (node : option ref) (seq : list Track)
  : option (list Track) :=
  match node with
  | None => Some seq
  | Some r =>
      match fuel with
      | 0 => None
      | S fuel' =>
          match h !! r with
          | None => None
          | Some n => collectTracks fuel' h (nextNode n) (seq ++ [trackData n])
          end
      end
  end.

(** lines 159-167: the position of the active node, -1 when it is not met. *)
Fixpoint findPosition (fuel : nat) (h : heap) (node : option ref) (active : option ref)
    (pos : Z) : option Z :=
  match node with
  | None => Some (-1)%Z
  | Some r =>
      match fuel with
      | 0 => None
      | S fuel' =>
          if decide (Some r = active) then Some pos
          else match h !! r with
               | None => None
               | Some n => findPosition fuel' h (nextNode n) active (pos + 1)
               end
      end
  end.

(** lines 170-183: the tracks before and after [activePosition]. *)
Fixpoint splitAround (fuel : nat) (h : heap) (node : option ref) (currentPos activePosition : Z)
    (precedingTracks followingTracks : list Track) : option (list Track * list Track) :=
  match node with
  | None => Some (precedingTracks, followingTracks)
  | Some r =>
      match fuel with
      | 0 => None
      | S fuel' =>
          match h !! r with
          | None => None
          | Some n =>
              if (currentPos <? activePosition)%Z then
                splitAround fuel' h (nextNode n) (currentPos + 1) activePosition
                  (precedingTracks ++ [trackData n]) followingTracks
              else if (activePosition <? currentPos)%Z then
                splitAround fuel' h (nextNode n) (currentPos + 1) activePosition
                  precedingTracks (followingTracks ++ [trackData n])
              else
                splitAround fuel' h (nextNode n) (currentPos + 1) activePosition
                  precedingTracks followingTracks
          end
      end
  end.

(** lines 264-267: [found] *)
Definition foundIn (originalSequence : list Track) (t : Track) : bool :=
  existsb (fun origTrack => __eq__ t origTrack) originalSequence.

(** lines 260-270: the tracks of the queue that are not in [originalSequence]. *)
Fixpoint collectNew (fuel : nat) (h : heap) (node : option ref) (originalSequence : list Track)
    (newlyAddedTracks : list Track) : option (list Track) :=
  match node with
  | None => Some newlyAddedTracks
  | Some r =>
      match fuel with
      | 0 => None
      | S fuel' =>
          match h !! r with
          | None => None
          | Some n =>
              collectNew fuel' h (nextNode n) originalSequence
                (if foundIn originalSequence (trackData n) then newlyAddedTracks
                 else newlyAddedTracks ++ [trackData n])
          end
      end
  end.

(** lines 297-304: the first node whose track equals [activeTrack]. *)
Fixpoint findTrack (fuel : nat) (h : heap) (node : option ref) (activeTrack : Track)
  : option (option ref) :=
  match node with
  | None => Some None
  | Some r =>
      match fuel with
      | 0 => None
      | S fuel' =>
          match h !! r with
          | None => None
          | Some n =>
              if __eq__ (trackData n) activeTrack then Some (Some r)
              else findTrack fuel' h (nextNode n) activeTrack
          end
      end
  end.

(** lines 454-464: the dictionaries of all tracks and the index of the
    active node (-1 when no node of the sequence is the active one). *)
Fixpoint serializeNodes (fuel : nat) (h : heap) (node active : option ref) (position : Z)
    (dicts : list trackDict) (activeIndex : Z) : option (list trackDict * Z) :=
  match node with
  | None => Some (dicts, activeIndex)
  | Some r =>
      match fuel with
      | 0 => None
      | S fuel' =>
          match h !! r with
          | None => None
          | Some n =>
              serializeNodes fuel' h (nextNode n) active (position + 1)
                (dicts ++ [toDict (trackData n)])
                (if decide (Some r = active) then position else activeIndex)
          end
      end
  end.

(** lines 512-515: [for i in range(activeIndex): if node: node = node.nextNode] *)
Fixpoint stepForward (steps : nat) (h : heap) (node : option ref) : option (option ref) :=
  match steps with
  | 0 => Some node
  | S steps' =>
      match node with
      | None => stepForward steps' h None
      | Some r =>
          match h !! r with
          | None => None
          | Some n => stepForward steps' h (nextNode n)
          end
      end
  end.

(** *** The methods *)

(** saveQueueState (writing the file is taken to succeed). *)
Definition saveQueueState : M unit :=
  head <- getq headNode ;;
  active <- getq activeNode ;;
  r <- loop (fun fuel h => serializeNodes fuel h head active 0 [] (-1)) ;;
  q <- getq id ;;
  let originalData := map toDict (originalSequence q) in
  write_file (Json {| tracks := Some r.1;
                      current_index := Some r.2;
                      is_shuffled := Some (shuffleEnabled q);
                      is_repeat := Some (repeatEnabled q);
                      is_playing := Some (playbackActive q);
                      original_order := Some originalData |}).

(** lines 72-80 and their copies at 202-208, 218-224, 234-240, 282-288:
    link [node] behind the last node reached from [first]. *)
Definition linkBehindLast (first node : ref) : M unit :=
  current <- loop (fun fuel h => lastNode fuel h first) ;;
  set_nextNode current (Some node) ;;
  set_prevNode node (Some current) ;;
  modq (set_tailNode (Some node)).

Definition addTrack (track : Track) : M bool :=
  head <- getq headNode ;;
  duplicate <- loop (fun fuel h => findDuplicate fuel h head track) ;;
  if (duplicate : bool) then ret false
  else
    newNode <- new_node track ;;
    match head with
    | None =>
        modq (set_headNode (Some newNode)) ;;
        modq (set_tailNode (Some newNode)) ;;
        modq (set_activeNode (Some newNode))
    | Some first => linkBehindLast first newNode
    end ;;
    modq (set_queueSize 0) ;;
    head <- getq headNode ;;
    size <- loop (fun fuel h => countNodes fuel h head 0) ;;
    modq (set_queueSize size) ;;
    shuffled <- getq shuffleEnabled ;;
    (if (shuffled : bool) then ret tt
     else modq (fun q => set_originalSequence (originalSequence q ++ [track]) q)) ;;
    ret true.

Definition loadTracks (trackCollection : list Track) : M unit :=
  forEach trackCollection (fun track => addTrack track ;; ret tt) ;;
  saveQueueState.

Definition startPlayback : M unit :=
  repeat <- getq repeatEnabled ;;
  active <- getq activeNode ;;
  tail <- getq tailNode ;;
  (if negb repeat && bool_decide (active = tail)
   then head <- getq headNode ;; modq (set_activeNode head)
   else ret tt) ;;
  modq (set_playbackActive true) ;;
  saveQueueState.

Definition pausePlayback : M unit :=
  modq (set_playbackActive false) ;;
  saveQueueState.

(** [return self.__activeNode.trackData] *)
Definition returnActiveTrack : M (option Track) :=
  active <- getq activeNode ;;
  match active with
  | None => raise AttributeError
  | Some a => n <- read_node a ;; ret (Some (trackData n))
  end.

Definition advanceToNext : M (option Track) :=
  active <- getq activeNode ;;
  match active with
  | None => ret None
  | Some a =>
      n <- read_node a ;;
      repeat <- getq repeatEnabled ;;
      match nextNode n with
      | Some nx =>
          modq (set_activeNode (Some nx)) ;;
          saveQueueState ;;
          returnActiveTrack
      | None =>
          if (repeat : bool) then
            head <- getq headNode ;;
            modq (set_activeNode head) ;;
            saveQueueState ;;
            returnActiveTrack
          else
            modq (set_playbackActive false) ;;
            saveQueueState ;;
            ret None
      end
  end.

Definition rewindToPrevious : M (option Track) :=
  active <- getq activeNode ;;
  match active with
  | None => ret None
  | Some a =>
      n <- read_node a ;;
      repeat <- getq repeatEnabled ;;
      match prevNode n with
      | Some pv => modq (set_activeNode (Some pv))
      | None =>
          if (repeat : bool) then
            tail <- getq tailNode ;;
            modq (set_activeNode tail)
          else ret tt
      end ;;
      saveQueueState ;;
      returnActiveTrack
  end.

(** lines 198-209 and their copies: a new node for [track] at the end. *)
Definition appendNode (track : Track) : M ref :=
  node <- new_node track ;;
  head <- getq headNode ;;
  match head with
  | None =>
      modq (set_headNode (Some node)) ;;
      modq (set_tailNode (Some node))
  | Some first => linkBehindLast first node
  end ;;
  ret node.

Definition rebuild (trackList : list Track) : M unit :=
  forEach trackList (fun track =>
    appendNode track ;;
    modq (fun q => set_queueSize (queueSize q + 1) q)).

(** [self.__activeNode.trackData if self.__activeNode else None] *)
Definition activeTrackOrNone : M (option Track) :=
  active <- getq activeNode ;;
  match active with
  | None => ret None
  | Some a => n <- read_node a ;; ret (Some (trackData n))
  end.

(** lines 243-245, 306-308 *)
Definition defaultActiveToHead : M unit :=
  active <- getq activeNode ;;
  match active with
  | None => head <- getq headNode ;; modq (set_activeNode head)
  | Some _ => ret tt
  end.

Definition shuffleQueue (draws : list nat) : M unit :=
  shuffled <- getq shuffleEnabled ;;
  if (shuffled : bool) then ret tt
  else
    size <- getq queueSize ;;
    if size <=? 1 then ret tt
    else
      original <- getq originalSequence ;;
      head <- getq headNode ;;
      (if length original =? 0 then
         seq <- loop (fun fuel h => collectTracks fuel h head original) ;;
         modq (set_originalSequence seq)
       else ret tt) ;;
      active <- getq activeNode ;;
      activePosition <- loop (fun fuel h => findPosition fuel h head active 0) ;;
      parts <- loop (fun fuel h => splitAround fuel h head 0 activePosition [] []) ;;
      let precedingTracks := parts.1 in
      activeTrack <- activeTrackOrNone ;;
      let followingTracks := Random.shuffle draws parts.2 in
      modq (set_headNode None) ;;
      modq (set_tailNode None) ;;
      modq (set_queueSize 0) ;;
      rebuild precedingTracks ;;
      match activeTrack with
      | Some track =>
          node <- appendNode track ;;
          modq (set_activeNode (Some node)) ;;
          modq (fun q => set_queueSize (queueSize q + 1) q)
      | None => ret tt
      end ;;
      rebuild followingTracks ;;
      defaultActiveToHead ;;
      modq (set_shuffleEnabled true) ;;
      saveQueueState ;;
      shuffled <- getq shuffleEnabled ;;
      if (shuffled : bool) then ret tt else modq (set_shuffleEnabled true).

Definition restoreOriginalOrder : M unit :=
  shuffled <- getq shuffleEnabled ;;
  if negb shuffled then ret tt
  else
    activeTrack <- activeTrackOrNone ;;
    head <- getq headNode ;;
    original <- getq originalSequence ;;
    newlyAddedTracks <- loop (fun fuel h => collectNew fuel h head original []) ;;
    let allTracks := original ++ newlyAddedTracks in
    modq (set_headNode None) ;;
    modq (set_tailNode None) ;;
    modq (set_queueSize 0) ;;
    rebuild allTracks ;;
    forEach newlyAddedTracks (fun track =>
      modq (fun q => set_originalSequence (originalSequence q ++ [track]) q)) ;;
    modq (set_activeNode None) ;;
    match activeTrack with
    | Some track =>
        head <- getq headNode ;;
        found <- loop (fun fuel h => findTrack fuel h head track) ;;
        match found with
        | Some node => modq (set_activeNode (Some node))
        | None => ret tt
        end
    | None => ret tt
    end ;;
    defaultActiveToHead ;;
    modq (set_shuffleEnabled false) ;;
    saveQueueState.

Definition toggleRepeat : M bool :=
  modq (fun q => set_repeatEnabled (negb (repeatEnabled q)) q) ;;
  saveQueueState ;;
  getq repeatEnabled.

Definition clearQueue : M unit :=
  modq (set_headNode None) ;;
  modq (set_tailNode None) ;;
  modq (set_activeNode None) ;;
  modq (set_queueSize 0) ;;
  modq (set_shuffleEnabled false) ;;
  modq (set_repeatEnabled false) ;;
  modq (set_playbackActive false) ;;
  modq (set_originalSequence []) ;;
  saveQueueState.

Definition getCurrentTrack : M (option Track) := activeTrackOrNone.

Definition isPlaying : M bool := getq playbackActive.
Definition isShuffled : M bool := getq shuffleEnabled.
Definition isRepeatOn : M bool := getq repeatEnabled.
Definition getSize : M nat := getq queueSize.

(** The body of the loop of lines 497-507: one more track from the file. *)
Definition restoreTrack (trackDict : trackDict) : M unit :=
  track <- subscript (fromDict trackDict) ;;
  node <- new_node track ;;
  head <- getq headNode ;;
  match head with
  | None =>
      modq (set_headNode (Some node)) ;;
      modq (set_tailNode (Some node))
  | Some _ =>
      tail <- getq tailNode ;;
      match tail with
      | None => raise AttributeError
      | Some tl =>
          set_nextNode tl (Some node) ;;
          set_prevNode node (Some tl) ;;
          modq (set_tailNode (Some node))
      end
  end ;;
  modq (fun q => set_queueSize (queueSize q + 1) q).

(** The body of the loop of lines 525-527. *)
Definition restoreOriginal (trackDict : trackDict) : M unit :=
  track <- subscript (fromDict trackDict) ;;
  modq (fun q => set_originalSequence (originalSequence q ++ [track]) q).

(** The body of the [try] in loadQueueState, lines 488-529. *)
Definition loadFrom (f : stateFile) : M bool :=
  stateData <- match f with
               | Json d => ret d
               | _ => raise JSONDecodeError
               end ;;
  modq (set_headNode None) ;;
  modq (set_tailNode None) ;;
  modq (set_queueSize 0) ;;
  trackDicts <- subscript (tracks stateData) ;;
  forEach trackDicts restoreTrack ;;
  activeIndex <- subscript (current_index stateData) ;;
  (if (0 <=? activeIndex)%Z then
     head <- getq headNode ;;
     node <- loop (fun _ h => stepForward (Z.to_nat activeIndex) h head) ;;
     modq (set_activeNode node)
   else ret tt) ;;
  shuffled <- subscript (is_shuffled stateData) ;;
  modq (set_shuffleEnabled shuffled) ;;
  repeat <- subscript (is_repeat stateData) ;;
  modq (set_repeatEnabled repeat) ;;
  playing <- subscript (is_playing stateData) ;;
  modq (set_playbackActive playing) ;;
  modq (set_originalSequence []) ;;
  originalDicts <- subscript (original_order stateData) ;;
  forEach originalDicts restoreOriginal ;;
  ret true.

Definition loadQueueState : M bool :=
  f <- get_file ;;
  match f with
  | NoFile => ret false
  | _ => try_except_False (loadFrom f)
  end.

End Queue.

Export Queue.

(** ** Main.py: the one caller of [addTrack] outside the queue

    handleAddTrackToQueue, lines 193-196, for a track already selected from
    the library: the queue is saved only when the track was added. *)
Definition handleAddTrackToQueue (selectedTrack : Track) : M unit :=
  (wasAdded <- addTrack selectedTrack ;;
   if (wasAdded : bool) then saveQueueState else ret tt)%queue.

(** A new process: [playbackQueue = Queue()], nothing allocated, the file as
    it was left. *)
Definition startup (f : stateFile) : World :=
  {| store := []; self := Queue.init; file := f |}.

Local Open Scope queue_scope.

(** ** What a test would observe *)

(** The tracks met from the head, in order (the walk of lines 153-156). *)
Definition sequence (w : World) : option (list Track) :=
  collectTracks (length (store w)) (store w) (headNode (self w)) [].

(** The zero-based position of the active node, -1 when the walk from the
    head does not meet it (the walk of lines 159-167). *)
Definition activeIndex (w : World) : option Z :=
  findPosition (length (store w)) (store w) (headNode (self w)) (activeNode (self w)) 0.

(** The number of nodes met from the head (the walk of lines 82-86). *)
Definition nodeCount (w : World) : option nat :=
  countNodes (length (store w)) (store w) (headNode (self w)) 0.

(** What [saveQueueState] would write for this world. *)
Definition serialization (w : World) : option stateFile :=
  match saveQueueState w with
  | Return _ w' => Some (file w')
  | _ => None
  end.

(** [advanceToNext] called [n] times, with the list of the values returned. *)
Fixpoint advanceTimes (n : nat) : M (list (option Track)) :=
  match n with
  | 0 => ret []
  | S n' =>
      r <- advanceToNext ;;
      rs <- advanceTimes n' ;;
      ret (r :: rs)
  end.

(** ** The linked structure *)

(** [dlist h prev first cs]: starting at [first] and following [nextNode],
    the store holds exactly the cells [cs] (reference and track), the back
    link of each cell is its predecessor ([prev] for the first), and the
    last cell has no successor. *)
Fixpoint dlist (h : heap) (prev first : option ref) (cs : list (ref * Track)) : Prop :=
  match cs with
  | [] => first = None
  | c :: cs' =>
      first = Some c.1
      /\ h !! c.1 = Some (mkNode c.2 (head cs'.*1) prev)
      /\ dlist h (Some c.1) (head cs'.*1) cs'
  end.

(** The queue fields describe the list [cs]. *)
Definition linked (h : heap) (hd tl : option ref) (sz : nat) (cs : list (ref * Track)) : Prop :=
  dlist h None hd cs /\ tl = last cs.*1 /\ sz = length cs.

Definition cells (w : World) (cs : list (ref * Track)) : Prop :=
  linked (store w) (headNode (self w)) (tailNode (self w)) (queueSize (self w)) cs.

(** A reference is to an object of the store. *)
Definition in_store (h : heap) (o : option ref) : Prop :=
  match o with
  | Some r => r < length h
  | None => True
  end.

(** No node of the store links to an object that does not exist. *)
Definition closed (h : heap) : Prop :=
  forall r n, h !! r = Some n -> in_store h (nextNode n) /\ in_store h (prevNode n).

(** Head, tail and size describe a null-terminated doubly-linked list, and
    no reference dangles. *)
Definition well_formed (w : World) : Prop :=
  (exists cs, cells w cs)
  /\ closed (store w)
  /\ in_store (store w) (activeNode (self w)).

(** The first position of [active] among [rs], counted from [pos]; -1 when absent. *)
Fixpoint positionFrom (pos : Z) (active : option ref) (rs : list ref) : Z :=
  match rs with
  | [] => (-1)%Z
  | r :: rs' => if decide (Some r = active) then pos else positionFrom (pos + 1) active rs'
  end.

(** The active node is one of the nodes of a non-empty queue. *)
Definition active_ok (active : option ref) (cs : list (ref * Track)) : Prop :=
  cs = [] \/ exists r, active = Some r /\ r ∈ cs.*1.

(** No two tracks are equal for [__eq__]; [originalSequence] is the sequence
    itself while the queue is not shuffled. *)
Definition content_ok (shuffled : bool) (ts original : list Track) : Prop :=
  NoDup (key <$> ts)
  /\ if shuffled then NoDup (key <$> original) else original = ts.

Definition snapshot (ts : list Track) (index : Z) (shuffled repeat playing : bool)
    (original : list Track) : stateData :=
  {| tracks := Some (toDict <$> ts);
     current_index := Some index;
     is_shuffled := Some shuffled;
     is_repeat := Some repeat;
     is_playing := Some playing;
     original_order := Some (toDict <$> original) |}.

(** The file is absent or was written by [saveQueueState] in a good state. *)
Definition file_ok (f : stateFile) : Prop :=
  f = NoFile
  \/ exists ts index shuffled repeat playing original,
       f = Json (snapshot ts index shuffled repeat playing original)
       /\ content_ok shuffled ts original
       /\ ((index = -1 /\ ts = []) \/ (0 <= index < Z.of_nat (length ts)))%Z.

Definition consistent (w : World) : Prop :=
  exists cs,
    cells w cs
    /\ active_ok (activeNode (self w)) cs
    /\ content_ok (shuffleEnabled (self w)) cs.*2 (originalSequence (self w))
    /\ file_ok (file w).

(** ** Runs of the program *)

Inductive call :=
  | CallAddTrack (track : Track)
  | CallLoadTracks (trackCollection : list Track)
  | CallStartPlayback
  | CallPausePlayback
  | CallAdvanceToNext
  | CallRewindToPrevious
  | CallShuffleQueue (draws : list nat)
  | CallRestoreOriginalOrder
  | CallToggleRepeat
  | CallClearQueue
  | CallSaveQueueState
  | CallLoadQueueState
  | CallHandleAddTrackToQueue (track : Track).

Definition exec (c : call) : M unit :=
  match c with
  | CallAddTrack t => addTrack t ;; ret tt
  | CallLoadTracks ts => loadTracks ts
  | CallStartPlayback => startPlayback
  | CallPausePlayback => pausePlayback
  | CallAdvanceToNext => advanceToNext ;; ret tt
  | CallRewindToPrevious => rewindToPrevious ;; ret tt
  | CallShuffleQueue draws => shuffleQueue draws
  | CallRestoreOriginalOrder => restoreOriginalOrder
  | CallToggleRepeat => toggleRepeat ;; ret tt
  | CallClearQueue => clearQueue
  | CallSaveQueueState => saveQueueState
  | CallLoadQueueState => loadQueueState ;; ret tt
  | CallHandleAddTrackToQueue t => handleAddTrackToQueue t
  end.

(** One step of a run: a call that returns; a call that raises, which ends
    the process, followed by a new process on the file as left; or the end
    of the process and a new one. *)
Inductive step : World -> World -> Prop :=
  | step_return c w w' : exec c w = Return tt w' -> step w w'
  | step_raise c e w w' : exec c w = Raise e w' -> step w (startup (file w'))
  | step_restart w : step w (startup (file w)).

(** The worlds a run can reach when the first process finds the file [f0]. *)
Inductive reachable_from (f0 : stateFile) : World -> Prop :=
  | reachable_startup : reachable_from f0 (startup f0)
  | reachable_step w w' : reachable_from f0 w -> step w w' -> reachable_from f0 w'.

(** The worlds of a run that began without a state file. *)
Definition reachable : World -> Prop := reachable_from NoFile.

(** ** A small run, used to exercise the theorems *)

Definition trackA : Track := mkTrack "Intro" (Single "Ana") "First" "3:05".
Definition trackB : Track := mkTrack "Bridge" (Multiple ["Ana"; "Ben"]) "First" "4:10".
Definition trackC : Track := mkTrack "Coda" (Single "Cy") "Second" "2:45".

(** The world a call leaves behind. *)
Definition run (c : call) (w : World) : World :=
  match exec c w with
  | Return _ w' | Raise _ w' => w'
  | Diverge => w
  end.

(** Tracks A, B, C queued in a first process. *)
Definition queueABC : World :=
  Eval vm_compute in run (CallLoadTracks [trackA; trackB; trackC]) (startup NoFile).

(** The same, one step forward: B is active. *)
Definition queueABC_atB : World := Eval vm_compute in run CallAdvanceToNext queueABC.

(** The same, at the end, with repeat on. *)
Definition queueABC_atC : World := Eval vm_compute in run CallAdvanceToNext queueABC_atB.
Definition queueABC_atC_repeat : World := Eval vm_compute in run CallToggleRepeat queueABC_atC.

Definition trackD : Track := mkTrack "Dawn" (Single "Dee") "Second" "5:00".

(** Four tracks, B active. *)
Definition queueABCD : World :=
  Eval vm_compute in run (CallLoadTracks [trackA; trackB; trackC; trackD]) (startup NoFile).
Definition queueABCD_atB : World := Eval vm_compute in run CallAdvanceToNext queueABCD.

(** Three tracks, A active, repeat on. *)
Definition queueABC_repeat : World := Eval vm_compute in run CallToggleRepeat queueABC.


(** A state file cut short by hand: the track list is there, the rest is not. *)
Definition truncatedFile : stateFile :=
  Json {| tracks := Some [toDict trackA];
          current_index := None;
          is_shuffled := None;
          is_repeat := None;
          is_playing := None;
          original_order := None |}.

(** The queue of a new process after [loadQueueState] on that file, and
    after a track is then added. *)
Definition halfLoaded : World :=
  Eval vm_compute in run CallLoadQueueState (startup truncatedFile).
Definition halfLoadedPlusB : World :=
  Eval vm_compute in run (CallAddTrack trackB) halfLoaded.


(** The outcome of the tail of [advanceToNext] and [rewindToPrevious] once
    the active node is [ac']: the state is saved and the track of the active
    node is returned. *)
Definition afterMove (h : heap) (hd tl ac' : option ref) (sz : nat) (sh rp pl : bool)
    (og : list Track) (cs : list (ref * Track)) : outcome (option Track) :=
  let w' := mkWorld h (mkQueue hd tl ac' sz sh rp pl og)
              (Json (snapshot cs.*2 (positionFrom 0 ac' cs.*1) sh rp pl og)) in
  match ac' with
  | None => Raise AttributeError w'
  | Some a' =>
      match h !! a' with
      | Some n' => Return (Some (trackData n')) w'
      | None => Diverge
      end
  end.

(** The method came back, by return or by exception, and [P] holds of the
    world it left behind. *)
Definition ends_in {A} (P : World -> Prop) (o : outcome A) : Prop :=
  match o with
  | Return _ w | Raise _ w => P w
  | Diverge => False
  end.

(** [P] holds of the world a method leaves behind, whether it returns or
    raises. *)
Definition after {A} (P : World -> Prop) (o : outcome A) : Prop :=
  match o with
  | Return _ w | Raise _ w => P w
  | Diverge => True
  end.

(** ** Queue.py: the page of the active track

    getCurrentPageNumber, lines 362-385.  The second loop leaves with the
    number of nodes before the active one, or with the number of all nodes
    when the active node is not on the chain. *)
Fixpoint positionOfActive (fuel : nat) (h : heap) (node active : option ref) (position : nat)
  : option nat :=
  match node with
  | None => Some position
  | Some r =>
      match fuel with
      | 0 => None
      | S fuel' =>
          if decide (Some r = active) then Some position
          else match h !! r with
               | None => None
               | Some n => positionOfActive fuel' h (nextNode n) active (position + 1)
               end
      end
  end.

Definition getCurrentPageNumber : M nat :=
  active <- getq activeNode ;;
  match active with
  | None => ret 1
  | Some _ =>
      head <- getq headNode ;;
      totalSize <- loop (fun fuel h => countNodes fuel h head 0) ;;
      position <- loop (fun fuel h => positionOfActive fuel h head active 0) ;;
      let page := position / 10 + 1 in
      let totalPages := totalSize / 10 + 1 in
      ret (if totalPages <? page then totalPages else page)
  end.

(** ** Main.py: the handlers of the queue menu

    Lines 696-737, without what they print.  [handleToggleShuffle] takes the
    random draws of [shuffleQueue]; [handleClearQueue] takes the answer
    typed at its prompt. *)
Definition handlePlayPause : M unit :=
  playing <- isPlaying ;;
  if (playing : bool) then pausePlayback else startPlayback.

Definition handleNext : M unit := nextTrack <- advanceToNext ;; ret tt.

Definition handlePrevious : M unit := prevTrack <- rewindToPrevious ;; ret tt.

Definition handleToggleRepeat : M unit := repeatState <- toggleRepeat ;; ret tt.

Definition handleToggleShuffle (draws : list nat) : M unit :=
  shuffled <- isShuffled ;;
  if (shuffled : bool) then restoreOriginalOrder else shuffleQueue draws.

Definition handleClearQueue (confirm : string) : M unit :=
  if String.eqb (lower confirm) "y" then clearQueue else ret tt.

(** The two calls by which a playlist or an album becomes the queue, lines
    337-338, 392-393, 540-541, 636-637 and 662-663. *)
Definition queueTracks (trackCollection : list Track) : M unit :=
  clearQueue ;; loadTracks trackCollection.

(** What Main does to [playbackQueue]: the six handlers of [QUEUE_ACTIONS],
    [handleAddTrackToQueue] with the track taken from the library,
    [queueTracks], and the [loadQueueState] with which [processQueue]
    opens, whose result is dropped. *)
Inductive action :=
  | PlayPause
  | Next
  | Previous
  | ToggleRepeat
  | ToggleShuffle (draws : list nat)
  | ClearQueue (confirm : string)
  | AddTrackToQueue (selectedTrack : Track)
  | QueueTracks (trackCollection : list Track)
  | OpenQueue.

Definition perform (a : action) : M unit :=
  match a with
  | PlayPause => handlePlayPause
  | Next => handleNext
  | Previous => handlePrevious
  | ToggleRepeat => handleToggleRepeat
  | ToggleShuffle draws => handleToggleShuffle draws
  | ClearQueue confirm => handleClearQueue confirm
  | AddTrackToQueue selectedTrack => handleAddTrackToQueue selectedTrack
  | QueueTracks trackCollection => queueTracks trackCollection
  | OpenQueue => loadQueueState ;; ret tt
  end.

(** One step of the program as a user drives it: an action that returns, an
    action that raises (the process dies and the next one starts on the
    file as it is), or the end of the process at any moment, for whatever
    reason, and the start of the next. *)
Inductive session_step : World -> World -> Prop :=
  | session_return a w w' : perform a w = Return tt w' -> session_step w w'
  | session_raise a e w w' : perform a w = Raise e w' -> session_step w (startup (file w'))
  | session_restart w : session_step w (startup (file w)).

(** The worlds of the program, from a first process that finds [f0]. *)
Inductive session (f0 : stateFile) : World -> Prop :=
  | session_startup : session f0 (startup f0)
  | session_next w w' : session f0 w -> session_step w w' -> session f0 w'.

(** The queue of a process that has not touched it yet. *)
Definition pristine (w : World) : Prop := store w = [] /\ self w = Queue.init.

(** The state file is what [saveQueueState] would write now. *)
Definition in_sync (w : World) : Prop := serialization w = Some (file w).

(** A queue without a head has no active node. *)
Definition no_stale (w : World) : Prop :=
  headNode (self w) = None -> activeNode (self w) = None.

Definition settled (w : World) : Prop :=
  well_formed w /\ consistent w /\ no_stale w.

(** The calls that move the cursor or set a flag of playback. *)
Definition navigates (c : call) : bool :=
  match c with
  | CallStartPlayback | CallPausePlayback | CallAdvanceToNext | CallRewindToPrevious
  | CallToggleRepeat => true
  | _ => false
  end.

(** ** Built-in functions of Python, as far as the library and the albums use them *)

Module Builtins.

(** The exceptions these functions raise. *)
Inductive failure := ValueError | IndexError | TypeError.

Inductive result (A : Type) :=
  | Ok (a : A)
  | Err (e : failure).
Arguments Ok {A} a.
Arguments Err {A} e.

Definition result_bind {A B} (m : result A) (k : A -> result B) : result B :=
  match m with
  | Ok a => k a
  | Err e => Err e
  end.

Declare Scope result_scope.
Delimit Scope result_scope with result.
Notation "x <- m ;; k" := (result_bind m (fun x => k))
  (at level 100, m at next level, right associativity) : result_scope.

(** [l[i]] for an index that is not negative. *)
Definition item {A} (l : list A) (i : nat) : result A :=
  match l !! i with
  | Some a => Ok a
  | None => Err IndexError
  end.

(** [s.split(sep)] for a separator of one character: the pieces between the
    separators, one more than there are separators. *)
Fixpoint split (sep : ascii) (s : string) : list string :=
  match s with
  | EmptyString => [EmptyString]
  | String c s' =>
      if Ascii.eqb c sep then EmptyString :: split sep s'
      else match split sep s' with
           | part :: parts => String c part :: parts
           | [] => [String c EmptyString]
           end
  end.

(** [int(s)]: white space, an optional sign, decimal digits that single
    underscores may separate, white space.  Anything else is a [ValueError],
    and so is a literal of more than 4300 digits (the default of
    [sys.set_int_max_str_digits]).  Characters above 127 are taken to be
    neither digits nor white space. *)
Definition is_space (c : ascii) : bool :=
  let n := nat_of_ascii c in
  (Nat.leb 9 n && Nat.leb n 13) || Nat.eqb n 32.

Definition digit (c : ascii) : option Z :=
  let n := nat_of_ascii c in
  if Nat.leb 48 n && Nat.leb n 57 then Some (Z.of_nat (n - 48)) else None.

Fixpoint lstrip (s : string) : string :=
  match s with
  | String c s' => if is_space c then lstrip s' else s
  | EmptyString => s
  end.

Fixpoint all_space (s : string) : bool :=
  match s with
  | String c s' => is_space c && all_space s'
  | EmptyString => true
  end.

(** The value and the number of the digits of [s]; [after_digit] tells
    whether the character before was a digit. *)
Fixpoint digits (value : Z) (seen : nat) (after_digit : bool) (s : string)
  : option (Z * nat) :=
  match s with
  | EmptyString => if after_digit then Some (value, seen) else None
  | String c s' =>
      match digit c with
      | Some d => digits (10 * value + d) (S seen) true s'
      | None =>
          if Ascii.eqb c "_" then
            if after_digit then digits value seen false s' else None
          else if after_digit && all_space s then Some (value, seen)
          else None
      end
  end.

Definition max_str_digits : nat := 4300.

Definition int (s : string) : result Z :=
  let s := lstrip s in
  let '(negative, body) :=
    match s with
    | String c s' =>
        if Ascii.eqb c "-" then (true, s')
        else if Ascii.eqb c "+" then (false, s')
        else (false, s)
    | EmptyString => (false, s)
    end in
  match digits 0 0 false body with
  | Some (value, seen) =>
      if Nat.ltb max_str_digits seen then Err ValueError
      else Ok (if (negative : bool) then (- value)%Z else value)
  | None => Err ValueError
  end.

(** [needle in haystack] *)
Fixpoint startswith (s prefix : string) : bool :=
  match prefix, s with
  | EmptyString, _ => true
  | String a prefix', String b s' => Ascii.eqb a b && startswith s' prefix'
  | String _ _, EmptyString => false
  end.

Fixpoint contains (haystack needle : string) : bool :=
  startswith haystack needle
  || match haystack with
     | EmptyString => false
     | String _ s' => contains s' needle
     end.

End Builtins.

Export Builtins.

(** A decimal numeral, as [int] reads one: at least one digit, at most 4300,
    and nothing else; and the number it denotes. *)
Fixpoint all_digits (s : string) : bool :=
  match s with
  | EmptyString => true
  | String c s' => bool_decide (is_Some (digit c)) && all_digits s'
  end.

Definition numeral (s : string) : Prop :=
  s <> EmptyString /\ all_digits s = true /\ String.length s <= max_str_digits.

Fixpoint number_from (value : Z) (s : string) : Z :=
  match s with
  | EmptyString => value
  | String c s' => number_from (10 * value + default 0%Z (digit c)) s'
  end.

Definition number (s : string) : Z := number_from 0 s.

Local Open Scope result_scope.

(** ** Track.py, the methods the library and the albums use *)

(** [convertDurationToSeconds] *)
Definition convertDurationToSeconds (self : Track) : result Z :=
  let timeParts := split ":" (trackDuration self) in
  first <- item timeParts 0 ;;
  mins <- int first ;;
  second <- item timeParts 1 ;;
  secs <- int second ;;
  Ok (mins * 60 + secs)%Z.

(** [getPrimaryArtist] *)
Definition getPrimaryArtist (self : Track) : result string :=
  match trackArtist self with
  | Multiple names => item names 0
  | Single name => Ok name
  end.

(** [", ".join(names)] is [join_comma]. *)
Definition formatDisplay (self : Track) : string :=
  let artistDisplay :=
    match trackArtist self with
    | Multiple names => join_comma names
    | Single name => name
    end in
  trackTitle self +:+ " - " +:+ artistDisplay +:+ " (" +:+ trackDuration self +:+ ")".

(** ** Album.py *)

Module Album.

Record Album := mkAlbum {
  albumName : string;
  albumTracks : list Track
}.

(** [Album(name)] *)
Definition init (name : string) : Album := mkAlbum name [].

Definition getName (self : Album) : string := albumName self.
Definition getTracks (self : Album) : list Track := albumTracks self.
Definition getTrackCount (self : Album) : nat := length (albumTracks self).

(** [appendTrack]: the value returned and the album as it is afterwards. *)
Definition appendTrack (track : Track) (self : Album) : bool * Album :=
  if existsb (fun existingTrack => __eq__ existingTrack track) (albumTracks self)
  then (false, self)
  else (true, mkAlbum (albumName self) (albumTracks self ++ [track])).

(** The dictionary of an album; a key may be missing from a file edited by
    hand. *)
Record albumDict := mkAlbumDict {
  d_name : option string;
  d_tracks : option (list trackDict)
}.

Definition toDict (self : Album) : albumDict :=
  {| d_name := Some (albumName self);
     d_tracks := Some (map Track.toDict (albumTracks self)) |}.

(** fromDict, lines 76-78: the test of the inner loop.  [and] evaluates its
    operands from the left and stops at the first that is false: a key is
    looked up only then.  [None] stands for [KeyError]. *)
Definition matches (track : Track) (trackData : trackDict) : option bool :=
  title ← d_title trackData;
  if negb (String.eqb (trackTitle track) title) then Some false
  else
    artist ← d_artist trackData;
    if negb (String.eqb (py_str (trackArtist track)) (py_str artist)) then Some false
    else
      album ← d_album trackData;
      Some (String.eqb (trackAlbum track) album).

(** lines 75-80: the first of [trackObjects] that matches is appended. *)
Fixpoint appendMatch (trackData : trackDict) (trackObjects : list Track) (album : Album)
  : option Album :=
  match trackObjects with
  | [] => Some album
  | track :: rest =>
      found ← matches track trackData;
      if (found : bool) then Some (appendTrack track album).2
      else appendMatch trackData rest album
  end.

Fixpoint appendMatches (trackDicts : list trackDict) (trackObjects : list Track)
    (album : Album) : option Album :=
  match trackDicts with
  | [] => Some album
  | trackData :: rest =>
      album ← appendMatch trackData trackObjects album;
      appendMatches rest trackObjects album
  end.

Definition fromDict (data : albumDict) (trackObjects : list Track) : option Album :=
  name ← d_name data;
  trackDicts ← d_tracks data;
  appendMatches trackDicts trackObjects (init name).

End Album.

(** ** Files of the library

    A JSON file under [storage/]: what [json.load] would return for it.  As
    for the state file of the queue, a value that is present has the type
    the program writes. *)

Inductive jsonFile (A : Type) :=
  | Absent                      (* [os.path.exists] is false *)
  | Malformed                   (* [json.load] raises *)
  | Content (data : A).
Arguments Absent {A}.
Arguments Malformed {A}.
Arguments Content {A} data.

(** ** Managers.py: AlbumManager

    [__albumCollection] is a [dict]: it keeps its keys in the order of their
    first insertion, and assigning to a key that is there replaces the value
    in place. *)

Module Managers.

Import Album.

Fixpoint dict_get {V} (d : list (string * V)) (k : string) : option V :=
  match d with
  | [] => None
  | (k', v) :: d' => if String.eqb k' k then Some v else dict_get d' k
  end.

Fixpoint dict_set {V} (d : list (string * V)) (k : string) (v : V) : list (string * V) :=
  match d with
  | [] => [(k, v)]
  | (k', v') :: d' =>
      if String.eqb k' k then (k', v) :: d' else (k', v') :: dict_set d' k v
  end.

Record AlbumManager := mkAlbumManager {
  albumCollection : list (string * Album)
}.

(** [AlbumManager()] *)
Definition init : AlbumManager := mkAlbumManager [].

(** The content of [storage/album_data.json]. *)
Abbreviation albumFile := (jsonFile (list albumDict)) (only parsing).

Definition getOrCreateAlbum (albumName : string) (self : AlbumManager)
  : Album * AlbumManager :=
  match dict_get (albumCollection self) albumName with
  | None =>
      let album := Album.init albumName in
      (album, mkAlbumManager (dict_set (albumCollection self) albumName album))
  | Some album => (album, self)
  end.

Definition persistAlbums (self : AlbumManager) : albumFile :=
  Content (map (fun entry => toDict entry.2) (albumCollection self)).

(** [addTrackToAlbum]: [album] is the object the collection holds, so
    [appendTrack] changes it in the collection. *)
Definition addTrackToAlbum (track : Track) (self : AlbumManager) : AlbumManager * albumFile :=
  let albumName := trackAlbum track in
  let '(album, self) := getOrCreateAlbum albumName self in
  let album := (appendTrack track album).2 in
  let self := mkAlbumManager (dict_set (albumCollection self) albumName album) in
  (self, persistAlbums self).

Definition getAlbum (name : string) (self : AlbumManager) : option Album :=
  dict_get (albumCollection self) name.

Definition getAlbumNames (self : AlbumManager) : list string := (albumCollection self).*1.

Definition getAllAlbums (self : AlbumManager) : list Album := (albumCollection self).*2.

Definition getAlbumByIndex (index : Z) (self : AlbumManager) : option Album :=
  let nameList := getAlbumNames self in
  if (0 <=? index)%Z && (index <? Z.of_nat (length nameList))%Z then
    name ← nameList !! Z.to_nat index;
    dict_get (albumCollection self) name
  else None.

(** loadFromFile, lines 96-98: the loop stops at the first album that
    cannot be read ([except] prints a message); the albums read before it
    stay. *)
Fixpoint loadAlbums (serializedData : list albumDict) (trackObjects : list Track)
    (self : AlbumManager) : AlbumManager :=
  match serializedData with
  | [] => self
  | albumData :: rest =>
      match fromDict albumData trackObjects with
      | Some album =>
          loadAlbums rest trackObjects
            (mkAlbumManager (dict_set (albumCollection self) (getName album) album))
      | None => self
      end
  end.

Definition loadFromFile (trackObjects : list Track) (self : AlbumManager) (file : albumFile)
  : AlbumManager :=
  match file with
  | Absent | Malformed => self
  | Content serializedData => loadAlbums serializedData trackObjects self
  end.

End Managers.

(** ** Library.py *)

Module Library.

Import Album Managers.

(** A [TreeNode], or [None] where the tree has no node. *)
Inductive TreeNode :=
  | NoNode
  | mkTreeNode (trackData : Track) (leftChild rightChild : TreeNode).

Record Library := mkLibrary {
  rootNode : TreeNode;
  albumMgr : AlbumManager
}.

(** The two files the library writes. *)
Record Disk := mkDisk {
  libraryFile : jsonFile (list trackDict);     (* storage/library_data.json *)
  albumFile : jsonFile (list albumDict)        (* storage/album_data.json *)
}.

(** [__compareTrackObjects]: [str.lower] is [lower] (characters above 127
    are taken to have no case); [<] on strings compares character by
    character, a proper prefix being smaller. *)
Definition compareTrackObjects (t1 t2 : Track) : result Z :=
  let title1Lower := lower (trackTitle t1) in
  let title2Lower := lower (trackTitle t2) in
  if negb (String.eqb title1Lower title2Lower) then
    Ok (if String.ltb title1Lower title2Lower then -1 else 1)%Z
  else
    artist1 <- getPrimaryArtist t1 ;;
    artist2 <- getPrimaryArtist t2 ;;
    let artist1Lower := lower artist1 in
    let artist2Lower := lower artist2 in
    if negb (String.eqb artist1Lower artist2Lower) then
      Ok (if String.ltb artist1Lower artist2Lower then -1 else 1)%Z
    else
      let album1Lower := lower (trackAlbum t1) in
      let album2Lower := lower (trackAlbum t2) in
      if negb (String.eqb album1Lower album2Lower) then
        Ok (if String.ltb album1Lower album2Lower then -1 else 1)%Z
      else
        dur1 <- convertDurationToSeconds t1 ;;
        dur2 <- convertDurationToSeconds t2 ;;
        if negb (dur1 =? dur2)%Z then Ok (if (dur1 <? dur2)%Z then -1 else 1)%Z
        else Ok 0%Z.

(** [__insertTrackRecursive]: the node returned and the flag [wasInserted[0]]
    as it is afterwards.  An exception of the comparison leaves the tree as
    it was: a child is assigned only after the call below has returned. *)
Fixpoint insertTrackRecursive (currentNode : TreeNode) (newTrack : Track) (wasInserted : bool)
  : result (TreeNode * bool) :=
  match currentNode with
  | NoNode => Ok (mkTreeNode newTrack NoNode NoNode, true)
  | mkTreeNode trackData leftChild rightChild =>
      comparisonResult <- compareTrackObjects newTrack trackData ;;
      if (comparisonResult <? 0)%Z then
        below <- insertTrackRecursive leftChild newTrack wasInserted ;;
        Ok (mkTreeNode trackData below.1 rightChild, below.2)
      else if (0 <? comparisonResult)%Z then
        below <- insertTrackRecursive rightChild newTrack wasInserted ;;
        Ok (mkTreeNode trackData leftChild below.1, below.2)
      else Ok (currentNode, wasInserted)
  end.

(** [__traverseInOrder]: [trackList] with the tracks of the subtree appended. *)
Fixpoint traverseInOrder (currentNode : TreeNode) (trackList : list Track) : list Track :=
  match currentNode with
  | NoNode => trackList
  | mkTreeNode trackData leftChild rightChild =>
      traverseInOrder rightChild (traverseInOrder leftChild trackList ++ [trackData])
  end.

Definition getAllTracks (self : Library) : list Track :=
  traverseInOrder (rootNode self) [].

Definition saveLibraryToFile (self : Library) : jsonFile (list trackDict) :=
  Content (map Track.toDict (getAllTracks self)).

(** [addTrack]: the value returned, the library and the files afterwards. *)
Definition addTrack (track : Track) (self : Library) (disk : Disk)
  : result (bool * Library * Disk) :=
  inserted <- insertTrackRecursive (rootNode self) track false ;;
  let self := mkLibrary inserted.1 (albumMgr self) in
  if inserted.2 then
    let saved := addTrackToAlbum track (albumMgr self) in
    let self := mkLibrary (rootNode self) saved.1 in
    Ok (true, self, mkDisk (saveLibraryToFile self) saved.2)
  else Ok (false, self, disk).

Definition searchTracksByTitle (searchQuery : string) (self : Library) : list Track :=
  let searchLower := lower searchQuery in
  filter (fun track => contains (lower (trackTitle track)) searchLower = true)
    (getAllTracks self).

Definition getTrackByIndex (index : Z) (self : Library) : option Track :=
  let trackList := getAllTracks self in
  if (0 <=? index)%Z && (index <? Z.of_nat (length trackList))%Z
  then trackList !! Z.to_nat index
  else None.

(** __loadLibraryFromFile, lines 181-184: the loop stops at the first entry
    that cannot be read or compared; the tracks inserted before it stay, and
    the albums are then not loaded. *)
Fixpoint loadTracks (serializedData : list trackDict) (root : TreeNode) : TreeNode * bool :=
  match serializedData with
  | [] => (root, true)
  | trackData :: rest =>
      match Track.fromDict trackData with
      | None => (root, false)
      | Some track =>
          match insertTrackRecursive root track false with
          | Ok inserted => loadTracks rest inserted.1
          | Err _ => (root, false)
          end
      end
  end.

Definition loadLibraryFromFile (self : Library) (disk : Disk) : Library :=
  match libraryFile disk with
  | Absent | Malformed => self
  | Content serializedData =>
      let loaded := loadTracks serializedData (rootNode self) in
      let self := mkLibrary loaded.1 (albumMgr self) in
      if loaded.2 then
        mkLibrary (rootNode self)
          (loadFromFile (getAllTracks self) (albumMgr self) (albumFile disk))
      else self
  end.

(** [Library()] *)
Definition init (disk : Disk) : Library :=
  loadLibraryFromFile (mkLibrary NoNode Managers.init) disk.

End Library.

(** ** Playlist.py

    A [datetime] is taken as its place on the time line; [datetime.now()]
    is an argument of the methods that call it.  [__trackIdentifiers] is a
    set of strings: the list of its members, of which only membership is
    ever asked. *)

Module Playlist.

Abbreviation datetime := Z (only parsing).

Record Playlist := mkPlaylist {
  playlistName : string;
  trackList : list (Track * datetime);
  trackIdentifiers : list string;
  creationTimestamp : datetime
}.

(** [Playlist(name, creationTime)]: [creationTime if creationTime else
    datetime.now()]. *)
Definition init (name : string) (creationTime : option datetime) (now : datetime)
  : Playlist :=
  mkPlaylist name [] [] (default now creationTime).

Definition getName (self : Playlist) : string := playlistName self.
Definition getSize (self : Playlist) : nat := length (trackList self).
Definition getCreationTime (self : Playlist) : datetime := creationTimestamp self.

(** lines 36, 44: [track.getTitle().lower() + str(track.getArtist()).lower()] *)
Definition identifier (track : Track) : string :=
  lower (trackTitle track) +:+ lower (py_str (trackArtist track)).

(** [__trackExists] *)
Definition trackExists (track : Track) (self : Playlist) : bool :=
  bool_decide (identifier track ∈ trackIdentifiers self).

(** [appendTrack]: the value returned and the playlist afterwards. *)
Definition appendTrack (track : Track) (now : datetime) (self : Playlist)
  : bool * Playlist :=
  if trackExists track self then (false, self)
  else
    (true,
     mkPlaylist (playlistName self) (trackList self ++ [(track, now)])
       (identifier track :: trackIdentifiers self) (creationTimestamp self)).

Definition getTracks (self : Playlist) : list Track := (trackList self).*1.

(** *** sortTracks

    One component of a sort key, and the order of Python on two components
    of the same kind. *)
Inductive component :=
  | Moment (t : datetime)
  | Text (s : string)
  | Number (n : Z).

Definition component_eqb (x y : component) : bool :=
  match x, y with
  | Moment a, Moment b => (a =? b)%Z
  | Text a, Text b => String.eqb a b
  | Number a, Number b => (a =? b)%Z
  | _, _ => false
  end.

Definition component_ltb (x y : component) : bool :=
  match x, y with
  | Moment a, Moment b => (a <? b)%Z
  | Text a, Text b => String.ltb a b
  | Number a, Number b => (a <? b)%Z
  | _, _ => false
  end.

(** [<] on tuples: the first components that differ decide; a proper prefix
    is smaller. *)
Fixpoint tuple_ltb (x y : list component) : bool :=
  match x, y with
  | [], [] => false
  | [], _ :: _ => true
  | _ :: _, [] => false
  | a :: x', b :: y' => if component_eqb a b then tuple_ltb x' y' else component_ltb a b
  end.

(** [getSortKey]: [None] for a criterion that is not one of the four, when
    the function falls off its end. *)
Definition getSortKey (sortCriteria : string) (entry : Track * datetime)
  : result (option (list component)) :=
  let '(trackObj, addedTimestamp) := entry in
  if String.eqb sortCriteria "date_added" then
    artist <- getPrimaryArtist trackObj ;;
    seconds <- convertDurationToSeconds trackObj ;;
    Ok (Some [Moment addedTimestamp; Text (lower (trackTitle trackObj));
              Text (lower artist); Text (lower (trackAlbum trackObj)); Number seconds])
  else if String.eqb sortCriteria "title" then
    artist <- getPrimaryArtist trackObj ;;
    seconds <- convertDurationToSeconds trackObj ;;
    Ok (Some [Text (lower (trackTitle trackObj)); Text (lower artist);
              Text (lower (trackAlbum trackObj)); Number seconds; Moment addedTimestamp])
  else if String.eqb sortCriteria "artist" then
    artist <- getPrimaryArtist trackObj ;;
    seconds <- convertDurationToSeconds trackObj ;;
    Ok (Some [Text (lower artist); Text (lower (trackTitle trackObj));
              Text (lower (trackAlbum trackObj)); Number seconds; Moment addedTimestamp])
  else if String.eqb sortCriteria "duration" then
    seconds <- convertDurationToSeconds trackObj ;;
    artist <- getPrimaryArtist trackObj ;;
    Ok (Some [Number seconds; Text (lower (trackTitle trackObj));
              Text (lower artist); Text (lower (trackAlbum trackObj));
              Moment addedTimestamp])
  else Ok None.

(** [list.sort(key=getSortKey)] computes the keys first, in the order of the
    list, and the first call that raises ends the sort with the list as it
    was.  It then sorts by [<] on the keys and is stable.  On the keys of
    one criterion [<] is a strict total order, so that every stable sort
    gives the same list: the one of the insertion below, which like the
    sort of the interpreter asks whether the entry to place is smaller
    than one already placed.  [None < None] raises [TypeError]. *)
Definition keyed_entry : Type := option (list component) * (Track * datetime).

Fixpoint keyed (sortCriteria : string) (entries : list (Track * datetime))
  : result (list keyed_entry) :=
  match entries with
  | [] => Ok []
  | entry :: rest =>
      key <- getSortKey sortCriteria entry ;;
      below <- keyed sortCriteria rest ;;
      Ok ((key, entry) :: below)
  end.

Definition key_ltb (x y : option (list component)) : result bool :=
  match x, y with
  | Some a, Some b => Ok (tuple_ltb a b)
  | _, _ => Err TypeError
  end.

Fixpoint insert (x : keyed_entry) (sorted : list keyed_entry) : result (list keyed_entry) :=
  match sorted with
  | [] => Ok [x]
  | y :: rest =>
      smaller <- key_ltb x.1 y.1 ;;
      if (smaller : bool) then Ok (x :: sorted)
      else
        below <- insert x rest ;;
        Ok (y :: below)
  end.

Fixpoint sort_into (sorted rest : list keyed_entry) : result (list keyed_entry) :=
  match rest with
  | [] => Ok sorted
  | x :: rest' =>
      sorted' <- insert x sorted ;;
      sort_into sorted' rest'
  end.

Definition sort (entries : list keyed_entry) : result (list keyed_entry) :=
  sort_into [] entries.

(** [sortTracks]: the playlist afterwards; when it raises the playlist is
    as it was. *)
Definition sortTracks (sortCriteria : string) (self : Playlist) : result Playlist :=
  match trackList self with
  | [] => Ok self
  | _ :: _ =>
      keys <- keyed sortCriteria (trackList self) ;;
      sorted <- sort keys ;;
      Ok (mkPlaylist (playlistName self) sorted.*2 (trackIdentifiers self)
            (creationTimestamp self))
  end.

End Playlist.

(** ** What the statements about the library, the albums and the playlists use *)

(** Text of ASCII characters only.  On such text [lower] is [str.lower],
    [py_repr] is [repr] and [int] is the [int] of Python; on other text
    they are not: [str.lower] knows the letters of every alphabet, [repr]
    escapes what is not printable, and [int] reads the decimal digits and
    the white space of every script.  The statements that depend on what
    these functions return are made for ASCII text. *)
Fixpoint is_ascii (s : string) : bool :=
  match s with
  | EmptyString => true
  | String c s' => Nat.ltb (nat_of_ascii c) 128 && is_ascii s'
  end.

(** The names of an artist list are ASCII text; a single name is not
    rendered by [repr] and may be any text. *)
Definition ascii_names (a : Artist) : bool :=
  match a with
  | Single _ => true
  | Multiple names => forallb is_ascii names
  end.

(** The four fields of a track are ASCII text. *)
Definition ascii_track (t : Track) : bool :=
  is_ascii (trackTitle t)
  && forallb is_ascii (artist_names (trackArtist t))
  && is_ascii (trackAlbum t)
  && is_ascii (trackDuration t).

(** A track whose primary artist and whose duration in seconds exist. *)
Definition sound (t : Track) : Prop :=
  (exists artist, getPrimaryArtist t = Ok artist)
  /\ (exists seconds, convertDurationToSeconds t = Ok seconds).

Section Notions.

Import Album Managers Library.

(** The albums the program can make: a new one, and one more track. *)
Inductive made : Album -> Prop :=
  | made_init name : made (Album.init name)
  | made_append track album : made album -> made (appendTrack track album).2.

(** The album managers the program can make. *)
Inductive managed : AlbumManager -> Prop :=
  | managed_init : managed Managers.init
  | managed_add track mgr : managed mgr -> managed (addTrackToAlbum track mgr).1.

(** [a] comes before [b] in the order of the library. *)
Definition before (a b : Track) : Prop := compareTrackObjects a b = Ok (-1)%Z.

(** A search tree: everything on the left of a node comes before it, and it
    comes before everything on its right. *)
Inductive ordered : TreeNode -> Prop :=
  | ordered_none : ordered NoNode
  | ordered_node x l r :
      ordered l -> ordered r ->
      (forall u, u ∈ traverseInOrder l [] -> before u x) ->
      (forall v, v ∈ traverseInOrder r [] -> before x v) ->
      ordered (mkTreeNode x l r).

(** The number of nodes on the longest way down from a node: the depth to
    which [__insertTrackRecursive] and [__traverseInOrder] can nest. *)
Fixpoint height (node : TreeNode) : nat :=
  match node with
  | NoNode => 0
  | mkTreeNode _ leftChild rightChild => S (Nat.max (height leftChild) (height rightChild))
  end.

(** A tree with no left child anywhere: its tracks hang one below the
    other. *)
Fixpoint spine (node : TreeNode) : Prop :=
  match node with
  | NoNode => True
  | mkTreeNode _ leftChild rightChild => leftChild = NoNode /\ spine rightChild
  end.

(** The nine ways two comparisons chain. *)
Definition chains (c1 c2 c3 : comparison) : Prop :=
  match c1, c2 with
  | Lt, Lt | Lt, Eq | Eq, Lt => c3 = Lt
  | Eq, Eq => c3 = Eq
  | Gt, Gt | Gt, Eq | Eq, Gt => c3 = Gt
  | _, _ => True
  end.

Definition chain (c1 c2 : comparison) : option comparison :=
  match c1, c2 with
  | Lt, Lt | Lt, Eq | Eq, Lt => Some Lt
  | Eq, Eq => Some Eq
  | Gt, Gt | Gt, Eq | Eq, Gt => Some Gt
  | _, _ => None
  end.

Definition sgn (c : comparison) : Z :=
  match c with
  | Lt => (-1)%Z
  | Eq => 0%Z
  | Gt => 1%Z
  end.

(** One level of [compareTrackObjects]: decided here, or left to the next. *)
Definition level (c : comparison) (next : result Z) : result Z :=
  match c with
  | Lt => Ok (-1)%Z
  | Gt => Ok 1%Z
  | Eq => next
  end.

(** The libraries of one process that found the files [disk0], with the
    files as they are then: [Library()], and one more [addTrack] that
    returned. *)
Inductive stocked (disk0 : Disk) : Library -> Disk -> Prop :=
  | stocked_init : stocked disk0 (Library.init disk0) disk0
  | stocked_add track lib disk b lib' disk' :
      stocked disk0 lib disk ->
      Library.addTrack track lib disk = Ok (b, lib', disk') ->
      stocked disk0 lib' disk'.

(** The files that processes of the program leave, one after the other,
    from a first one that finds none. *)
Inductive kept : Disk -> Prop :=
  | kept_nothing : kept (mkDisk Absent Absent)
  | kept_process disk0 lib disk : kept disk0 -> stocked disk0 lib disk -> kept disk.

(** The library file is in step with the library. *)
Definition shelved (lib : Library) (disk : Disk) : Prop :=
  (libraryFile disk = Absent /\ getAllTracks lib = [])
  \/ libraryFile disk = Content (map Track.toDict (getAllTracks lib)).

(** Albums and library agree. *)
Definition shelves_agree (lib : Library) : Prop :=
  (forall name album,
     getAlbum name (albumMgr lib) = Some album ->
     getName album = name
     /\ forall t, t ∈ getTracks album -> t ∈ getAllTracks lib /\ trackAlbum t = name)
  /\ (forall t, t ∈ getAllTracks lib ->
        exists album u,
          getAlbum (trackAlbum t) (albumMgr lib) = Some album
          /\ u ∈ getTracks album /\ __eq__ u t = true).

End Notions.

Section PlaylistNotions.

Import Playlist.

(** The playlists the program makes by its own calls: a new one, one more
    track, and a sort that returned. *)
Inductive compiled : Playlist -> Prop :=
  | compiled_init name creationTime now : compiled (Playlist.init name creationTime now)
  | compiled_append track now playlist :
      compiled playlist -> compiled (appendTrack track now playlist).2
  | compiled_sort sortCriteria playlist sorted :
      compiled playlist -> sortTracks sortCriteria playlist = Ok sorted -> compiled sorted.

(** The criteria [getSortKey] knows. *)
Definition criteria : list string := ["date_added"; "title"; "artist"; "duration"].

(** The order in which [sortTracks] leaves two entries that have keys. *)
Definition keyed_le (x y : keyed_entry) : Prop :=
  match x.1, y.1 with
  | Some a, Some b => tuple_ltb b a = false
  | _, _ => False
  end.

End PlaylistNotions.

#[global] Instance failure_eq_dec : EqDecision failure.
Proof. solve_decision. Defined.

#[global] Instance result_eq_dec {A} `{EqDecision A} : EqDecision (result A).
Proof. solve_decision. Defined.

#[global] Instance component_eq_dec : EqDecision Playlist.component.
Proof. solve_decision. Defined.

Close Scope result_scope.

(** ** More small runs, used to exercise the theorems on the rest of the program *)

(** The world an action of Main leaves. *)
Definition play (a : action) (w : World) : World :=
  match perform a w with
  | Return _ w' | Raise _ w' => w'
  | Diverge => w
  end.

(** A, B, C, D with B active, shuffled. *)
Definition queueABCD_shuffled : World :=
  Eval vm_compute in run (CallShuffleQueue [0]) queueABCD_atB.

(** A track whose duration has no colon. *)
Definition trackE : Track := mkTrack "Echo" (Single "Eve") "Third" "305".

(** The album of A and B. *)
Definition albumFirst : Album.Album :=
  Eval vm_compute in
    (Album.appendTrack trackB (Album.appendTrack trackA (Album.init "First")).2).2.

(** The manager that was given A, C and B: two albums. *)
Definition managerACB : Managers.AlbumManager :=
  Eval vm_compute in
    (Managers.addTrackToAlbum trackB
       (Managers.addTrackToAlbum trackC
          (Managers.addTrackToAlbum trackA Managers.init).1).1).1.

(** No file of the library yet. *)
Definition noDisk : Library.Disk := Library.mkDisk Absent Absent.

(** [addTrack] of each track in turn; a call that raises changes nothing. *)
Fixpoint stock (trackCollection : list Track) (lib : Library.Library) (disk : Library.Disk)
  : Library.Library * Library.Disk :=
  match trackCollection with
  | [] => (lib, disk)
  | track :: rest =>
      match Library.addTrack track lib disk with
      | Ok (_, lib', disk') => stock rest lib' disk'
      | Err _ => stock rest lib disk
      end
  end.

(** The library of a first process that added C, A and B, and its files. *)
Definition libraryCAB : Library.Library :=
  Eval vm_compute in (stock [trackC; trackA; trackB] (Library.init noDisk) noDisk).1.

Definition diskCAB : Library.Disk :=
  Eval vm_compute in (stock [trackC; trackA; trackB] (Library.init noDisk) noDisk).2.

(** A playlist of C, A and B, added at the moments 1, 2 and 3. *)
Definition playlistCAB : Playlist.Playlist :=
  Eval vm_compute in
    (Playlist.appendTrack trackB 3
       (Playlist.appendTrack trackA 2
          (Playlist.appendTrack trackC 1 (Playlist.init "Mix" None 0)).2).2).2.

(** The same with E, whose duration cannot be read, added last. *)
Definition playlistCABE : Playlist.Playlist :=
  Eval vm_compute in (Playlist.appendTrack trackE 4 playlistCAB).2.

(** Track A as another file might spell it: for the library the same track,
    for the queue another. *)
Definition trackA_loud : Track := mkTrack "INTRO" (Single "ana") "FIRST" "03:05".

(** Track A with a small initial: the same track by the rule of the
    specification, another one for [Track.__eq__]. *)
Definition trackA_small : Track := mkTrack "intro" (Single "Ana") "First" "3:05".

(** A state file that holds the JSON object without any key. *)
Definition emptyObject : stateFile :=
  Json {| tracks := None;
          current_index := None;
          is_shuffled := None;
          is_repeat := None;
          is_playing := None;
          original_order := None |}.

(** Track A queued with repeat on, over a state file replaced by hand with
    the empty object; and the queue after [loadQueueState] has failed on
    it. *)
Definition queueA_edited : World :=
  Eval vm_compute in
    let w := run CallToggleRepeat (run (CallLoadTracks [trackA]) (startup NoFile)) in
    {| store := store w; self := self w; file := emptyObject |}.

Definition queueA_cleared : World :=
  Eval vm_compute in run CallLoadQueueState queueA_edited.

(** * Proofs *)

(** ** The embedding at work *)

Example str_of_artist_list :
  py_str (Multiple ["Taylor Swift"; "Ed Sheeran"]) = "['Taylor Swift', 'Ed Sheeran']".
Proof. reflexivity. Qed.

Example repr_picks_double_quotes :
  py_str (Multiple ["Guns N' Roses"]) =
    String "[" (String dquote ("Guns N' Roses" +:+ String dquote "]")).
Proof. reflexivity. Qed.

(** [__eq__] goes through [str]: a list of one artist and the string that
    spells its [repr] are the same artist for the queue. *)
Example list_equals_its_repr :
  __eq__ (mkTrack "Intro" (Multiple ["Ana"]) "First" "3:05")
         (mkTrack "Intro" (Single "['Ana']") "First" "3:05") = true.
Proof. reflexivity. Qed.

Example shuffle_with_draws :
  Random.shuffle [3; 1; 0; 0] [1; 2; 3; 4; 5] = [5; 3; 1; 2; 4].
Proof. reflexivity. Qed.

(** The scenario of the specification: A, B, C are added, the queue moves to
    B, is shuffled (A stays before B, C behind it) and restored. *)
Example end_to_end_scenario :
  sequence queueABC = Some [trackA; trackB; trackC]
  /\ activeIndex queueABC = Some 0%Z
  /\ advanceToNext queueABC = Return (Some trackB) queueABC_atB
  /\ activeIndex queueABC_atB = Some 1%Z
  /\ sequence (run (CallShuffleQueue [5]) queueABC_atB) = Some [trackA; trackB; trackC]
  /\ activeIndex (run (CallShuffleQueue [5]) queueABC_atB) = Some 1%Z
  /\ isShuffled (run (CallShuffleQueue [5]) queueABC_atB) =
       Return true (run (CallShuffleQueue [5]) queueABC_atB)
  /\ sequence (run CallRestoreOriginalOrder (run (CallShuffleQueue [5]) queueABC_atB)) =
       Some [trackA; trackB; trackC]
  /\ activeIndex (run CallRestoreOriginalOrder (run (CallShuffleQueue [5]) queueABC_atB)) =
       Some 1%Z.
Proof. split_and!; vm_compute; reflexivity. Qed.

(** A track added while shuffled is moved behind the original ones on
    restore. *)
Example restore_merges_new_arrivals :
  sequence (run (CallShuffleQueue [0]) queueABCD_atB) =
    Some [trackA; trackB; trackD; trackC]
  /\ sequence
       (run CallRestoreOriginalOrder
          (run (CallAddTrack (mkTrack "Extra" (Single "Eve") "Third" "1:00"))
             (run (CallShuffleQueue [0]) queueABCD_atB))) =
     Some [trackA; trackB; trackC; trackD; mkTrack "Extra" (Single "Eve") "Third" "1:00"].
Proof. split_and!; vm_compute; reflexivity. Qed.

(** ** Track equality *)

Lemma eq_key (a b : Track) : __eq__ a b = true <-> key a = key b.
Proof.
  unfold __eq__, key. rewrite !andb_true_iff, !String.eqb_eq.
  split; [intros [[[-> ->] ->] ->]; done | intros [=]; auto].
Qed.

Lemma eq_refl_track (a : Track) : __eq__ a a = true.
Proof. by apply eq_key. Qed.

Lemma eq_sym_track (a b : Track) : __eq__ a b = __eq__ b a.
Proof.
  destruct (__eq__ a b) eqn:E1, (__eq__ b a) eqn:E2; try done.
  - apply eq_key in E1. symmetry in E1. apply eq_key in E1. congruence.
  - apply eq_key in E2. symmetry in E2. apply eq_key in E2. congruence.
Qed.

Lemma eq_trans_track (a b c : Track) :
  __eq__ a b = true -> __eq__ b c = true -> __eq__ a c = true.
Proof. rewrite !eq_key. congruence. Qed.

(** Between tracks whose artist is a single string, [__eq__] is identity. *)
Lemma eq_single_artist (a b : Track) x y :
  trackArtist a = Single x -> trackArtist b = Single y ->
  __eq__ a b = true <-> a = b.
Proof.
  intros Ha Hb. rewrite eq_key. unfold key. rewrite Ha, Hb. simpl.
  destruct a, b; simpl in *; subst. split; [intros [=]|intros [=]]; by subst.
Qed.

Lemma fromDict_toDict (t : Track) : fromDict (toDict t) = Some t.
Proof. by destruct t. Qed.

(** ** random.shuffle permutes *)

Lemma swap_Permutation {A} (x : list A) i j : Random.swap x i j ≡ₚ x.
Proof.
  unfold Random.swap.
  destruct (x !! i) as [a|] eqn:Hi; [|done].
  destruct (x !! j) as [b|] eqn:Hj; [|done].
  by apply Permutation_insert_swap.
Qed.

Lemma shuffle_down_Permutation {A} i draws (x : list A) :
  Random.shuffle_down i draws x ≡ₚ x.
Proof.
  revert draws x. induction i as [|i IH]; intros draws x; simpl; [done|].
  rewrite IH. apply swap_Permutation.
Qed.

Lemma shuffle_Permutation {A} draws (x : list A) : Random.shuffle draws x ≡ₚ x.
Proof. apply shuffle_down_Permutation. Qed.

(** ** The linked structure *)

Section Linked.

Implicit Types (h : heap) (cs : list (ref * Track)) (r : ref) (t : Track).

Lemma dlist_bound h prev first cs r :
  dlist h prev first cs -> r ∈ cs.*1 -> r < length h.
Proof.
  revert prev first. induction cs as [|c cs IH]; intros prev first H Hin; simpl in *.
  - by apply elem_of_nil in Hin.
  - destruct H as (_ & Hc & Hrest).
    apply elem_of_cons in Hin as [->|Hin]; [by eapply lookup_lt_Some|eauto].
Qed.

Lemma dlist_functional h prev first cs cs' :
  dlist h prev first cs -> dlist h prev first cs' -> cs = cs'.
Proof.
  revert prev first cs'. induction cs as [|[r t] cs IH]; intros prev first [|[r' t'] cs'] H H';
    simpl in *; try done.
  - destruct H' as [? _]; congruence.
  - destruct H as [? _]; congruence.
  - destruct H as (-> & Hc & Hrest), H' as ([= <-] & Hc' & Hrest').
    rewrite Hc in Hc'. injection Hc' as -> Hnext.
    rewrite <-Hnext in Hrest'. f_equal. eauto.
Qed.

Lemma dlist_head h prev first cs : dlist h prev first cs -> first = head cs.*1.
Proof. destruct cs; simpl; [done | by intros [? _]]. Qed.

Lemma dlist_suffix h prev first cs r t cs1 cs2 :
  dlist h prev first cs -> cs = cs1 ++ (r, t) :: cs2 ->
  exists prev', dlist h prev' (Some r) ((r, t) :: cs2).
Proof.
  revert prev first cs. induction cs1 as [|c cs1 IH]; intros prev first cs H ->; simpl in *.
  - destruct H as (-> & ? & ?). by exists prev.
  - destruct H as (_ & _ & Hrest). eapply IH; [exact Hrest|done].
Qed.

Lemma dlist_notin_tail h prev r t cs :
  dlist h prev (Some r) ((r, t) :: cs) -> r ∉ cs.*1.
Proof.
  intros (_ & Hc & Hrest) Hin.
  apply list_elem_of_fmap in Hin as ([r' t'] & Hr & Hin). simpl in Hr. subst r'.
  apply list_elem_of_split in Hin as (cs1 & cs2 & Hcs).
  destruct (dlist_suffix _ _ _ _ _ _ _ _ Hrest Hcs) as (prev' & _ & Hc' & Hrest').
  simpl in Hc, Hc', Hrest'.
  rewrite Hc in Hc'. injection Hc' as -> Hnext ->.
  rewrite <-Hnext in Hrest'.
  pose proof (dlist_functional _ _ _ _ _ Hrest Hrest') as Heq.
  apply (f_equal length) in Heq. rewrite Hcs, length_app in Heq. simpl in Heq. lia.
Qed.

Lemma dlist_NoDup h prev first cs : dlist h prev first cs -> NoDup cs.*1.
Proof.
  revert prev first. induction cs as [|[r t] cs IH]; intros prev first H; simpl.
  - constructor.
  - pose proof H as (-> & _ & Hrest). constructor; [by eapply dlist_notin_tail|eauto].
Qed.

Lemma dlist_length h prev first cs : dlist h prev first cs -> length cs <= length h.
Proof.
  intros H.
  assert (cs.*1 ⊆+ seq 0 (length h)) as Hsub.
  { apply NoDup_submseteq; [by eapply dlist_NoDup|].
    intros r Hr. apply elem_of_seq. pose proof (dlist_bound _ _ _ _ _ H Hr). lia. }
  apply submseteq_length in Hsub. by rewrite length_fmap, length_seq in Hsub.
Qed.

Lemma dlist_alloc h prev first cs n :
  dlist h prev first cs -> dlist (h ++ [n]) prev first cs.
Proof.
  revert prev first. induction cs as [|c cs IH]; intros prev first H; simpl in *; [done|].
  destruct H as (-> & Hc & Hrest). split_and!; [done| |eauto].
  rewrite lookup_app_l; [done|by eapply lookup_lt_Some].
Qed.

(** The node without successor. *)
Lemma dlist_last_node h prev first cs l x :
  dlist h prev first (cs ++ [(l, x)]) -> exists pl, h !! l = Some (mkNode x None pl).
Proof.
  revert prev first. induction cs as [|c cs IH]; intros prev first H; simpl in *.
  - destruct H as (_ & ? & _). eauto.
  - destruct H as (_ & _ & Hrest). eauto.
Qed.

(** Linking a freshly created node behind the last one. *)
Lemma dlist_snoc h prev first cs l x pl n0 t :
  dlist h prev first (cs ++ [(l, x)]) ->
  h !! l = Some (mkNode x None pl) ->
  dlist (<[length h := mkNode t None (Some l)]>
           (<[l := mkNode x (Some (length h)) pl]> (h ++ [n0])))
        prev first (cs ++ [(l, x); (length h, t)]).
Proof.
  intros H Hl.
  assert (l < length h) as Hlt by by eapply lookup_lt_Some.
  pose proof (dlist_NoDup _ _ _ _ H) as Hnd.
  rewrite fmap_app in Hnd. apply NoDup_app in Hnd as (_ & Hnotin & _).
  clear Hlt. revert prev first H Hnotin.
  induction cs as [|c cs IH]; intros prev first H Hnotin; simpl in *.
  - destruct H as (-> & Hc & _). rewrite Hl in Hc. injection Hc as ->.
    assert (l < length h) as Hlt by by eapply lookup_lt_Some.
    split_and!; try done.
    + rewrite list_lookup_insert_ne by lia.
      rewrite list_lookup_insert_eq; [done|]. rewrite length_app. simpl. lia.
    + rewrite list_lookup_insert_eq; [done|].
      rewrite length_insert, length_app. simpl. lia.
  - destruct H as (-> & Hc & Hrest).
    assert (c.1 <> l) as Hne.
    { intros <-. apply (Hnotin c.1); [by left|by left]. }
    assert (c.1 < length h) as Hlt by by eapply lookup_lt_Some.
    split_and!; [done| |].
    + rewrite !list_lookup_insert_ne by lia.
      rewrite lookup_app_l by done. rewrite Hc.
      by destruct cs.
    + assert (head (cs ++ [(l, x); (length h, t)]).*1 = head (cs ++ [(l, x)]).*1) as ->
        by by destruct cs.
      apply IH; [done|]. intros y Hy. apply Hnotin. by right.
Qed.

Lemma in_store_mono h h' o : length h <= length h' -> in_store h o -> in_store h' o.
Proof. destruct o; simpl; [lia|done]. Qed.

Lemma closed_alloc h t : closed h -> closed (h ++ [mkNode t None None]).
Proof.
  intros Hc r n Hr. apply lookup_app_Some in Hr as [Hr|[_ Hr]].
  - destruct (Hc r n Hr) as [H1 H2].
    split; (eapply in_store_mono; [|eassumption]); rewrite length_app; simpl; lia.
  - destruct (r - length h); simpl in Hr; [|done]. by injection Hr as <-.
Qed.

Lemma closed_insert h r t nx pv :
  closed h -> in_store h nx -> in_store h pv -> closed (<[r := mkNode t nx pv]> h).
Proof.
  intros Hc Hnx Hpv r' n Hr.
  assert (forall o, in_store h o -> in_store (<[r := mkNode t nx pv]> h) o) as Hmono.
  { intros o. apply in_store_mono. by rewrite length_insert. }
  destruct (decide (r = r')) as [->|Hne].
  - destruct (decide (r' < length h)).
    + rewrite list_lookup_insert_eq in Hr by done. injection Hr as <-. simpl. auto.
    + rewrite list_insert_ge in Hr by lia. destruct (Hc r' n Hr). auto.
  - rewrite list_lookup_insert_ne in Hr by done. destruct (Hc r' n Hr). auto.
Qed.

Lemma dlist_in_store h prev first cs : dlist h prev first cs -> in_store h first.
Proof.
  intros H. destruct first as [r|]; [|done]. simpl.
  destruct cs as [|c cs]; simpl in H; [done|].
  destruct H as ([= ->] & Hc & _). by eapply lookup_lt_Some.
Qed.

End Linked.

(** ** The loops, on a well-linked list *)

Section Loops.

Implicit Types (h : heap) (cs : list (ref * Track)) (r : ref) (t : Track).

Lemma findDuplicate_dlist h prev first cs fuel t :
  dlist h prev first cs -> length cs <= fuel ->
  findDuplicate fuel h first t = Some (existsb (fun c => __eq__ c.2 t) cs).
Proof.
  revert prev first fuel. induction cs as [|c cs IH]; intros prev first fuel H Hf; simpl in *.
  - subst first. by destruct fuel.
  - destruct H as (-> & Hc & Hrest). destruct fuel as [|fuel]; [lia|]. simpl.
    rewrite Hc. simpl. destruct (__eq__ c.2 t); [done|]. simpl.
    eapply IH; [done|lia].
Qed.

Lemma lastNode_dlist h prev r cs fuel :
  dlist h prev (Some r) cs -> length cs <= fuel ->
  lastNode fuel h r = last cs.*1.
Proof.
  revert prev r fuel. induction cs as [|c cs IH]; intros prev r fuel H Hf; simpl in *; [done|].
  destruct H as ([= ->] & Hc & Hrest). destruct fuel as [|fuel]; [lia|]. simpl.
  rewrite Hc. simpl. destruct cs as [|c' cs]; [done|].
  simpl. simpl in Hrest. erewrite IH; [done|exact Hrest|simpl in *; lia].
Qed.

Lemma countNodes_dlist h prev first cs fuel n :
  dlist h prev first cs -> length cs <= fuel ->
  countNodes fuel h first n = Some (n + length cs).
Proof.
  revert prev first fuel n. induction cs as [|c cs IH]; intros prev first fuel n H Hf; simpl in *.
  - subst first. destruct fuel; simpl; f_equal; lia.
  - destruct H as (-> & Hc & Hrest). destruct fuel as [|fuel]; [lia|]. simpl.
    rewrite Hc. simpl. erewrite IH; [f_equal; lia|done|lia].
Qed.

Lemma collectTracks_dlist h prev first cs fuel acc :
  dlist h prev first cs -> length cs <= fuel ->
  collectTracks fuel h first acc = Some (acc ++ cs.*2).
Proof.
  revert prev first fuel acc. induction cs as [|c cs IH]; intros prev first fuel acc H Hf; simpl in *.
  - subst first. rewrite app_nil_r. by destruct fuel.
  - destruct H as (-> & Hc & Hrest). destruct fuel as [|fuel]; [lia|]. simpl.
    rewrite Hc. simpl. erewrite IH; [by rewrite <-app_assoc|done|lia].
Qed.

Lemma findPosition_dlist h prev first cs fuel active pos :
  dlist h prev first cs -> length cs <= fuel ->
  findPosition fuel h first active pos = Some (positionFrom pos active cs.*1).
Proof.
  revert prev first fuel pos. induction cs as [|c cs IH]; intros prev first fuel pos H Hf; simpl in *.
  - subst first. by destruct fuel.
  - destruct H as (-> & Hc & Hrest). destruct fuel as [|fuel]; [lia|]. simpl.
    destruct (decide (Some c.1 = active)); [done|].
    rewrite Hc. simpl. eapply IH; [done|lia].
Qed.

Lemma splitAround_dlist h prev first cs fuel cur ap pre fol :
  dlist h prev first cs -> length cs <= fuel ->
  splitAround fuel h first cur ap pre fol =
    Some (if (cur <=? ap)%Z
          then (pre ++ take (Z.to_nat (ap - cur)) cs.*2,
                fol ++ drop (S (Z.to_nat (ap - cur))) cs.*2)
          else (pre, fol ++ cs.*2)).
Proof.
  revert prev first fuel cur pre fol.
  induction cs as [|c cs IH]; intros prev first fuel cur pre fol H Hf; simpl in *.
  - subst first. rewrite take_nil, !app_nil_r. destruct fuel; by destruct (cur <=? ap)%Z.
  - destruct H as (-> & Hc & Hrest). destruct fuel as [|fuel]; [lia|]. simpl.
    rewrite Hc. simpl.
    destruct (cur <? ap)%Z eqn:E1; [|destruct (ap <? cur)%Z eqn:E2].
    + erewrite IH; [|done|lia].
      assert ((cur <=? ap)%Z = true) as -> by lia.
      assert ((cur + 1 <=? ap)%Z = true) as -> by lia.
      replace (Z.to_nat (ap - cur)) with (S (Z.to_nat (ap - (cur + 1)))) by lia.
      simpl. by rewrite <-app_assoc.
    + erewrite IH; [|done|lia].
      assert ((cur <=? ap)%Z = false) as -> by lia.
      assert ((cur + 1 <=? ap)%Z = false) as -> by lia.
      by rewrite <-app_assoc.
    + erewrite IH; [|done|lia].
      assert (cur = ap) as -> by lia.
      assert ((ap <=? ap)%Z = true) as -> by lia.
      assert ((ap + 1 <=? ap)%Z = false) as -> by lia.
      rewrite Z.sub_diag. simpl. by rewrite app_nil_r.
Qed.

Lemma collectNew_dlist h prev first cs fuel original acc :
  dlist h prev first cs -> length cs <= fuel ->
  collectNew fuel h first original acc =
    Some (acc ++ filter (fun t => foundIn original t = false) cs.*2).
Proof.
  revert prev first fuel acc. induction cs as [|c cs IH]; intros prev first fuel acc H Hf; simpl in *.
  - subst first. rewrite app_nil_r. by destruct fuel.
  - destruct H as (-> & Hc & Hrest). destruct fuel as [|fuel]; [lia|]. simpl.
    rewrite Hc. simpl. erewrite IH; [|done|lia].
    rewrite filter_cons. destruct (foundIn original c.2) eqn:E.
    + by rewrite decide_False by congruence.
    + rewrite decide_True by done. by rewrite <-app_assoc.
Qed.

Lemma findTrack_dlist h prev first cs fuel t :
  dlist h prev first cs -> length cs <= fuel ->
  findTrack fuel h first t =
    Some ((fun p => p.2.1) <$> list_find (fun c => __eq__ c.2 t = true) cs).
Proof.
  revert prev first fuel. induction cs as [|c cs IH]; intros prev first fuel H Hf; simpl in *.
  - subst first. by destruct fuel.
  - destruct H as (-> & Hc & Hrest). destruct fuel as [|fuel]; [lia|]. simpl.
    rewrite Hc. simpl. destruct (__eq__ c.2 t) eqn:E.
    + by rewrite decide_True by done.
    + rewrite decide_False by congruence. erewrite IH; [|done|lia].
      by destruct (list_find _ cs) as [[? ?]|].
Qed.

Lemma positionFrom_range pos active rs :
  positionFrom pos active rs = (-1)%Z
  \/ (pos <= positionFrom pos active rs < pos + Z.of_nat (length rs))%Z.
Proof.
  revert pos. induction rs as [|r rs IH]; intros pos; simpl; [by left|].
  destruct (decide (Some r = active)); [right; lia|].
  destruct (IH (pos + 1)%Z); [by left|right; lia].
Qed.

Lemma positionFrom_absent pos active rs :
  (forall r, active = Some r -> r ∉ rs) -> positionFrom pos active rs = (-1)%Z.
Proof.
  revert pos. induction rs as [|r rs IH]; intros pos Hno; simpl; [done|].
  destruct (decide (Some r = active)) as [<-|_].
  - exfalso. apply (Hno r); [done|by left].
  - apply IH. intros r' Hr' Hin. apply (Hno r' Hr'). by right.
Qed.

Lemma positionFrom_lookup pos r rs k :
  NoDup rs -> rs !! k = Some r ->
  positionFrom pos (Some r) rs = (pos + Z.of_nat k)%Z.
Proof.
  revert pos k. induction rs as [|r' rs IH]; intros pos k Hnd Hk; simpl; [done|].
  apply NoDup_cons in Hnd as [Hnotin Hnd].
  destruct k as [|k]; simpl in Hk.
  - injection Hk as ->. rewrite decide_True by done. lia.
  - rewrite decide_False.
    + rewrite (IH _ k) by done. lia.
    + intros [= ->]. apply Hnotin. by eapply list_elem_of_lookup_2.
Qed.

Lemma positionFrom_present pos r rs :
  r ∈ rs -> (0 <= pos)%Z ->
  exists k, rs !! k = Some r /\ positionFrom pos (Some r) rs = (pos + Z.of_nat k)%Z
            /\ k < length rs.
Proof.
  revert pos. induction rs as [|r' rs IH]; intros pos Hin Hpos; simpl.
  - by apply elem_of_nil in Hin.
  - destruct (decide (Some r' = Some r)) as [[= ->]|Hne].
    + exists 0. split_and!; [done|lia|simpl; lia].
    + apply elem_of_cons in Hin as [->|Hin]; [done|].
      destruct (IH (pos + 1)%Z Hin) as (k & Hk & Hp & Hlen); [lia|].
      exists (S k). split_and!; [done|lia|simpl; lia].
Qed.

Lemma serializeNodes_dlist h prev first cs fuel active pos dicts idx :
  dlist h prev first cs -> length cs <= fuel -> (0 <= pos)%Z ->
  serializeNodes fuel h first active pos dicts idx =
    Some (dicts ++ (toDict <$> cs.*2),
          if decide (positionFrom pos active cs.*1 = (-1)%Z) then idx
          else positionFrom pos active cs.*1).
Proof.
  intros H. pose proof (dlist_NoDup _ _ _ _ H) as Hnd.
  revert prev first fuel pos dicts idx H Hnd.
  induction cs as [|c cs IH]; intros prev first fuel pos dicts idx H Hnd Hf Hpos; simpl in *.
  - subst first. rewrite app_nil_r. by destruct fuel.
  - destruct H as (-> & Hc & Hrest). destruct fuel as [|fuel]; [lia|]. simpl.
    rewrite Hc. simpl. apply NoDup_cons in Hnd as [Hnotin Hnd].
    erewrite IH; [|done|done|lia|lia]. rewrite <-app_assoc. simpl. f_equal. f_equal.
    destruct (decide (Some c.1 = active)) as [<-|Hne].
    + rewrite (positionFrom_absent _ (Some c.1) cs.*1) by (by intros ? [= <-]).
      rewrite decide_True by done. rewrite decide_False by lia. done.
    + done.
Qed.

Lemma stepForward_dlist h prev first cs k :
  dlist h prev first cs -> stepForward k h first = Some (cs.*1 !! k).
Proof.
  revert prev first cs. induction k as [|k IH]; intros prev first cs H; simpl.
  - f_equal. rewrite (dlist_head _ _ _ _ H). by destruct cs.
  - destruct cs as [|c cs]; simpl in *.
    + subst first. clear IH. induction k; simpl; [done|done].
    + destruct H as (-> & Hc & Hrest). rewrite Hc. simpl. eauto.
Qed.

End Loops.

(** ** The methods, on a well-linked list *)

Ltac unfold_prims :=
  unfold bind, ret, raise, getq, modq, get_file, write_file, new_node, read_node,
    set_nextNode, set_prevNode, loop, subscript,
    set_headNode, set_tailNode, set_activeNode, set_queueSize, set_shuffleEnabled,
    set_repeatEnabled, set_playbackActive, set_originalSequence.

(** Stepping through a method one call at a time. *)

Lemma bind_run {A B} (m : M A) (k : A -> M B) w a w' :
  m w = Return a w' -> bind m k w = k a w'.
Proof. unfold bind. by intros ->. Qed.

Lemma bind_assoc {A B C} (m : M A) (k1 : A -> M B) (k2 : B -> M C) w :
  bind (bind m k1) k2 w = bind m (fun x => bind (k1 x) k2) w.
Proof. unfold bind. by destruct (m w). Qed.

Lemma loop_run {A} (body : nat -> heap -> option A) w a :
  body (length (store w)) (store w) = Some a -> loop body w = Return a w.
Proof. unfold loop. by intros ->. Qed.

Ltac norm :=
  unfold set_headNode, set_tailNode, set_activeNode, set_queueSize, set_shuffleEnabled,
    set_repeatEnabled, set_playbackActive, set_originalSequence;
  cbn [store self file headNode tailNode activeNode queueSize shuffleEnabled
       repeatEnabled playbackActive originalSequence fst snd
       trackData nextNode prevNode].

(** The next call is a primitive: run it by computation. *)
Ltac prim := rewrite ?bind_assoc; erewrite bind_run by reflexivity; norm.

(** The next call is a loop over the links: [tac] gives its value. *)
Ltac looping tac :=
  rewrite ?bind_assoc; erewrite bind_run by (apply loop_run; norm; tac); norm.

(** The next call returns, as [tac] shows. *)
Ltac stepping tac := rewrite ?bind_assoc; erewrite bind_run by tac; norm.

(** The next call has a known outcome [H]. *)
Ltac call H := rewrite ?bind_assoc; erewrite bind_run by (exact H); norm.

Section Methods.

#[local] Arguments linkBehindLast : simpl never.
#[local] Arguments appendNode : simpl never.
#[local] Arguments rebuild : simpl never.
#[local] Arguments saveQueueState : simpl never.

Implicit Types (h : heap) (cs : list (ref * Track)) (r : ref) (t : Track).
Implicit Types (hd tl ac : option ref) (sz : nat) (sh rp pl : bool) (og : list Track).
Implicit Types (f : stateFile).

Lemma saveQueueState_spec h hd tl ac sz sh rp pl og f cs :
  dlist h None hd cs ->
  saveQueueState (mkWorld h (mkQueue hd tl ac sz sh rp pl og) f) =
    Return tt (mkWorld h (mkQueue hd tl ac sz sh rp pl og)
                 (Json (snapshot cs.*2 (positionFrom 0 ac cs.*1) sh rp pl og))).
Proof.
  intros H. unfold saveQueueState. unfold_prims. cbn.
  erewrite serializeNodes_dlist; [|done|by eapply dlist_length|lia]. cbn.
  unfold snapshot. do 4 f_equal.
  destruct (decide _) as [->|]; done.
Qed.

Lemma linkBehindLast_spec h hd tl ac sz sh rp pl og f first cs t :
  dlist h None (Some first) cs ->
  exists h',
    linkBehindLast first (length h)
      (mkWorld (h ++ [mkNode t None None]) (mkQueue hd tl ac sz sh rp pl og) f) =
      Return tt (mkWorld h' (mkQueue hd (Some (length h)) ac sz sh rp pl og) f)
    /\ dlist h' None (Some first) (cs ++ [(length h, t)])
    /\ length h' = S (length h)
    /\ (closed h -> closed h').
Proof.
  intros H.
  destruct (exists_last (l := cs)) as (cs0 & [l x] & ->).
  { intros ->. simpl in H. done. }
  pose proof (dlist_last_node _ _ _ _ _ _ H) as [pl0 Hl].
  assert (l < length h) as Hlt by by eapply lookup_lt_Some.
  pose proof (dlist_length _ _ _ _ H) as Hlen.
  unfold linkBehindLast. unfold_prims. cbn.
  rewrite (lastNode_dlist _ None _ (cs0 ++ [(l, x)]));
    [|by apply dlist_alloc|rewrite (length_app h); simpl; lia].
  rewrite fmap_app. simpl. rewrite last_snoc. cbn.
  rewrite lookup_app_l by done. rewrite Hl. cbn.
  rewrite list_lookup_insert_ne by lia.
  rewrite lookup_app_r by lia. rewrite Nat.sub_diag. cbn.
  eexists. split_and!; [done| | |].
  - rewrite <-app_assoc. simpl. by apply dlist_snoc.
  - rewrite !length_insert, length_app. simpl. lia.
  - intros Hc. destruct (Hc l _ Hl) as [_ Hpl0]. simpl in Hpl0.
    apply closed_insert; [apply closed_insert; [by apply closed_alloc| |]|done|].
    + simpl. rewrite length_app. simpl. lia.
    + eapply in_store_mono; [|exact Hpl0]. rewrite length_app. lia.
    + simpl. rewrite length_insert, length_app. lia.
Qed.

Lemma appendNode_spec h hd tl ac sz sh rp pl og f cs t :
  dlist h None hd cs ->
  exists h',
    appendNode t (mkWorld h (mkQueue hd tl ac sz sh rp pl og) f) =
      Return (length h)
        (mkWorld h' (mkQueue (head (cs ++ [(length h, t)]).*1) (Some (length h))
                       ac sz sh rp pl og) f)
    /\ dlist h' None (head (cs ++ [(length h, t)]).*1) (cs ++ [(length h, t)])
    /\ length h' = S (length h)
    /\ (closed h -> closed h').
Proof.
  intros H. unfold appendNode. unfold_prims. cbn.
  destruct hd as [first|].
  - destruct (linkBehindLast_spec h (Some first) tl ac sz sh rp pl og f first cs t H)
      as (h' & Hrun & Hd & Hlen & Hcl).
    rewrite Hrun. cbn.
    assert (head (cs ++ [(length h, t)]).*1 = Some first) as ->.
    { destruct cs; simpl in *; [done|]. by destruct H as [-> _]. }
    eauto.
  - destruct cs as [|c cs]; [|by destruct H]. cbn.
    eexists. split; [done|]. split; [|split; [rewrite length_app; simpl; lia|]].
    + simpl. split; [done|]. split; [|done].
      rewrite lookup_app_r by lia. by rewrite Nat.sub_diag.
    + apply closed_alloc.
Qed.

Lemma rebuild_spec ts : forall h hd tl ac sz sh rp pl og f cs,
  linked h hd tl sz cs ->
  exists h' hd' tl' cs',
    rebuild ts (mkWorld h (mkQueue hd tl ac sz sh rp pl og) f) =
      Return tt (mkWorld h' (mkQueue hd' tl' ac (sz + length ts) sh rp pl og) f)
    /\ linked h' hd' tl' (sz + length ts) (cs ++ cs')
    /\ cs'.*2 = ts
    /\ (closed h -> closed h')
    /\ length h <= length h'.
Proof.
  induction ts as [|t ts IH]; intros h hd tl ac sz sh rp pl og f cs (Hd & Htl & Hsz).
  - exists h, hd, tl, []. cbn. rewrite Nat.add_0_r, app_nil_r. done.
  - destruct (appendNode_spec h hd tl ac sz sh rp pl og f cs t Hd)
      as (h1 & Hrun & Hd1 & Hlen & Hcl).
    unfold rebuild. cbn [forEach]. fold (rebuild ts).
    unfold bind at 1. unfold bind at 1. rewrite Hrun. unfold modq at 1. cbn [self store file].
    replace (set_queueSize _ _) with
      (mkQueue (head (cs ++ [(length h, t)]).*1) (Some (length h)) ac (sz + 1) sh rp pl og)
      by done.
    edestruct (IH h1 (head (cs ++ [(length h, t)]).*1) (Some (length h)) ac (sz + 1)
                 sh rp pl og f (cs ++ [(length h, t)]))
      as (h' & hd' & tl' & cs' & Hrun' & Hl' & Hts & Hcl' & Hlen').
    { split_and!; [done| |rewrite length_app; simpl; lia].
      rewrite fmap_app. simpl. by rewrite last_snoc. }
    rewrite Hrun'. exists h', hd', tl', ((length h, t) :: cs').
    replace (sz + length (t :: ts)) with (sz + 1 + length ts) by (simpl; lia).
    split; [done|]. split; [by rewrite <-app_assoc in Hl'|].
    split; [simpl; by f_equal|]. split; [auto|lia].
Qed.


Lemma dlist_lookup h prev first cs k r t :
  dlist h prev first cs -> cs !! k = Some (r, t) ->
  h !! r = Some (mkNode t (cs.*1 !! S k)
                   (match k with 0 => prev | S k' => cs.*1 !! k' end)).
Proof.
  revert prev first k. induction cs as [|c cs IH]; intros prev first k H Hk; [done|].
  simpl in H. destruct H as (-> & Hc & Hrest).
  destruct k as [|k]; simpl in Hk.
  - injection Hk as ->. simpl in *. rewrite Hc. by destruct cs.
  - rewrite (IH _ _ _ Hrest Hk). simpl. by destruct k.
Qed.

Lemma addTrack_duplicate h q f cs t :
  dlist h None (headNode q) cs ->
  existsb (fun c => __eq__ c.2 t) cs = true ->
  addTrack t (mkWorld h q f) = Return false (mkWorld h q f).
Proof.
  intros H Hdup. unfold addTrack. unfold_prims. cbn.
  erewrite findDuplicate_dlist; [|done|by eapply dlist_length].
  by rewrite Hdup.
Qed.

Lemma addTrack_fresh h hd tl ac sz sh rp pl og f cs t :
  dlist h None hd cs ->
  existsb (fun c => __eq__ c.2 t) cs = false ->
  exists h' hd',
    addTrack t (mkWorld h (mkQueue hd tl ac sz sh rp pl og) f) =
      Return true
        (mkWorld h' (mkQueue hd' (Some (length h))
                       (match cs with [] => Some (length h) | _ => ac end)
                       (S (length cs)) sh rp pl (if sh then og else og ++ [t])) f)
    /\ linked h' hd' (Some (length h)) (S (length cs)) (cs ++ [(length h, t)])
    /\ (closed h -> closed h')
    /\ length h <= length h'.
Proof.
  intros H Hdup. unfold addTrack. unfold_prims. cbn.
  erewrite findDuplicate_dlist; [|done|by eapply dlist_length].
  rewrite Hdup. cbn.
  destruct hd as [first|].
  - destruct (linkBehindLast_spec h (Some first) tl ac sz sh rp pl og f first cs t H)
      as (h' & Hrun & Hd & Hlen & Hcl).
    rewrite Hrun. cbn.
    erewrite countNodes_dlist; [|exact Hd|].
    2:{ pose proof (dlist_length _ _ _ _ Hd). lia. }
    cbn. rewrite length_app. simpl. rewrite Nat.add_1_r.
    exists h', (Some first). split.
    + destruct cs; [done|]. by destruct sh.
    + split; [|split; [done|lia]].
      split; [done|]. split; [|rewrite length_app; simpl; lia].
      rewrite fmap_app. simpl. by rewrite last_snoc.
  - destruct cs as [|c cs]; [|by destruct H]. cbn.
    rewrite length_app. simpl. rewrite Nat.add_1_r. destruct (length h) eqn:E.
    + apply length_zero_iff_nil in E. subst h. cbn.
      exists [mkNode t None None], (Some 0). split; [by destruct sh|].
      split; [|split; [apply (closed_alloc [])|simpl; lia]].
      split; [|done]. simpl. done.
    + cbn. rewrite lookup_app_r by lia. rewrite E, Nat.sub_diag. cbn.
      eexists _, _. split; [by destruct sh|].
      split; [|split; [apply closed_alloc|rewrite length_app; lia]].
      split; [|done]. simpl. split; [done|]. split; [|done].
      rewrite lookup_app_r by lia. by rewrite E, Nat.sub_diag.
Qed.


Lemma advanceToNext_normal h hd tl ac sz sh rp pl og f cs :
  dlist h None hd cs ->
  advanceToNext (mkWorld h (mkQueue hd tl ac sz sh rp pl og) f) =
    match ac with
    | None => Return None (mkWorld h (mkQueue hd tl ac sz sh rp pl og) f)
    | Some a =>
        match h !! a with
        | None => Diverge
        | Some n =>
            match nextNode n with
            | Some nx => afterMove h hd tl (Some nx) sz sh rp pl og cs
            | None =>
                if rp then afterMove h hd tl hd sz sh rp pl og cs
                else Return None
                       (mkWorld h (mkQueue hd tl ac sz sh rp false og)
                          (Json (snapshot cs.*2 (positionFrom 0 ac cs.*1) sh rp false og)))
            end
        end
    end.
Proof.
  intros H. unfold advanceToNext, returnActiveTrack, afterMove. unfold_prims. cbn.
  destruct ac as [a|]; [|done]. cbn.
  destruct (h !! a) as [n|] eqn:Ha; [|done]. cbn.
  destruct (nextNode n) as [nx|]; [|destruct rp]; cbn;
    rewrite (saveQueueState_spec _ _ _ _ _ _ _ _ _ _ cs H); cbn; try done.
  - by destruct (h !! nx).
  - destruct hd as [x|]; [|done]. cbn. by destruct (h !! x).
Qed.

Lemma rewindToPrevious_normal h hd tl ac sz sh rp pl og f cs :
  dlist h None hd cs ->
  rewindToPrevious (mkWorld h (mkQueue hd tl ac sz sh rp pl og) f) =
    match ac with
    | None => Return None (mkWorld h (mkQueue hd tl ac sz sh rp pl og) f)
    | Some a =>
        match h !! a with
        | None => Diverge
        | Some n =>
            match prevNode n with
            | Some pv => afterMove h hd tl (Some pv) sz sh rp pl og cs
            | None =>
                if rp then afterMove h hd tl tl sz sh rp pl og cs
                else afterMove h hd tl ac sz sh rp pl og cs
            end
        end
    end.
Proof.
  intros H. unfold rewindToPrevious, returnActiveTrack, afterMove. unfold_prims. cbn.
  destruct ac as [a|]; [|done]. cbn.
  destruct (h !! a) as [n|] eqn:Ha; [|done]. cbn.
  destruct (prevNode n) as [pv|]; [|destruct rp]; cbn;
    rewrite (saveQueueState_spec _ _ _ _ _ _ _ _ _ _ cs H); cbn; try done.
  - by destruct (h !! pv).
  - destruct tl as [x|]; [|done]. cbn. by destruct (h !! x).
  - by rewrite Ha.
Qed.

Lemma startPlayback_normal h hd tl ac sz sh rp pl og f cs :
  dlist h None hd cs ->
  startPlayback (mkWorld h (mkQueue hd tl ac sz sh rp pl og) f) =
    let ac' := if negb rp && bool_decide (ac = tl) then hd else ac in
    Return tt (mkWorld h (mkQueue hd tl ac' sz sh rp true og)
                 (Json (snapshot cs.*2 (positionFrom 0 ac' cs.*1) sh rp true og))).
Proof.
  intros H. unfold startPlayback. unfold_prims. cbn.
  destruct (negb rp && bool_decide (ac = tl)); cbn;
    by rewrite (saveQueueState_spec _ _ _ _ _ _ _ _ _ _ cs H).
Qed.

Lemma pausePlayback_normal h hd tl ac sz sh rp pl og f cs :
  dlist h None hd cs ->
  pausePlayback (mkWorld h (mkQueue hd tl ac sz sh rp pl og) f) =
    Return tt (mkWorld h (mkQueue hd tl ac sz sh rp false og)
                 (Json (snapshot cs.*2 (positionFrom 0 ac cs.*1) sh rp false og))).
Proof.
  intros H. unfold pausePlayback. unfold_prims. cbn.
  by rewrite (saveQueueState_spec _ _ _ _ _ _ _ _ _ _ cs H).
Qed.

Lemma toggleRepeat_normal h hd tl ac sz sh rp pl og f cs :
  dlist h None hd cs ->
  toggleRepeat (mkWorld h (mkQueue hd tl ac sz sh rp pl og) f) =
    Return (negb rp)
      (mkWorld h (mkQueue hd tl ac sz sh (negb rp) pl og)
         (Json (snapshot cs.*2 (positionFrom 0 ac cs.*1) sh (negb rp) pl og))).
Proof.
  intros H. unfold toggleRepeat. unfold_prims. cbn.
  by rewrite (saveQueueState_spec _ _ _ _ _ _ _ _ _ _ cs H).
Qed.

Lemma clearQueue_normal h q f :
  clearQueue (mkWorld h q f) =
    Return tt (mkWorld h Queue.init (Json (snapshot [] (-1) false false false []))).
Proof.
  destruct q as [hd tl ac sz sh rp pl og].
  unfold clearQueue. do 8 prim.
  by rewrite (saveQueueState_spec _ _ _ _ _ _ _ _ _ _ [] eq_refl).
Qed.


Lemma activeTrackOrNone_run h q f act :
  match activeNode q with
  | None => act = None
  | Some a => exists n, h !! a = Some n /\ act = Some (trackData n)
  end ->
  activeTrackOrNone (mkWorld h q f) = Return act (mkWorld h q f).
Proof.
  unfold activeTrackOrNone. unfold_prims. cbn.
  destruct (activeNode q) as [a|]; [|by intros ->].
  intros (n & Hn & ->). cbn. by rewrite Hn.
Qed.

Lemma shuffleQueue_spec draws h hd tl ac sz rp pl og f cs act :
  linked h hd tl sz cs -> 1 < sz ->
  match ac with
  | None => act = None
  | Some a => exists n, h !! a = Some n /\ act = Some (trackData n)
  end ->
  let p := positionFrom 0 ac cs.*1 in
  let pre := if (0 <=? p)%Z then take (Z.to_nat p) cs.*2 else [] in
  let fol := if (0 <=? p)%Z then drop (S (Z.to_nat p)) cs.*2 else cs.*2 in
  let og' := if length og =? 0 then og ++ cs.*2 else og in
  exists h' hd' tl' ac' cs',
    shuffleQueue draws (mkWorld h (mkQueue hd tl ac sz false rp pl og) f) =
      Return tt
        (mkWorld h' (mkQueue hd' tl' ac' (length cs') true rp pl og')
           (Json (snapshot cs'.*2 (positionFrom 0 ac' cs'.*1) true rp pl og')))
    /\ linked h' hd' tl' (length cs') cs'
    /\ cs'.*2 = pre ++ option_list act ++ Random.shuffle draws fol
    /\ match act with
       | Some _ => exists c, cs' !! length pre = Some c /\ ac' = Some c.1
       | None => ac' = hd'
       end
    /\ (closed h -> closed h').
Proof.
  intros (Hd & Htl & Hsz) Hbig Hat p pre fol og'.
  pose proof (dlist_length _ _ _ _ Hd) as Hlen.
  unfold shuffleQueue.
  prim. prim.
  assert ((sz <=? 1) = false) as -> by (apply Nat.leb_gt; lia).
  prim. prim.
  lazymatch goal with
  | |- context [bind ?m _ ?w] =>
      assert (m w = Return tt (mkWorld h (mkQueue hd tl ac sz false rp pl og') f)) as Hcap
  end.
  { subst og'. destruct (length og =? 0).
    - looping ltac:(eapply collectTracks_dlist; [exact Hd|lia]). done.
    - done. }
  call Hcap. clear Hcap.
  prim.
  looping ltac:(eapply findPosition_dlist; [exact Hd|lia]).
  looping ltac:(eapply splitAround_dlist; [exact Hd|lia]).
  cbn [app]. fold p.
  assert ((if (0 <=? p)%Z
           then (take (Z.to_nat (p - 0)) cs.*2, drop (S (Z.to_nat (p - 0))) cs.*2)
           else ([], cs.*2)) = (pre, fol)) as ->.
  { subst pre fol. rewrite Z.sub_0_r. by destruct (0 <=? p)%Z. }
  norm.
  call (activeTrackOrNone_run h (mkQueue hd tl ac sz false rp pl og') f act Hat).
  prim. prim. prim.
  destruct (rebuild_spec pre h None None ac 0 false rp pl og' f [])
    as (h1 & hd1 & tl1 & cs1 & Hrun1 & Hl1 & Hts1 & Hcl1 & _); [done|].
  call Hrun1. simpl in Hl1. clear Hrun1.
  destruct Hl1 as (Hd1 & Htl1 & Hsz1).
  assert (length cs1 = length pre) as Hlen1 by (by rewrite <-Hts1, length_fmap).
  destruct act as [t|].
  - destruct (appendNode_spec h1 hd1 tl1 ac (length pre) false rp pl og' f cs1 t Hd1)
      as (h2 & Hrun2 & Hd2 & Hlen2 & Hcl2).
    call Hrun2. prim. prim. clear Hrun2.
    destruct (rebuild_spec (Random.shuffle draws fol) h2
                (head (cs1 ++ [(length h1, t)]).*1) (Some (length h1)) (Some (length h1))
                (length pre + 1) false rp pl og' f (cs1 ++ [(length h1, t)]))
      as (h3 & hd3 & tl3 & cs3 & Hrun3 & (Hd3 & Htl3 & Hsz3) & Hts3 & Hcl3 & _).
    { split; [done|]. split; [rewrite fmap_app; simpl; by rewrite last_snoc|].
      rewrite length_app. simpl. lia. }
    call Hrun3. clear Hrun3.
    unfold defaultActiveToHead. prim. prim. prim.
    call (saveQueueState_spec h3 hd3 tl3 (Some (length h1))
            (length pre + 1 + length (Random.shuffle draws fol)) true rp pl og' f _ Hd3).
    prim. rewrite Hsz3.
    exists h3, hd3, tl3, (Some (length h1)), ((cs1 ++ [(length h1, t)]) ++ cs3).
    split; [done|]. split; [done|]. split; [|split; [|auto]].
    + rewrite !fmap_app, Hts1, Hts3. simpl. by rewrite <-app_assoc.
    + exists (length h1, t). split; [|done].
      rewrite <-app_assoc. simpl. apply list_lookup_middle. lia.
  - prim.
    destruct (rebuild_spec (Random.shuffle draws fol) h1 hd1 tl1 ac
                (length pre) false rp pl og' f cs1)
      as (h3 & hd3 & tl3 & cs3 & Hrun3 & (Hd3 & Htl3 & Hsz3) & Hts3 & Hcl3 & _); [done|].
    call Hrun3. clear Hrun3.
    destruct ac as [a|]; [by destruct Hat as (? & ? & ?)|].
    unfold defaultActiveToHead. prim. prim. prim. prim.
    call (saveQueueState_spec h3 hd3 tl3 hd3
            (length pre + length (Random.shuffle draws fol)) true rp pl og' f _ Hd3).
    prim. rewrite Hsz3.
    exists h3, hd3, tl3, hd3, (cs1 ++ cs3).
    split; [done|]. split; [done|]. split; [|split; [done|auto]].
    rewrite !fmap_app, Hts1, Hts3. done.
Qed.


Lemma shuffleQueue_shuffled draws h hd tl ac sz rp pl og f :
  shuffleQueue draws (mkWorld h (mkQueue hd tl ac sz true rp pl og) f) =
    Return tt (mkWorld h (mkQueue hd tl ac sz true rp pl og) f).
Proof. done. Qed.

Lemma shuffleQueue_small draws h hd tl ac sz sh rp pl og f :
  sz <= 1 ->
  shuffleQueue draws (mkWorld h (mkQueue hd tl ac sz sh rp pl og) f) =
    Return tt (mkWorld h (mkQueue hd tl ac sz sh rp pl og) f).
Proof.
  intros Hsz. unfold shuffleQueue. prim. destruct sh; [done|]. prim.
  apply Nat.leb_le in Hsz. by rewrite Hsz.
Qed.

Lemma append_original_run l : forall h hd tl ac sz sh rp pl og f,
  forEach l (fun track =>
      modq (fun q => set_originalSequence (originalSequence q ++ [track]) q))
    (mkWorld h (mkQueue hd tl ac sz sh rp pl og) f) =
  Return tt (mkWorld h (mkQueue hd tl ac sz sh rp pl (og ++ l)) f).
Proof.
  induction l as [|t l IH]; intros; simpl.
  - by rewrite app_nil_r.
  - prim. rewrite IH. by rewrite <-app_assoc.
Qed.

Lemma restoreOriginalOrder_unshuffled h hd tl ac sz rp pl og f :
  restoreOriginalOrder (mkWorld h (mkQueue hd tl ac sz false rp pl og) f) =
    Return tt (mkWorld h (mkQueue hd tl ac sz false rp pl og) f).
Proof. done. Qed.

Lemma restoreOriginalOrder_spec h hd tl ac sz rp pl og f cs act :
  linked h hd tl sz cs ->
  match ac with
  | None => act = None
  | Some a => exists n, h !! a = Some n /\ act = Some (trackData n)
  end ->
  let og' := og ++ filter (fun t => foundIn og t = false) cs.*2 in
  exists h' hd' tl' ac' cs',
    restoreOriginalOrder (mkWorld h (mkQueue hd tl ac sz true rp pl og) f) =
      Return tt
        (mkWorld h' (mkQueue hd' tl' ac' (length cs') false rp pl og')
           (Json (snapshot cs'.*2 (positionFrom 0 ac' cs'.*1) false rp pl og')))
    /\ linked h' hd' tl' (length cs') cs'
    /\ cs'.*2 = og'
    /\ ac' = match act with
             | Some t =>
                 match list_find (fun c => __eq__ c.2 t = true) cs' with
                 | Some p => Some p.2.1
                 | None => hd'
                 end
             | None => hd'
             end
    /\ (closed h -> closed h').
Proof.
  intros (Hd & Htl & Hsz) Hat og'.
  pose proof (dlist_length _ _ _ _ Hd) as Hlen.
  unfold restoreOriginalOrder.
  prim. cbn [negb].
  call (activeTrackOrNone_run h (mkQueue hd tl ac sz true rp pl og) f act Hat).
  prim. prim.
  looping ltac:(eapply collectNew_dlist; [exact Hd|lia]).
  cbn [app]. fold og'.
  prim. prim. prim.
  destruct (rebuild_spec og' h None None ac 0 true rp pl og f [])
    as (h1 & hd1 & tl1 & cs1 & Hrun1 & (Hd1 & Htl1 & Hsz1) & Hts1 & Hcl1 & _); [done|].
  call Hrun1. clear Hrun1. simpl in *.
  call (append_original_run (filter (fun t => foundIn og t = false) cs.*2)
          h1 hd1 tl1 ac (length og') true rp pl og f).
  fold og'.
  prim.
  pose proof (dlist_length _ _ _ _ Hd1) as Hlen1.
  unfold defaultActiveToHead.
  destruct act as [t|].
  - prim.
    looping ltac:(eapply findTrack_dlist; [exact Hd1|lia]).
    destruct (list_find (fun c => __eq__ c.2 t = true) cs1) as [[k c]|] eqn:Efind;
      cbn [fmap option_fmap option_map fst snd].
    + prim. prim. prim. prim.
      rewrite (saveQueueState_spec h1 hd1 tl1 (Some c.1) (length og') false rp pl og' f _ Hd1).
      rewrite Hsz1. exists h1, hd1, tl1, (Some c.1), cs1.
      split; [done|]. split; [done|]. split; [done|]. by rewrite Efind.
    + prim. prim. prim. prim. prim.
      rewrite (saveQueueState_spec h1 hd1 tl1 hd1 (length og') false rp pl og' f _ Hd1).
      rewrite Hsz1. exists h1, hd1, tl1, hd1, cs1.
      split; [done|]. split; [done|]. split; [done|]. by rewrite Efind.
  - prim. prim. prim. prim. prim.
    rewrite (saveQueueState_spec h1 hd1 tl1 hd1 (length og') false rp pl og' f _ Hd1).
    rewrite Hsz1. exists h1, hd1, tl1, hd1, cs1. done.
Qed.


Lemma bind_raise {A B} (m : M A) (k : A -> M B) w e w' :
  m w = Raise e w' -> bind m k w = Raise e w'.
Proof. unfold bind. by intros ->. Qed.

Lemma mapM_fromDict_toDict (ts : list Track) : mapM fromDict (toDict <$> ts) = Some ts.
Proof.
  induction ts as [|t ts IH]; [done|].
  rewrite fmap_cons. cbn [mapM]. rewrite fromDict_toDict, IH. done.
Qed.

(** The loop of lines 497-507: every dictionary that can be read adds a node;
    the first that cannot ends the loop with [KeyError]. *)
Lemma restoreTrack_loop dicts : forall h hd tl ac sz sh rp pl og f cs,
  linked h hd tl sz cs ->
  exists h' hd' tl' cs',
    linked h' hd' tl' (sz + length cs') (cs ++ cs')
    /\ forEach dicts restoreTrack (mkWorld h (mkQueue hd tl ac sz sh rp pl og) f) =
         match mapM fromDict dicts : option (list Track) with
         | Some _ =>
             Return tt (mkWorld h' (mkQueue hd' tl' ac (sz + length cs') sh rp pl og) f)
         | None =>
             Raise KeyError (mkWorld h' (mkQueue hd' tl' ac (sz + length cs') sh rp pl og) f)
         end
    /\ (forall ts : list Track, mapM fromDict dicts = Some ts -> cs'.*2 = ts)
    /\ (closed h -> closed h')
    /\ length h <= length h'.
Proof.
  induction dicts as [|d dicts IH]; intros h hd tl ac sz sh rp pl og f cs (Hd & Htl & Hsz).
  - exists h, hd, tl, []. simpl. rewrite Nat.add_0_r, app_nil_r.
    split; [done|]. split; [done|]. split; [by intros ? [= <-]|done].
  - cbn [forEach mapM]. destruct (fromDict d) as [t|] eqn:Ed.
    + assert (exists h1 hd1,
                restoreTrack d (mkWorld h (mkQueue hd tl ac sz sh rp pl og) f) =
                  Return tt (mkWorld h1 (mkQueue hd1 (Some (length h)) ac (sz + 1) sh rp pl og) f)
                /\ dlist h1 None hd1 (cs ++ [(length h, t)])
                /\ (closed h -> closed h1)
                /\ length h <= length h1) as (h1 & hd1 & Hrun & Hd1 & Hcl1 & Hle1).
      { unfold restoreTrack. rewrite Ed. prim. prim. prim.
        destruct hd as [first|].
        - destruct (exists_last (l := cs)) as (cs0 & [l x] & ->).
          { intros ->. simpl in Hd. done. }
          rewrite fmap_app in Htl. simpl in Htl. rewrite last_snoc in Htl. subst tl.
          pose proof (dlist_last_node _ _ _ _ _ _ Hd) as [pl0 Hl].
          assert (l < length h) as Hlt by by eapply lookup_lt_Some.
          prim.
          stepping ltac:(unfold set_nextNode; norm; rewrite lookup_app_l by done;
                         rewrite Hl; reflexivity).
          stepping ltac:(unfold set_prevNode; norm; rewrite list_lookup_insert_ne by lia;
                         rewrite lookup_app_r by lia; rewrite Nat.sub_diag; reflexivity).
          prim. eexists _, _. split; [done|]. split; [|split].
          + rewrite <-app_assoc. simpl. by apply dlist_snoc.
          + intros Hc. destruct (Hc l _ Hl) as [_ Hpl0]. simpl in Hpl0.
            apply closed_insert; [apply closed_insert; [by apply closed_alloc| |]|done|].
            * simpl. rewrite length_app. simpl. lia.
            * eapply in_store_mono; [|exact Hpl0]. rewrite length_app. lia.
            * simpl. rewrite length_insert, length_app. lia.
          + simpl. rewrite !length_insert, length_app. lia.
        - destruct cs as [|c cs]; [|by destruct Hd].
          prim. prim. eexists _, _. split; [done|]. split; [|split].
          + simpl. split; [done|]. split; [|done].
            rewrite lookup_app_r by lia. by rewrite Nat.sub_diag.
          + apply closed_alloc.
          + simpl. rewrite length_app. lia. }
      edestruct (IH h1 hd1 (Some (length h)) ac (sz + 1) sh rp pl og f (cs ++ [(length h, t)]))
        as (h' & hd' & tl' & cs' & Hl' & Hrun' & Hts' & Hcl' & Hle').
      { split; [done|]. split; [rewrite fmap_app; simpl; by rewrite last_snoc|].
        rewrite length_app. simpl. lia. }
      exists h', hd', tl', ((length h, t) :: cs').
      replace (sz + length ((length h, t) :: cs')) with (sz + 1 + length cs') by (simpl; lia).
      split; [by rewrite <-app_assoc in Hl'|]. split; [|split; [|split; [auto|lia]]].
      * call Hrun. rewrite Hrun'. simpl. by destruct (mapM fromDict dicts).
      * intros ts. simpl. destruct (mapM fromDict dicts) as [ts'|]; [|done].
        simpl. intros [= <-]. simpl. f_equal. by apply Hts'.
    + exists h, hd, tl, []. simpl. rewrite Nat.add_0_r, app_nil_r.
      split; [done|]. split; [|done].
      erewrite bind_raise; [done|]. unfold restoreTrack. rewrite Ed. done.
Qed.


Lemma restoreOriginal_loop dicts : forall h hd tl ac sz sh rp pl og f,
  exists og',
    forEach dicts restoreOriginal (mkWorld h (mkQueue hd tl ac sz sh rp pl og) f) =
      match mapM fromDict dicts : option (list Track) with
      | Some _ => Return tt (mkWorld h (mkQueue hd tl ac sz sh rp pl og') f)
      | None => Raise KeyError (mkWorld h (mkQueue hd tl ac sz sh rp pl og') f)
      end
    /\ (forall ts : list Track, mapM fromDict dicts = Some ts -> og' = og ++ ts).
Proof.
  induction dicts as [|d dicts IH]; intros h hd tl ac sz sh rp pl og f.
  - exists og. split; [done|]. intros ? [= <-]. by rewrite app_nil_r.
  - cbn [forEach mapM]. destruct (fromDict d) as [t|] eqn:Ed.
    + destruct (IH h hd tl ac sz sh rp pl (og ++ [t]) f) as (og' & Hrun & Hts).
      exists og'. split.
      * unfold restoreOriginal at 1. rewrite Ed. prim. prim. rewrite Hrun.
        simpl. by destruct (mapM fromDict dicts).
      * intros ts. simpl. destruct (mapM fromDict dicts) as [ts'|]; [|done].
        simpl. intros [= <-]. rewrite (Hts ts') by done. by rewrite <-app_assoc.
    + exists og. split; [|done].
      erewrite bind_raise; [done|]. unfold restoreOriginal. rewrite Ed. done.
Qed.

Lemma lookup_in_store h (rs : list ref) k :
  (forall r, r ∈ rs -> r < length h) -> in_store h (rs !! k).
Proof.
  intros Hb. destruct (rs !! k) as [r|] eqn:E; [|done].
  simpl. apply Hb. by eapply list_elem_of_lookup_2.
Qed.

Lemma loadFrom_ends d h hd tl ac sz sh rp pl og :
  closed h -> in_store h ac ->
  ends_in well_formed
    (loadFrom (Json d) (mkWorld h (mkQueue hd tl ac sz sh rp pl og) (Json d))).
Proof.
  intros Hcl Hac.
  unfold loadFrom. prim. prim. prim. prim.
  destruct (tracks d) as [dicts|]; cycle 1.
  { erewrite bind_raise by reflexivity. split; [by exists []|done]. }
  prim.
  destruct (restoreTrack_loop dicts h None None ac 0 sh rp pl og (Json d) [])
    as (h1 & hd1 & tl1 & cs1 & Hl1 & Hrun1 & _ & Hcl1 & Hle1); [done|].
  simpl in Hl1. pose proof Hl1 as (Hd1 & _ & _).
  assert (forall ac' sh' rp' pl' og',
            in_store h1 ac' ->
            well_formed (mkWorld h1 (mkQueue hd1 tl1 ac' (length cs1) sh' rp' pl' og') (Json d)))
    as Hwf.
  { intros. split; [by exists cs1|]. split; [auto|done]. }
  pose proof (in_store_mono _ _ _ Hle1 Hac) as Hac1.
  destruct (mapM fromDict dicts); cycle 1.
  { erewrite bind_raise by exact Hrun1. by apply Hwf. }
  call Hrun1.
  destruct (current_index d) as [idx|]; cycle 1.
  { erewrite bind_raise by reflexivity. by apply Hwf. }
  prim.
  set (ac' := if (0 <=? idx)%Z then cs1.*1 !! Z.to_nat idx else ac).
  assert (in_store h1 ac') as Hac'.
  { subst ac'. destruct (0 <=? idx)%Z; [|done].
    apply lookup_in_store. intros r. by eapply dlist_bound. }
  lazymatch goal with
  | |- context [bind ?m _ ?w] =>
      assert (m w = Return tt (mkWorld h1 (mkQueue hd1 tl1 ac' (length cs1) sh rp pl og) (Json d)))
        as Hact
  end.
  { subst ac'. destruct (0 <=? idx)%Z; [|done].
    prim. looping ltac:(eapply stepForward_dlist; exact Hd1). done. }
  call Hact. clear Hact.
  destruct (is_shuffled d) as [sh'|]; cycle 1.
  { erewrite bind_raise by reflexivity. by apply Hwf. }
  prim. prim.
  destruct (is_repeat d) as [rp'|]; cycle 1.
  { erewrite bind_raise by reflexivity. by apply Hwf. }
  prim. prim.
  destruct (is_playing d) as [pl'|]; cycle 1.
  { erewrite bind_raise by reflexivity. by apply Hwf. }
  prim. prim. prim.
  destruct (original_order d) as [odicts|]; cycle 1.
  { erewrite bind_raise by reflexivity. by apply Hwf. }
  prim.
  destruct (restoreOriginal_loop odicts h1 hd1 tl1 ac' (length cs1) sh' rp' pl' [] (Json d))
    as (og' & Hrun2 & _).
  destruct (mapM fromDict odicts); cycle 1.
  { erewrite bind_raise by exact Hrun2. by apply Hwf. }
  call Hrun2. by apply Hwf.
Qed.

Lemma loadQueueState_returns w :
  well_formed w -> exists b w', loadQueueState w = Return b w' /\ well_formed w'.
Proof.
  destruct w as [h [hd tl ac sz sh rp pl og] f]. intros Hw.
  unfold loadQueueState. prim.
  destruct f as [| |d].
  - by eexists _, _.
  - by eexists _, _.
  - destruct Hw as (_ & Hcl & Hac).
    pose proof (loadFrom_ends d h hd tl ac sz sh rp pl og Hcl Hac) as Hends.
    unfold try_except_False.
    destruct (loadFrom (Json d) _) as [b w'|e w'|] eqn:Hrun; [| |done].
    + by exists b, w'.
    + by exists false, w'.
Qed.

Lemma loadQueueState_snapshot h hd tl ac sz sh rp pl og ts idx sh' rp' pl' og' :
  let f := Json (snapshot ts idx sh' rp' pl' og') in
  exists h' hd' tl' cs',
    loadQueueState (mkWorld h (mkQueue hd tl ac sz sh rp pl og) f) =
      Return true
        (mkWorld h' (mkQueue hd' tl'
                       (if (0 <=? idx)%Z then cs'.*1 !! Z.to_nat idx else ac)
                       (length cs') sh' rp' pl' og') f)
    /\ linked h' hd' tl' (length cs') cs'
    /\ cs'.*2 = ts
    /\ (closed h -> closed h')
    /\ length h <= length h'.
Proof.
  intros f. subst f. unfold loadQueueState. prim. unfold try_except_False.
  destruct (restoreTrack_loop (toDict <$> ts) h None None ac 0 sh rp pl og
              (Json (snapshot ts idx sh' rp' pl' og')) [])
    as (h1 & hd1 & tl1 & cs1 & Hl1 & Hrun1 & Hts1 & Hcl1 & Hle1); [done|].
  rewrite mapM_fromDict_toDict in Hrun1. specialize (Hts1 ts (mapM_fromDict_toDict ts)).
  simpl in Hl1. pose proof Hl1 as (Hd1 & _ & _).
  destruct (restoreOriginal_loop (toDict <$> og') h1 hd1 tl1
              (if (0 <=? idx)%Z then cs1.*1 !! Z.to_nat idx else ac)
              (length cs1) sh' rp' pl' [] (Json (snapshot ts idx sh' rp' pl' og')))
    as (og1 & Hrun2 & Hog1).
  rewrite mapM_fromDict_toDict in Hrun2. specialize (Hog1 og' (mapM_fromDict_toDict og')).
  simpl in Hog1. subst og1.
  exists h1, hd1, tl1, cs1. split; [|done].
  unfold loadFrom. prim. prim. prim. prim. unfold snapshot at 1. norm. cbn [tracks]. prim.
  call Hrun1. cbn [current_index]. prim.
  lazymatch goal with
  | |- context [bind ?m _ ?w] =>
      assert (m w = Return tt
                (mkWorld h1 (mkQueue hd1 tl1
                               (if (0 <=? idx)%Z then cs1.*1 !! Z.to_nat idx else ac)
                               (length cs1) sh rp pl og)
                   (Json (snapshot ts idx sh' rp' pl' og')))) as Hact
  end.
  { destruct (0 <=? idx)%Z; [|done].
    prim. looping ltac:(eapply stepForward_dlist; exact Hd1). done. }
  call Hact. clear Hact.
  cbn [is_shuffled is_repeat is_playing original_order].
  prim. prim. prim. prim. prim. prim. prim. prim.
  call Hrun2. done.
Qed.


Lemma positionFrom_cell h prev first cs k r t :
  dlist h prev first cs -> cs !! k = Some (r, t) ->
  positionFrom 0 (Some r) cs.*1 = Z.of_nat k.
Proof.
  intros Hd Hk. rewrite (positionFrom_lookup 0 r cs.*1 k); [lia|by eapply dlist_NoDup|].
  by rewrite list_lookup_fmap, Hk.
Qed.

(** [shuffleQueue] with the active node at position [k]. *)
Lemma shuffleQueue_at draws h hd tl sz rp pl og f cs k r t :
  linked h hd tl sz cs -> 1 < sz -> cs !! k = Some (r, t) ->
  let og' := if length og =? 0 then og ++ cs.*2 else og in
  exists h' hd' tl' r' cs',
    shuffleQueue draws (mkWorld h (mkQueue hd tl (Some r) sz false rp pl og) f) =
      Return tt
        (mkWorld h' (mkQueue hd' tl' (Some r') (length cs') true rp pl og')
           (Json (snapshot cs'.*2 (Z.of_nat k) true rp pl og')))
    /\ linked h' hd' tl' (length cs') cs'
    /\ cs'.*2 = take k cs.*2 ++ [t] ++ Random.shuffle draws (drop (S k) cs.*2)
    /\ cs' !! k = Some (r', t)
    /\ (closed h -> closed h').
Proof.
  intros Hl Hsz Hk og'. pose proof Hl as (Hd & _).
  pose proof (positionFrom_cell _ _ _ _ _ _ _ Hd Hk) as Hp.
  destruct (shuffleQueue_spec draws h hd tl (Some r) sz rp pl og f cs (Some t) Hl Hsz)
    as (h' & hd' & tl' & ac' & cs' & Hrun & Hl' & Hts & (c & Hc & ->) & Hcl).
  { eexists. split; [by eapply dlist_lookup|done]. }
  cbv zeta in Hts, Hc. rewrite Hp in Hts, Hc.
  assert ((0 <=? Z.of_nat k)%Z = true) as Hpos by lia.
  rewrite Hpos, Nat2Z.id in Hts, Hc.
  assert (k < length cs.*2) as Hlt.
  { rewrite length_fmap. by eapply lookup_lt_Some. }
  rewrite length_take_le in Hc by lia.
  assert (c.2 = t) as Hct.
  { assert (cs'.*2 !! k = Some t) as Hkt.
    { rewrite Hts. rewrite lookup_app_r by (rewrite length_take_le; lia).
      rewrite length_take_le by lia. by rewrite Nat.sub_diag. }
    rewrite list_lookup_fmap, Hc in Hkt. by injection Hkt. }
  pose proof Hl' as (Hd' & _).
  exists h', hd', tl', c.1, cs'. split.
  - rewrite Hrun. rewrite (positionFrom_cell _ _ _ _ k c.1 c.2 Hd'); [done|].
    by destruct c.
  - split; [done|]. split; [done|]. split; [|done]. rewrite <-Hct. by destruct c.
Qed.

End Methods.

(** ** Invariants of a run *)

Section Invariants.

Implicit Types (h : heap) (cs : list (ref * Track)) (r : ref) (t : Track).
Implicit Types (w : World).

Lemma ends_in_bind {A B} (P : World -> Prop) (m : M A) (k : A -> M B) w :
  ends_in P (m w) -> (forall a w', P w' -> ends_in P (k a w')) -> ends_in P (bind m k w).
Proof. unfold bind. destruct (m w); simpl; eauto. Qed.

Lemma ends_in_bind_ret {A} (P : World -> Prop) (m : M A) w :
  ends_in P (m w) -> ends_in P (bind m (fun _ => ret tt) w).
Proof. intros. by apply ends_in_bind. Qed.

Lemma well_formed_intro h hd tl ac sz sh rp pl og f cs :
  linked h hd tl sz cs -> closed h -> in_store h ac ->
  well_formed (mkWorld h (mkQueue hd tl ac sz sh rp pl og) f).
Proof. intros H ? ?. split; [by exists cs|done]. Qed.

Lemma saveQueueState_well_formed w :
  well_formed w -> ends_in well_formed (saveQueueState w).
Proof.
  destruct w as [h [hd tl ac sz sh rp pl og] f]. intros ((cs & Hd & Htl & Hsz) & Hcl & Hac).
  simpl in Hd, Htl, Hsz, Hcl, Hac.
  rewrite (saveQueueState_spec _ _ _ _ _ _ _ _ _ _ cs Hd). by eapply well_formed_intro.
Qed.

Lemma addTrack_well_formed t w : well_formed w -> ends_in well_formed (addTrack t w).
Proof.
  destruct w as [h [hd tl ac sz sh rp pl og] f]. intros ((cs & Hd & Htl & Hsz) & Hcl & Hac).
  simpl in Hd, Htl, Hsz, Hcl, Hac.
  destruct (existsb (fun c => __eq__ c.2 t) cs) eqn:Hdup.
  - rewrite (addTrack_duplicate _ _ _ cs) by done. by eapply well_formed_intro.
  - destruct (addTrack_fresh h hd tl ac sz sh rp pl og f cs t Hd Hdup)
      as (h' & hd' & -> & Hl & Hcl' & Hle).
    eapply well_formed_intro; [done|auto|].
    destruct cs; [|by eapply in_store_mono; [exact Hle|]].
    simpl. destruct Hl as (Hd' & _). eapply dlist_bound; [exact Hd'|]. simpl. by left.
Qed.

Lemma forEach_addTrack_well_formed ts : forall w,
  well_formed w ->
  ends_in well_formed (forEach ts (fun track => addTrack track ;; ret tt) w).
Proof.
  induction ts as [|t ts IH]; intros w Hw; [done|].
  cbn [forEach]. apply ends_in_bind.
  - apply ends_in_bind_ret. by apply addTrack_well_formed.
  - intros _ w'. apply IH.
Qed.

Lemma loadTracks_well_formed ts w : well_formed w -> ends_in well_formed (loadTracks ts w).
Proof.
  intros Hw. unfold loadTracks. apply ends_in_bind.
  - by apply forEach_addTrack_well_formed.
  - intros _ w'. apply saveQueueState_well_formed.
Qed.

Lemma afterMove_well_formed h hd tl ac' sz sh rp pl og cs :
  linked h hd tl sz cs -> closed h -> in_store h ac' ->
  ends_in well_formed (afterMove h hd tl ac' sz sh rp pl og cs).
Proof.
  intros Hl Hcl Hac. unfold afterMove. destruct ac' as [a|]; [|by eapply well_formed_intro].
  destruct (lookup_lt_is_Some_2 h a Hac) as [n ->]. by eapply well_formed_intro.
Qed.

Lemma linked_tail_in_store h hd tl sz cs : linked h hd tl sz cs -> in_store h tl.
Proof.
  intros (Hd & -> & _). destruct (last cs.*1) as [r|] eqn:E; [|done].
  simpl. eapply dlist_bound; [done|]. apply last_Some in E as [l' ->].
  apply elem_of_app. right. by left.
Qed.

Lemma advanceToNext_well_formed w :
  well_formed w -> ends_in well_formed (advanceToNext w).
Proof.
  destruct w as [h [hd tl ac sz sh rp pl og] f]. intros ((cs & Hl) & Hcl & Hac).
  unfold cells in Hl. simpl in Hl, Hcl, Hac. pose proof Hl as (Hd & Htl & Hsz).
  rewrite (advanceToNext_normal _ _ _ _ _ _ _ _ _ _ cs Hd).
  destruct ac as [a|]; [|by eapply well_formed_intro].
  destruct (lookup_lt_is_Some_2 h a Hac) as [n Hn]. rewrite Hn.
  destruct (Hcl a n Hn) as [Hnx _].
  destruct (nextNode n); [by apply afterMove_well_formed|].
  destruct rp; [|by eapply well_formed_intro].
  apply afterMove_well_formed; [done|done|]. by eapply dlist_in_store.
Qed.

Lemma rewindToPrevious_well_formed w :
  well_formed w -> ends_in well_formed (rewindToPrevious w).
Proof.
  destruct w as [h [hd tl ac sz sh rp pl og] f]. intros ((cs & Hl) & Hcl & Hac).
  unfold cells in Hl. simpl in Hl, Hcl, Hac. pose proof Hl as (Hd & Htl & Hsz).
  rewrite (rewindToPrevious_normal _ _ _ _ _ _ _ _ _ _ cs Hd).
  destruct ac as [a|]; [|by eapply well_formed_intro].
  destruct (lookup_lt_is_Some_2 h a Hac) as [n Hn]. rewrite Hn.
  destruct (Hcl a n Hn) as [_ Hpv].
  destruct (prevNode n); [by apply afterMove_well_formed|].
  destruct rp; apply afterMove_well_formed; try done.
  by eapply linked_tail_in_store.
Qed.

Lemma active_track_exists h ac :
  in_store h ac ->
  exists act, match ac with
              | None => act = None
              | Some a => exists n, h !! a = Some n /\ act = Some (trackData n)
              end.
Proof.
  destruct ac as [a|]; [|by exists None].
  intros Hac. destruct (lookup_lt_is_Some_2 h a Hac) as [n Hn]. eauto.
Qed.

Lemma shuffleQueue_well_formed draws w :
  well_formed w -> ends_in well_formed (shuffleQueue draws w).
Proof.
  destruct w as [h [hd tl ac sz sh rp pl og] f]. intros ((cs & Hl) & Hcl & Hac).
  unfold cells in Hl. simpl in Hl, Hcl, Hac.
  destruct sh; [by eapply well_formed_intro|].
  destruct (decide (sz <= 1)) as [Hsz|Hsz].
  { rewrite shuffleQueue_small by done. by eapply well_formed_intro. }
  destruct (active_track_exists h ac Hac) as [act Hact].
  destruct (shuffleQueue_spec draws h hd tl ac sz rp pl og f cs act Hl ltac:(lia) Hact)
    as (h' & hd' & tl' & ac' & cs' & -> & Hl' & _ & Hac' & Hcl').
  eapply well_formed_intro; [done|auto|].
  destruct act.
  - destruct Hac' as (c & Hc & ->). simpl. destruct Hl' as (Hd' & _).
    eapply dlist_bound; [done|]. apply list_elem_of_fmap. exists c. split; [done|].
    by eapply list_elem_of_lookup_2.
  - subst ac'. destruct Hl' as (Hd' & _). by eapply dlist_in_store.
Qed.

Lemma restoreOriginalOrder_well_formed w :
  well_formed w -> ends_in well_formed (restoreOriginalOrder w).
Proof.
  destruct w as [h [hd tl ac sz sh rp pl og] f]. intros ((cs & Hl) & Hcl & Hac).
  unfold cells in Hl. simpl in Hl, Hcl, Hac.
  destruct sh; [|by eapply well_formed_intro].
  destruct (active_track_exists h ac Hac) as [act Hact].
  destruct (restoreOriginalOrder_spec h hd tl ac sz rp pl og f cs act Hl Hact)
    as (h' & hd' & tl' & ac' & cs' & -> & Hl' & _ & Hac' & Hcl').
  eapply well_formed_intro; [done|auto|].
  pose proof Hl' as (Hd' & _).
  assert (in_store h' hd') by by eapply dlist_in_store.
  destruct act as [t|]; [|by subst].
  destruct (list_find _ cs') as [[k c]|] eqn:Efind; [|by subst].
  subst ac'. simpl. apply list_find_Some in Efind as (Hk & _).
  eapply dlist_bound; [done|]. apply list_elem_of_fmap. exists c. split; [done|].
  by eapply list_elem_of_lookup_2.
Qed.

Lemma exec_well_formed (c : call) w : well_formed w -> ends_in well_formed (exec c w).
Proof.
  intros Hw. destruct c; unfold exec.
  - apply ends_in_bind_ret. by apply addTrack_well_formed.
  - by apply loadTracks_well_formed.
  - destruct w as [h [hd tl ac sz sh rp pl og] f]. destruct Hw as ((cs & Hl) & Hcl & Hac).
    unfold cells in Hl. simpl in Hl, Hcl, Hac. pose proof Hl as (Hd & _).
    rewrite (startPlayback_normal _ _ _ _ _ _ _ _ _ _ cs Hd). cbn zeta.
    eapply well_formed_intro; [done|done|].
    destruct (negb rp && bool_decide (ac = tl)); [by eapply dlist_in_store|done].
  - destruct w as [h [hd tl ac sz sh rp pl og] f]. destruct Hw as ((cs & Hl) & Hcl & Hac).
    unfold cells in Hl. simpl in Hl, Hcl, Hac. pose proof Hl as (Hd & _).
    rewrite (pausePlayback_normal _ _ _ _ _ _ _ _ _ _ cs Hd). by eapply well_formed_intro.
  - apply ends_in_bind_ret. by apply advanceToNext_well_formed.
  - apply ends_in_bind_ret. by apply rewindToPrevious_well_formed.
  - by apply shuffleQueue_well_formed.
  - by apply restoreOriginalOrder_well_formed.
  - apply ends_in_bind_ret.
    destruct w as [h [hd tl ac sz sh rp pl og] f]. destruct Hw as ((cs & Hl) & Hcl & Hac).
    unfold cells in Hl. simpl in Hl, Hcl, Hac. pose proof Hl as (Hd & _).
    rewrite (toggleRepeat_normal _ _ _ _ _ _ _ _ _ _ cs Hd). by eapply well_formed_intro.
  - destruct w as [h q f]. rewrite clearQueue_normal. destruct Hw as (_ & Hcl & _).
    by eapply (well_formed_intro _ _ _ _ _ _ _ _ _ _ []).
  - by apply saveQueueState_well_formed.
  - apply ends_in_bind_ret.
    destruct (loadQueueState_returns w Hw) as (b & w' & -> & Hw'). done.
  - unfold handleAddTrackToQueue.
    apply ends_in_bind; [by apply addTrack_well_formed|].
    intros b w' Hw'. destruct b; [by apply saveQueueState_well_formed|done].
Qed.

Lemma startup_well_formed f : well_formed (startup f).
Proof. by eapply (well_formed_intro _ _ _ _ _ _ _ _ _ _ []). Qed.

Lemma step_well_formed w w' : well_formed w -> step w w' -> well_formed w'.
Proof.
  intros Hw Hstep. destruct Hstep as [c w w' Hrun|c e w w' Hrun|w].
  - pose proof (exec_well_formed c w Hw) as H. by rewrite Hrun in H.
  - apply startup_well_formed.
  - apply startup_well_formed.
Qed.

Lemma reachable_from_well_formed f0 w : reachable_from f0 w -> well_formed w.
Proof.
  induction 1 as [|w w' _ IH Hstep]; [apply startup_well_formed|].
  by eapply step_well_formed.
Qed.


(** *** Consistency of contents, active node and state file *)

Lemma consistent_intro h hd tl ac sz sh rp pl og f cs :
  linked h hd tl sz cs -> active_ok ac cs -> content_ok sh cs.*2 og -> file_ok f ->
  consistent (mkWorld h (mkQueue hd tl ac sz sh rp pl og) f).
Proof. intros. by exists cs. Qed.

Lemma snapshot_file_ok h hd cs ac sh rp pl og :
  dlist h None hd cs -> active_ok ac cs -> content_ok sh cs.*2 og ->
  file_ok (Json (snapshot cs.*2 (positionFrom 0 ac cs.*1) sh rp pl og)).
Proof.
  intros Hd Hac Hct. right. eexists _, _, _, _, _, _. split; [done|]. split; [done|].
  destruct Hac as [->|(r & -> & Hr)]; [by left|right].
  destruct (positionFrom_present 0 r cs.*1 Hr) as (k & _ & -> & Hk); [lia|].
  rewrite length_fmap in Hk. rewrite length_fmap. lia.
Qed.

Lemma active_ok_head h hd cs : dlist h None hd cs -> active_ok hd cs.
Proof.
  intros Hd. destruct cs as [|c cs]; [by left|right].
  destruct Hd as (-> & _). exists c.1. split; [done|]. by left.
Qed.

Lemma active_ok_tail cs : active_ok (last cs.*1) cs.
Proof.
  destruct (last cs.*1) as [r|] eqn:E.
  - right. exists r. split; [done|]. apply last_Some in E as [l' ->].
    apply elem_of_app. right. by left.
  - apply last_None in E. left. by destruct cs.
Qed.

Lemma lookup_fst_cell cs k r : cs.*1 !! k = Some r -> exists t, cs !! k = Some (r, t).
Proof.
  rewrite list_lookup_fmap. destruct (cs !! k) as [[r' t]|]; [|done].
  intros [= <-]. eauto.
Qed.

Lemma active_ok_next h prev first cs a n nx :
  dlist h prev first cs -> active_ok (Some a) cs -> h !! a = Some n ->
  nextNode n = Some nx -> active_ok (Some nx) cs.
Proof.
  intros Hd [->|(r & [= <-] & Hr)] Hn Hnx; [by left|right].
  apply list_elem_of_lookup in Hr as [k Hk].
  destruct (lookup_fst_cell _ _ _ Hk) as [t Hc].
  rewrite (dlist_lookup _ _ _ _ _ _ _ Hd Hc) in Hn. injection Hn as <-. simpl in Hnx.
  exists nx. split; [done|]. by eapply list_elem_of_lookup_2.
Qed.

Lemma active_ok_prev h first cs a n pv :
  dlist h None first cs -> active_ok (Some a) cs -> h !! a = Some n ->
  prevNode n = Some pv -> active_ok (Some pv) cs.
Proof.
  intros Hd [->|(r & [= <-] & Hr)] Hn Hpv; [by left|right].
  apply list_elem_of_lookup in Hr as [k Hk].
  destruct (lookup_fst_cell _ _ _ Hk) as [t Hc].
  rewrite (dlist_lookup _ _ _ _ _ _ _ Hd Hc) in Hn. injection Hn as <-. simpl in Hpv.
  destruct k as [|k]; [done|].
  exists pv. split; [done|]. by eapply list_elem_of_lookup_2.
Qed.

Lemma afterMove_consistent h hd tl ac' sz sh rp pl og cs :
  linked h hd tl sz cs -> active_ok ac' cs -> content_ok sh cs.*2 og ->
  after consistent (afterMove h hd tl ac' sz sh rp pl og cs).
Proof.
  intros Hl Hac Hct. pose proof Hl as (Hd & _).
  assert (consistent (mkWorld h (mkQueue hd tl ac' sz sh rp pl og)
                        (Json (snapshot cs.*2 (positionFrom 0 ac' cs.*1) sh rp pl og)))).
  { eapply consistent_intro; try done. by eapply snapshot_file_ok. }
  unfold afterMove. destruct ac' as [a|]; [|done]. by destruct (h !! a).
Qed.

Lemma saveQueueState_consistent w : consistent w -> after consistent (saveQueueState w).
Proof.
  destruct w as [h [hd tl ac sz sh rp pl og] f]. intros (cs & Hl & Hac & Hct & Hf).
  unfold cells in Hl. simpl in Hl, Hac, Hct, Hf. pose proof Hl as (Hd & _).
  rewrite (saveQueueState_spec _ _ _ _ _ _ _ _ _ _ cs Hd).
  eapply consistent_intro; try done. by eapply snapshot_file_ok.
Qed.

Lemma existsb_eq_key cs t :
  existsb (fun c => __eq__ c.2 t) cs = false -> key t ∉ key <$> cs.*2.
Proof.
  intros Hex Hin. apply list_elem_of_fmap in Hin as (t' & Hk & Hin).
  apply list_elem_of_fmap in Hin as (c & -> & Hin).
  assert (existsb (fun c => __eq__ c.2 t) cs = true) as Htrue; [|congruence].
  apply existsb_exists. exists c. split; [by apply list_elem_of_In|].
  apply eq_key. done.
Qed.

Lemma addTrack_consistent t w : consistent w -> after consistent (addTrack t w).
Proof.
  destruct w as [h [hd tl ac sz sh rp pl og] f]. intros (cs & Hl & Hac & Hct & Hf).
  unfold cells in Hl. simpl in Hl, Hac, Hct, Hf. pose proof Hl as (Hd & _).
  destruct (existsb (fun c => __eq__ c.2 t) cs) eqn:Hdup.
  - rewrite (addTrack_duplicate _ _ _ cs) by done. by eapply consistent_intro.
  - destruct (addTrack_fresh h hd tl ac sz sh rp pl og f cs t Hd Hdup)
      as (h' & hd' & -> & Hl' & _).
    eapply consistent_intro; [done| | |done].
    + right. destruct Hac as [->|(r & -> & Hr)].
      * exists (length h). split; [done|]. by left.
      * exists r. split; [destruct cs; [by apply elem_of_nil in Hr|done]|].
        rewrite fmap_app. apply elem_of_app. by left.
    + destruct Hct as (Hnd & Hog). split.
      * rewrite !fmap_app. simpl. apply NoDup_app. split; [done|]. split.
        -- intros k Hk Hk'. apply list_elem_of_singleton in Hk'. subst k.
           by eapply existsb_eq_key.
        -- apply NoDup_singleton.
      * destruct sh; [done|]. rewrite fmap_app. simpl. by rewrite Hog.
Qed.

Lemma after_bind {A B} (P : World -> Prop) (m : M A) (k : A -> M B) w :
  after P (m w) -> (forall a w', P w' -> after P (k a w')) -> after P (bind m k w).
Proof. unfold bind. destruct (m w); simpl; eauto. Qed.

Lemma after_bind_ret {A} (P : World -> Prop) (m : M A) w :
  after P (m w) -> after P (bind m (fun _ => ret tt) w).
Proof. intros. by apply after_bind. Qed.

Lemma forEach_addTrack_consistent ts : forall w,
  consistent w -> after consistent (forEach ts (fun track => addTrack track ;; ret tt) w).
Proof.
  induction ts as [|t ts IH]; intros w Hw; [done|].
  cbn [forEach]. apply after_bind.
  - apply after_bind_ret. by apply addTrack_consistent.
  - intros _ w'. apply IH.
Qed.


Lemma loadTracks_consistent ts w : consistent w -> after consistent (loadTracks ts w).
Proof.
  intros Hw. unfold loadTracks. apply after_bind.
  - by apply forEach_addTrack_consistent.
  - intros _ w'. apply saveQueueState_consistent.
Qed.

Lemma advanceToNext_consistent w : consistent w -> after consistent (advanceToNext w).
Proof.
  destruct w as [h [hd tl ac sz sh rp pl og] f]. intros (cs & Hl & Hac & Hct & Hf).
  unfold cells in Hl. simpl in Hl, Hac, Hct, Hf. pose proof Hl as (Hd & _).
  rewrite (advanceToNext_normal _ _ _ _ _ _ _ _ _ _ cs Hd).
  destruct ac as [a|]; [|by eapply consistent_intro].
  destruct (h !! a) as [n|] eqn:Hn; [|done].
  destruct (nextNode n) as [nx|] eqn:Hnx.
  - apply afterMove_consistent; try done. by eapply active_ok_next.
  - destruct rp.
    + apply afterMove_consistent; try done. by eapply active_ok_head.
    + eapply consistent_intro; try done. by eapply snapshot_file_ok.
Qed.

Lemma rewindToPrevious_consistent w : consistent w -> after consistent (rewindToPrevious w).
Proof.
  destruct w as [h [hd tl ac sz sh rp pl og] f]. intros (cs & Hl & Hac & Hct & Hf).
  unfold cells in Hl. simpl in Hl, Hac, Hct, Hf. pose proof Hl as (Hd & Htl & _).
  rewrite (rewindToPrevious_normal _ _ _ _ _ _ _ _ _ _ cs Hd).
  destruct ac as [a|]; [|by eapply consistent_intro].
  destruct (h !! a) as [n|] eqn:Hn; [|done].
  destruct (prevNode n) as [pv|] eqn:Hpv.
  - apply afterMove_consistent; try done. by eapply active_ok_prev.
  - destruct rp; apply afterMove_consistent; try done.
    subst tl. apply active_ok_tail.
Qed.

Lemma shuffle_keys draws k t (ts : list Track) :
  ts !! k = Some t ->
  key <$> (take k ts ++ [t] ++ Random.shuffle draws (drop (S k) ts)) ≡ₚ key <$> ts.
Proof.
  intros Hk. apply fmap_Permutation.
  rewrite shuffle_Permutation. simpl. by rewrite take_drop_middle.
Qed.

Lemma shuffleQueue_consistent draws w :
  consistent w -> after consistent (shuffleQueue draws w).
Proof.
  destruct w as [h [hd tl ac sz sh rp pl og] f]. intros (cs & Hl & Hac & Hct & Hf).
  unfold cells in Hl. simpl in Hl, Hac, Hct, Hf.
  destruct sh; [by eapply consistent_intro|].
  destruct (decide (sz <= 1)) as [Hsz|Hsz].
  { rewrite shuffleQueue_small by done. by eapply consistent_intro. }
  pose proof Hl as (Hd & _ & Hlen).
  destruct Hac as [->|(r & -> & Hr)]; [simpl in Hlen; lia|].
  apply list_elem_of_lookup in Hr as [k Hk].
  destruct (lookup_fst_cell _ _ _ Hk) as [t Hc].
  destruct (shuffleQueue_at draws h hd tl sz rp pl og f cs k r t Hl ltac:(lia) Hc)
    as (h' & hd' & tl' & r' & cs' & -> & Hl' & Hts & Hc' & _).
  destruct Hct as (Hnd & ->).
  assert ((length cs.*2 =? 0) = false) as ->.
  { apply Nat.eqb_neq. rewrite length_fmap. lia. }
  assert (cs.*2 !! k = Some t) as Hkt by by rewrite list_lookup_fmap, Hc.
  assert (content_ok true cs'.*2 cs.*2) as Hct'.
  { split; [|done]. rewrite Hts. by rewrite shuffle_keys. }
  assert (active_ok (Some r') cs') as Hac'.
  { right. exists r'. split; [done|]. apply list_elem_of_fmap. exists (r', t).
    split; [done|]. by eapply list_elem_of_lookup_2. }
  pose proof Hl' as (Hd' & _).
  eapply consistent_intro; try done.
  rewrite <-(positionFrom_cell _ _ _ _ _ _ _ Hd' Hc').
  by eapply snapshot_file_ok.
Qed.

Lemma foundIn_false_keys (og : list Track) t :
  foundIn og t = false -> key t ∉ key <$> og.
Proof.
  intros Hf Hin. apply list_elem_of_fmap in Hin as (o & Hk & Hin).
  assert (foundIn og t = true) as Htrue; [|congruence].
  apply existsb_exists. exists o. split; [by apply list_elem_of_In|]. by apply eq_key.
Qed.

Lemma restored_keys_NoDup (og ts : list Track) :
  NoDup (key <$> og) -> NoDup (key <$> ts) ->
  NoDup (key <$> (og ++ filter (fun t => foundIn og t = false) ts)).
Proof.
  intros Hog Hts. rewrite fmap_app. apply NoDup_app. split; [done|]. split.
  - intros k Hk Hk'. apply list_elem_of_fmap in Hk' as (t & -> & Ht).
    apply list_elem_of_filter in Ht as [Hf _]. by eapply foundIn_false_keys.
  - eapply sublist_NoDup; [exact Hts|]. apply fmap_sublist, sublist_filter.
Qed.

Lemma restoreOriginalOrder_consistent w :
  well_formed w -> consistent w -> after consistent (restoreOriginalOrder w).
Proof.
  destruct w as [h [hd tl ac sz sh rp pl og] f].
  intros (_ & _ & Hin) (cs & Hl & Hac & Hct & Hf).
  unfold cells in Hl. simpl in Hl, Hac, Hct, Hf, Hin.
  destruct sh; [|by eapply consistent_intro].
  destruct (active_track_exists h ac Hin) as [act Hact].
  destruct (restoreOriginalOrder_spec h hd tl ac sz rp pl og f cs act Hl Hact)
    as (h' & hd' & tl' & ac' & cs' & -> & Hl' & Hts & Hac' & _).
  pose proof Hl' as (Hd' & _). destruct Hct as (Hnd & Hog).
  assert (content_ok false cs'.*2 (og ++ filter (fun t => foundIn og t = false) cs.*2))
    as Hct'.
  { split; [|done]. rewrite Hts. by apply restored_keys_NoDup. }
  assert (active_ok ac' cs') as Hok.
  { pose proof (active_ok_head _ _ _ Hd') as Hhead.
    destruct act as [t|]; [|by subst].
    destruct (list_find _ cs') as [[k c]|] eqn:Efind; [|by subst].
    subst ac'. right. exists c.1. split; [done|].
    apply list_find_Some in Efind as (Hk & _).
    apply list_elem_of_fmap. exists c. split; [done|]. by eapply list_elem_of_lookup_2. }
  eapply consistent_intro; try done. by eapply snapshot_file_ok.
Qed.

Lemma loadQueueState_consistent w : consistent w -> after consistent (loadQueueState w).
Proof.
  destruct w as [h [hd tl ac sz sh rp pl og] f]. intros (cs & Hl & Hac & Hct & Hf).
  unfold cells in Hl. simpl in Hl, Hac, Hct, Hf.
  destruct Hf as [->|(ts & idx & sh' & rp' & pl' & og' & -> & Hct' & Hidx)].
  { unfold loadQueueState. prim. by eapply consistent_intro; [| | |left]. }
  destruct (loadQueueState_snapshot h hd tl ac sz sh rp pl og ts idx sh' rp' pl' og')
    as (h' & hd' & tl' & cs' & -> & Hl' & Hts & _).
  subst ts. pose proof Hl' as (Hd' & _).
  eapply consistent_intro; [done| |done|].
  - destruct Hidx as [[-> Hnil]|Hidx].
    + left. by destruct cs'.
    + assert ((0 <=? idx)%Z = true) as -> by lia.
      rewrite length_fmap in Hidx.
      destruct (lookup_lt_is_Some_2 cs'.*1 (Z.to_nat idx)) as [r Hr].
      { rewrite length_fmap. lia. }
      rewrite Hr. right. exists r. split; [done|]. by eapply list_elem_of_lookup_2.
  - right. by eexists _, _, _, _, _, _.
Qed.

Lemma exec_consistent (c : call) w :
  well_formed w -> consistent w -> after consistent (exec c w).
Proof.
  intros Hwf Hw. destruct c; unfold exec.
  - apply after_bind_ret. by apply addTrack_consistent.
  - by apply loadTracks_consistent.
  - destruct w as [h [hd tl ac sz sh rp pl og] f]. destruct Hw as (cs & Hl & Hac & Hct & Hf).
    unfold cells in Hl. simpl in Hl, Hac, Hct, Hf. pose proof Hl as (Hd & _).
    rewrite (startPlayback_normal _ _ _ _ _ _ _ _ _ _ cs Hd). cbn zeta.
    assert (active_ok (if negb rp && bool_decide (ac = tl) then hd else ac) cs).
    { destruct (negb rp && bool_decide (ac = tl)); [by eapply active_ok_head|done]. }
    eapply consistent_intro; try done. by eapply snapshot_file_ok.
  - destruct w as [h [hd tl ac sz sh rp pl og] f]. destruct Hw as (cs & Hl & Hac & Hct & Hf).
    unfold cells in Hl. simpl in Hl, Hac, Hct, Hf. pose proof Hl as (Hd & _).
    rewrite (pausePlayback_normal _ _ _ _ _ _ _ _ _ _ cs Hd).
    eapply consistent_intro; try done. by eapply snapshot_file_ok.
  - apply after_bind_ret. by apply advanceToNext_consistent.
  - apply after_bind_ret. by apply rewindToPrevious_consistent.
  - by apply shuffleQueue_consistent.
  - by apply restoreOriginalOrder_consistent.
  - apply after_bind_ret.
    destruct w as [h [hd tl ac sz sh rp pl og] f]. destruct Hw as (cs & Hl & Hac & Hct & Hf).
    unfold cells in Hl. simpl in Hl, Hac, Hct, Hf. pose proof Hl as (Hd & _).
    rewrite (toggleRepeat_normal _ _ _ _ _ _ _ _ _ _ cs Hd).
    eapply consistent_intro; try done. by eapply snapshot_file_ok.
  - destruct w as [h q f]. rewrite clearQueue_normal.
    eapply (consistent_intro _ _ _ _ _ _ _ _ _ _ []); try done.
    + by left.
    + split; [constructor|done].
    + right. exists [], (-1)%Z, false, false, false, []. split; [done|].
      split; [split; [constructor|done]|]. by left.
  - by apply saveQueueState_consistent.
  - apply after_bind_ret. by apply loadQueueState_consistent.
  - unfold handleAddTrackToQueue.
    apply after_bind; [by apply addTrack_consistent|].
    intros b w' Hw'. destruct b; [by apply saveQueueState_consistent|done].
Qed.

Lemma startup_consistent f : file_ok f -> consistent (startup f).
Proof.
  intros Hf. eapply (consistent_intro _ _ _ _ _ _ _ _ _ _ []); try done.
  - by left.
  - split; [constructor|done].
Qed.

Lemma consistent_file_ok w : consistent w -> file_ok (file w).
Proof. by intros (cs & _ & _ & _ & Hf). Qed.

Lemma step_consistent w w' : well_formed w -> consistent w -> step w w' -> consistent w'.
Proof.
  intros Hwf Hw Hstep. destruct Hstep as [c w w' Hrun|c e w w' Hrun|w].
  - pose proof (exec_consistent c w Hwf Hw) as H. by rewrite Hrun in H.
  - pose proof (exec_consistent c w Hwf Hw) as H. rewrite Hrun in H.
    apply startup_consistent. by apply consistent_file_ok.
  - apply startup_consistent. by apply consistent_file_ok.
Qed.

Lemma reachable_consistent w : reachable w -> consistent w.
Proof.
  induction 1 as [|w w' Hreach IH Hstep]; [apply startup_consistent; by left|].
  eapply step_consistent; [|done|done]. by eapply reachable_from_well_formed.
Qed.

End Invariants.

(** ** What the observers see of a well-linked queue *)

Section Observers.

Implicit Types (h : heap) (cs : list (ref * Track)) (w : World).

Lemma sequence_cells w cs : cells w cs -> sequence w = Some cs.*2.
Proof.
  intros (Hd & _). unfold sequence.
  erewrite collectTracks_dlist; [done|exact Hd|by eapply dlist_length].
Qed.

Lemma activeIndex_cells w cs :
  cells w cs -> activeIndex w = Some (positionFrom 0 (activeNode (self w)) cs.*1).
Proof.
  intros (Hd & _). unfold activeIndex.
  erewrite findPosition_dlist; [done|exact Hd|by eapply dlist_length].
Qed.

Lemma nodeCount_cells w cs : cells w cs -> nodeCount w = Some (length cs).
Proof.
  intros (Hd & _). unfold nodeCount.
  erewrite countNodes_dlist; [done|exact Hd|by eapply dlist_length].
Qed.

Lemma cells_of_sequence w ts :
  well_formed w -> sequence w = Some ts -> exists cs, cells w cs /\ cs.*2 = ts.
Proof.
  intros ((cs & Hc) & _) Hseq. exists cs. split; [done|].
  rewrite (sequence_cells _ _ Hc) in Hseq. by injection Hseq.
Qed.

Lemma positionFrom_inv pos active (rs : list ref) k :
  (0 <= pos)%Z -> positionFrom pos active rs = (pos + Z.of_nat k)%Z ->
  exists r, active = Some r /\ rs !! k = Some r.
Proof.
  revert pos k. induction rs as [|r rs IH]; intros pos k Hpos Hp; simpl in Hp; [lia|].
  destruct (decide (Some r = active)) as [<-|Hne].
  - assert (k = 0) as -> by lia. eauto.
  - destruct (positionFrom_range (pos + 1) active rs) as [Hr|Hr]; [lia|].
    destruct k as [|k]; [lia|].
    destruct (IH (pos + 1)%Z k) as (r' & -> & Hk); [lia|lia|]. eauto.
Qed.

Lemma serialization_snapshot h hd tl ac sz sh rp pl og cs :
  dlist h None hd cs ->
  let f := Json (snapshot cs.*2 (positionFrom 0 ac cs.*1) sh rp pl og) in
  serialization (mkWorld h (mkQueue hd tl ac sz sh rp pl og) f) = Some f.
Proof.
  intros Hd f. unfold serialization.
  by rewrite (saveQueueState_spec _ _ _ _ _ _ _ _ _ _ cs Hd).
Qed.

End Observers.

(** ** Navigation from a known position *)

Section Navigation.

Implicit Types (h : heap) (cs : list (ref * Track)) (w : World).

Lemma advanceToNext_step h hd tl sz sh rp pl og f cs k r t r' t' :
  dlist h None hd cs -> cs !! k = Some (r, t) -> cs !! S k = Some (r', t') ->
  advanceToNext (mkWorld h (mkQueue hd tl (Some r) sz sh rp pl og) f) =
    Return (Some t')
      (mkWorld h (mkQueue hd tl (Some r') sz sh rp pl og)
         (Json (snapshot cs.*2 (Z.of_nat (S k)) sh rp pl og))).
Proof.
  intros Hd Hk Hk'. rewrite (advanceToNext_normal _ _ _ _ _ _ _ _ _ _ cs Hd).
  rewrite (dlist_lookup _ _ _ _ _ _ _ Hd Hk). cbn [nextNode].
  rewrite list_lookup_fmap, Hk'. cbn [fmap option_fmap option_map fst].
  unfold afterMove. rewrite (dlist_lookup _ _ _ _ _ _ _ Hd Hk'). cbn [trackData].
  by rewrite (positionFrom_cell _ _ _ _ _ _ _ Hd Hk').
Qed.

Lemma advanceToNext_end h hd tl sz sh pl og f cs k r t :
  dlist h None hd cs -> cs !! k = Some (r, t) -> cs !! S k = None ->
  advanceToNext (mkWorld h (mkQueue hd tl (Some r) sz sh false pl og) f) =
    Return None
      (mkWorld h (mkQueue hd tl (Some r) sz sh false false og)
         (Json (snapshot cs.*2 (Z.of_nat k) sh false false og))).
Proof.
  intros Hd Hk Hk'. rewrite (advanceToNext_normal _ _ _ _ _ _ _ _ _ _ cs Hd).
  rewrite (dlist_lookup _ _ _ _ _ _ _ Hd Hk). cbn [nextNode].
  rewrite list_lookup_fmap, Hk'. cbn [fmap option_fmap option_map].
  by rewrite (positionFrom_cell _ _ _ _ _ _ _ Hd Hk).
Qed.

Lemma advanceToNext_wrap h hd tl sz sh pl og f cs k r t r0 t0 :
  dlist h None hd cs -> cs !! k = Some (r, t) -> cs !! S k = None ->
  cs !! 0 = Some (r0, t0) ->
  advanceToNext (mkWorld h (mkQueue hd tl (Some r) sz sh true pl og) f) =
    Return (Some t0)
      (mkWorld h (mkQueue hd tl hd sz sh true pl og)
         (Json (snapshot cs.*2 0 sh true pl og))).
Proof.
  intros Hd Hk Hk' H0. rewrite (advanceToNext_normal _ _ _ _ _ _ _ _ _ _ cs Hd).
  rewrite (dlist_lookup _ _ _ _ _ _ _ Hd Hk). cbn [nextNode].
  rewrite list_lookup_fmap, Hk'. cbn [fmap option_fmap option_map].
  assert (hd = Some r0) as ->.
  { rewrite (dlist_head _ _ _ _ Hd). destruct cs; simpl in *; [done|]. by simplify_eq. }
  unfold afterMove. rewrite (dlist_lookup _ _ _ _ _ _ _ Hd H0). cbn [trackData].
  by rewrite (positionFrom_cell _ _ _ _ _ _ _ Hd H0).
Qed.

Lemma rewindToPrevious_wrap h hd tl sz sh pl og f cs r t rl tl_ :
  linked h hd tl sz cs -> cs !! 0 = Some (r, t) -> last cs = Some (rl, tl_) ->
  rewindToPrevious (mkWorld h (mkQueue hd tl (Some r) sz sh true pl og) f) =
    Return (Some tl_)
      (mkWorld h (mkQueue hd tl tl sz sh true pl og)
         (Json (snapshot cs.*2 (Z.of_nat (length cs - 1)) sh true pl og))).
Proof.
  intros (Hd & Htl & _) H0 Hlast. rewrite (rewindToPrevious_normal _ _ _ _ _ _ _ _ _ _ cs Hd).
  rewrite (dlist_lookup _ _ _ _ _ _ _ Hd H0). cbn [prevNode].
  assert (cs !! (length cs - 1) = Some (rl, tl_)) as Hk.
  { rewrite last_lookup in Hlast. by replace (length cs - 1) with (pred (length cs)) by lia. }
  assert (tl = Some rl) as ->.
  { rewrite Htl, fmap_last, Hlast. done. }
  unfold afterMove. rewrite (dlist_lookup _ _ _ _ _ _ _ Hd Hk). cbn [trackData].
  by rewrite (positionFrom_cell _ _ _ _ _ _ _ Hd Hk).
Qed.

Lemma advanceTimes_run n : forall h hd tl sz sh rp pl og f cs k r t,
  dlist h None hd cs -> cs !! k = Some (r, t) -> k + n < length cs ->
  exists r' f',
    advanceTimes n (mkWorld h (mkQueue hd tl (Some r) sz sh rp pl og) f) =
      Return (Some <$> take n (drop (S k) cs.*2))
        (mkWorld h (mkQueue hd tl (Some r') sz sh rp pl og) f')
    /\ cs.*1 !! (k + n) = Some r'.
Proof.
  induction n as [|n IH]; intros h hd tl sz sh rp pl og f cs k r t Hd Hk Hlt.
  - exists r, f. split; [done|]. by rewrite Nat.add_0_r, list_lookup_fmap, Hk.
  - destruct (lookup_lt_is_Some_2 cs (S k)) as [[r1 t1] Hk1]; [lia|].
    destruct (IH h hd tl sz sh rp pl og
                (Json (snapshot cs.*2 (Z.of_nat (S k)) sh rp pl og)) cs (S k) r1 t1 Hd Hk1)
      as (r' & f' & Hrun & Hr'); [lia|].
    exists r', f'. split; [|by replace (k + S n) with (S k + n) by lia].
    cbn [advanceTimes]. unfold bind at 1.
    rewrite (advanceToNext_step h hd tl sz sh rp pl og f cs k r t r1 t1 Hd Hk Hk1).
    unfold bind at 1. rewrite Hrun. unfold ret. f_equal.
    assert (drop (S k) cs.*2 = t1 :: drop (S (S k)) cs.*2) as ->.
    { apply drop_S. by rewrite list_lookup_fmap, Hk1. }
    done.
Qed.

End Navigation.

(** * The claims of the specification *)

(** ** Track identity *)

(** C1, as stated, fails: two tracks that differ only in the case of the
    title match on all four fields after case normalisation, yet [__eq__]
    tells them apart. *)
Lemma eq_is_case_sensitive :
  ~ (__eq__ (mkTrack "Intro" (Single "Ana") "First" "3:05")
            (mkTrack "intro" (Single "Ana") "First" "3:05") = true
     <-> spec_equal (mkTrack "Intro" (Single "Ana") "First" "3:05")
                    (mkTrack "intro" (Single "Ana") "First" "3:05")).
Proof.
  intros [_ H]. assert (false = true) as Habs; [|done].
  apply H. repeat split; done.
Qed.

(** C1, amended: for tracks whose artist lists hold ASCII names, [__eq__]
    returns true iff the titles, the albums and the duration strings are
    identical as written and the artists have the same [str] rendering;
    nothing is case-normalised.  The two hypotheses keep the statement to
    the artists on which [py_str] is the [str] of Python: in the [repr] of
    a list Python escapes the characters beyond ASCII that cannot be
    printed, and [py_str] does not. *)
Theorem eq_compares_fields_exactly (a b : Track) :
  ascii_names (trackArtist a) = true ->
  ascii_names (trackArtist b) = true ->
  (__eq__ a b = true <->
     trackTitle a = trackTitle b
     /\ py_str (trackArtist a) = py_str (trackArtist b)
     /\ trackAlbum a = trackAlbum b
     /\ trackDuration a = trackDuration b).
Proof.
  intros _ _. rewrite eq_key. unfold key. split.
  - intros [= -> -> -> ->]. done.
  - intros (-> & -> & -> & ->). done.
Qed.

Lemma eq_compares_fields_exactly_witness :
  ascii_names (trackArtist trackB) = true
  /\ ascii_names (trackArtist trackB) = true
  /\ (__eq__ trackB trackB = true <->
        trackTitle trackB = trackTitle trackB
        /\ py_str (trackArtist trackB) = py_str (trackArtist trackB)
        /\ trackAlbum trackB = trackAlbum trackB
        /\ trackDuration trackB = trackDuration trackB).
Proof.
  assert (ascii_names (trackArtist trackB) = true) as Ha by reflexivity.
  split; [exact Ha|]. split; [exact Ha|].
  exact (eq_compares_fields_exactly trackB trackB Ha Ha).
Defined.

(** ** Adding *)

(** C9, as stated, fails: the identity rule of the specification takes
    tracks that differ in the case of a letter for equal, and [addTrack]
    does not.  A queue that holds "Intro" accepts "intro": the call
    returns true and the track is appended. *)
Lemma addTrack_accepts_other_case :
  ~ (forall w t ts,
       well_formed w -> sequence w = Some ts ->
       (exists u, u ∈ ts /\ spec_equal u t) ->
       addTrack t w = Return false w).
Proof.
  intros H.
  assert (well_formed queueABC) as Hw.
  { split; [exists [(0, trackA); (1, trackB); (2, trackC)]; by vm_compute|].
    split; [|vm_compute; lia].
    intros r n Hr. vm_compute in Hr.
    destruct r as [|[|[|r]]]; simplify_eq; vm_compute; lia. }
  assert (exists u, u ∈ [trackA; trackB; trackC] /\ spec_equal u trackA_small) as Hdup.
  { exists trackA. split; [by left|]. repeat split; done. }
  specialize (H queueABC trackA_small [trackA; trackB; trackC] Hw eq_refl Hdup).
  vm_compute in H. discriminate H.
Qed.

(** C9, amended: when the queue already holds a track that [Track.__eq__]
    takes for equal to the argument (the four fields as they are written,
    no case normalised), [addTrack] returns false and leaves the whole
    world as it was: same nodes, same order, same size, same active node,
    same flags, same [originalSequence] (and the same state file). *)
Theorem addTrack_rejects_duplicate (w : World) (t : Track) (ts : list Track) :
  well_formed w ->
  sequence w = Some ts ->
  (exists u, u ∈ ts /\ __eq__ u t = true) ->
  addTrack t w = Return false w.
Proof.
  intros Hw Hseq (u & Hu & Heq).
  destruct (cells_of_sequence w ts Hw Hseq) as (cs & (Hd & _) & <-).
  destruct w as [h q f]. simpl in Hd.
  apply (addTrack_duplicate h q f cs); [done|].
  apply existsb_exists. apply list_elem_of_fmap in Hu as (c & -> & Hc).
  exists c. split; [by apply list_elem_of_In|done].
Qed.

Lemma addTrack_rejects_duplicate_witness :
  well_formed queueABC
  /\ sequence queueABC = Some [trackA; trackB; trackC]
  /\ (exists u, u ∈ [trackA; trackB; trackC] /\ __eq__ u trackB = true)
  /\ addTrack trackB queueABC = Return false queueABC.
Proof.
  assert (well_formed queueABC) as Hw.
  { split; [exists [(0, trackA); (1, trackB); (2, trackC)]; by vm_compute|].
    split; [|vm_compute; lia].
    intros r n Hr. vm_compute in Hr.
    destruct r as [|[|[|r]]]; simplify_eq; vm_compute; lia. }
  assert (exists u, u ∈ [trackA; trackB; trackC] /\ __eq__ u trackB = true) as Hdup.
  { exists trackB. split; [|reflexivity]. apply elem_of_cons. right. apply elem_of_cons. by left. }
  split; [exact Hw|]. split; [reflexivity|]. split; [exact Hdup|].
  apply (addTrack_rejects_duplicate queueABC trackB [trackA; trackB; trackC] Hw eq_refl Hdup).
Defined.

(** ** Navigation *)

(** C7: in a queue of N > 1 tracks with repeat off and the head active,
    N-1 calls of [advanceToNext] return the tracks at positions 1 .. N-1 in
    turn and leave the tail active; one more call returns none, sets
    [playing] to false and leaves the tail active. *)
Theorem advance_reaches_tail_then_stops (w : World) (ts : list Track) :
  well_formed w ->
  sequence w = Some ts ->
  1 < length ts ->
  repeatEnabled (self w) = false ->
  activeNode (self w) = headNode (self w) ->
  exists w1 w2,
    advanceTimes (length ts - 1) w = Return (Some <$> drop 1 ts) w1
    /\ activeNode (self w1) = tailNode (self w1)
    /\ activeIndex w1 = Some (Z.of_nat (length ts - 1))
    /\ advanceToNext w1 = Return None w2
    /\ playbackActive (self w2) = false
    /\ activeNode (self w2) = tailNode (self w2)
    /\ activeIndex w2 = Some (Z.of_nat (length ts - 1))
    /\ sequence w2 = Some ts.
Proof.
  intros Hw Hseq Hlen Hrp Hact.
  destruct (cells_of_sequence w ts Hw Hseq) as (cs & Hc & <-).
  destruct w as [h [hd tl ac sz sh rp pl og] f]. unfold cells in Hc.
  simpl in Hc, Hrp, Hact. subst rp ac. destruct Hc as (Hd & Htl & Hsz).
  rewrite length_fmap in Hlen. rewrite length_fmap.
  destruct (lookup_lt_is_Some_2 cs 0) as [[r0 t0] H0]; [lia|].
  assert (hd = Some r0) as ->.
  { rewrite (dlist_head _ _ _ _ Hd). destruct cs; simpl in *; [done|]. by simplify_eq. }
  destruct (advanceTimes_run (length cs - 1) h (Some r0) tl sz sh false pl og f cs 0 r0 t0 Hd H0)
    as (r' & f' & Hrun & Hr'); [lia|].
  simpl in Hr'.
  destruct (lookup_fst_cell _ _ _ Hr') as [t' Hk'].
  assert (cs !! S (length cs - 1) = None) as Hnone by (apply lookup_ge_None; lia).
  assert (tl = Some r') as ->.
  { rewrite Htl, last_lookup, length_fmap.
    by replace (pred (length cs)) with (length cs - 1) by lia. }
  eexists _, _. split.
  { rewrite Hrun. do 2 f_equal. apply take_ge. rewrite length_drop, length_fmap. lia. }
  split; [done|]. split.
  { rewrite (activeIndex_cells _ cs) by done. simpl.
    by rewrite (positionFrom_cell _ _ _ _ _ _ _ Hd Hk'). }
  split; [by apply (advanceToNext_end _ _ _ _ _ _ _ _ cs (length cs - 1) r' t')|].
  split; [done|]. split; [done|]. split.
  { rewrite (activeIndex_cells _ cs) by done. simpl.
    by rewrite (positionFrom_cell _ _ _ _ _ _ _ Hd Hk'). }
  by rewrite (sequence_cells _ cs).
Qed.

(** C8: in a non-empty queue with repeat on, [advanceToNext] at the tail
    returns the track of the head and makes the head active;
    [rewindToPrevious] at the head returns the track of the tail and makes
    the tail active. *)
Theorem repeat_wraps_around (w : World) (ts : list Track) :
  well_formed w ->
  sequence w = Some ts ->
  ts <> [] ->
  repeatEnabled (self w) = true ->
  (activeNode (self w) = tailNode (self w) ->
   exists w', advanceToNext w = Return (head ts) w'
     /\ activeNode (self w') = headNode (self w')
     /\ activeIndex w' = Some 0%Z
     /\ sequence w' = Some ts)
  /\ (activeNode (self w) = headNode (self w) ->
      exists w', rewindToPrevious w = Return (last ts) w'
        /\ activeNode (self w') = tailNode (self w')
        /\ activeIndex w' = Some (Z.of_nat (length ts - 1))
        /\ sequence w' = Some ts).
Proof.
  intros Hw Hseq Hne Hrp.
  destruct (cells_of_sequence w ts Hw Hseq) as (cs & Hc & <-).
  destruct w as [h [hd tl ac sz sh rp pl og] f]. unfold cells in Hc.
  simpl in Hc, Hrp. subst rp. pose proof Hc as (Hd & Htl & Hsz).
  assert (0 < length cs) as Hlen by (destruct cs; [done|simpl; lia]).
  destruct (lookup_lt_is_Some_2 cs 0) as [[r0 t0] H0]; [lia|].
  destruct (lookup_lt_is_Some_2 cs (length cs - 1)) as [[rl tl_] Hl]; [lia|].
  assert (hd = Some r0) as Hhd.
  { rewrite (dlist_head _ _ _ _ Hd). destruct cs; simpl in *; [done|]. by simplify_eq. }
  assert (last cs = Some (rl, tl_)) as Hlast.
  { rewrite last_lookup. by replace (pred (length cs)) with (length cs - 1) by lia. }
  assert (tl = Some rl) as Htl'.
  { by rewrite Htl, fmap_last, Hlast. }
  assert (head cs.*2 = Some t0) as Hhead by (destruct cs; simpl in *; by simplify_eq).
  assert (last cs.*2 = Some tl_) as Hlast' by (by rewrite fmap_last, Hlast).
  rewrite length_fmap, Hhead, Hlast'. clear Htl Hw Hseq. subst hd tl.
  pose proof Hc as (Hd' & _).
  split; simpl; intros ->.
  - eexists. split.
    { apply (advanceToNext_wrap _ _ _ _ _ _ _ _ cs (length cs - 1) rl tl_ r0 t0);
        try done. apply lookup_ge_None. lia. }
    split; [done|]. split.
    + rewrite (activeIndex_cells _ cs) by done. simpl.
      by rewrite (positionFrom_cell _ _ _ _ _ _ _ Hd H0).
    + by rewrite (sequence_cells _ cs).
  - eexists. split.
    { by apply (rewindToPrevious_wrap _ _ _ _ _ _ _ _ cs r0 t0 rl tl_). }
    split; [done|]. split.
    + rewrite (activeIndex_cells _ cs) by done. simpl.
      by rewrite (positionFrom_cell _ _ _ _ _ _ _ Hd Hl).
    + by rewrite (sequence_cells _ cs).
Qed.

(** ** Size *)

Lemma ends_in_mono {A} (P Q : World -> Prop) (o : outcome A) :
  (forall w, P w -> Q w) -> ends_in P o -> ends_in Q o.
Proof. destruct o; simpl; auto. Qed.

(** C10: in every world a run can reach, whatever state file the first
    process found, every public call comes back (it returns or raises, it
    does not loop), and in the world it leaves [getSize] is the number of
    nodes met from the head. *)
Theorem getSize_counts_nodes (f0 : stateFile) (c : call) (w : World) :
  reachable_from f0 w ->
  ends_in (fun w' => exists n, getSize w' = Return n w' /\ nodeCount w' = Some n) (exec c w).
Proof.
  intros Hreach. apply reachable_from_well_formed in Hreach.
  eapply ends_in_mono; [|by apply exec_well_formed].
  intros w' ((cs & Hc) & _). exists (queueSize (self w')). split; [done|].
  rewrite (nodeCount_cells _ cs) by done. f_equal. by destruct Hc as (_ & _ & ->).
Qed.

(** ** Shuffle *)

(** C3: with the active node at position [k] of N > 1 tracks and shuffle
    off, [shuffleQueue] returns for every list of random draws; afterwards
    the first [k] tracks are the same in the same order, the track at
    position [k] is the same and is the active one, and the tracks behind it
    are a permutation of those that were behind it. *)
Theorem shuffle_preserves_history (draws : list nat) (w : World) (ts : list Track) (k : nat) :
  well_formed w ->
  sequence w = Some ts ->
  activeIndex w = Some (Z.of_nat k) ->
  1 < length ts ->
  shuffleEnabled (self w) = false ->
  exists w' ts' t,
    shuffleQueue draws w = Return tt w'
    /\ sequence w' = Some ts'
    /\ take k ts' = take k ts
    /\ ts !! k = Some t /\ ts' !! k = Some t
    /\ getCurrentTrack w = Return (Some t) w
    /\ getCurrentTrack w' = Return (Some t) w'
    /\ activeIndex w' = Some (Z.of_nat k)
    /\ drop (S k) ts' ≡ₚ drop (S k) ts
    /\ shuffleEnabled (self w') = true.
Proof.
  intros Hw Hseq Hidx Hlen Hsh.
  destruct (cells_of_sequence w ts Hw Hseq) as (cs & Hc & <-).
  rewrite (activeIndex_cells _ cs Hc) in Hidx. injection Hidx as Hidx.
  destruct (positionFrom_inv 0 _ _ k ltac:(lia) Hidx) as (r & Hac & Hr).
  destruct (lookup_fst_cell _ _ _ Hr) as [t Hk].
  destruct w as [h [hd tl ac sz sh rp pl og] f]. unfold cells in Hc.
  simpl in Hc, Hac, Hsh. subst ac sh. pose proof Hc as (Hd & _ & Hsz).
  rewrite length_fmap in Hlen.
  destruct (shuffleQueue_at draws h hd tl sz rp pl og f cs k r t Hc ltac:(lia) Hk)
    as (h' & hd' & tl' & r' & cs' & Hrun & Hl' & Hts & Hk' & _).
  pose proof Hl' as (Hd' & _).
  assert (k < length cs.*2) as Hlt.
  { rewrite length_fmap. by eapply lookup_lt_Some. }
  assert (length (take k cs.*2) = k) as Htk by (rewrite length_take_le; lia).
  eexists _, cs'.*2, t. split; [exact Hrun|].
  split; [by rewrite (sequence_cells _ cs')|].
  split; [by rewrite Hts, take_app_length'|].
  split; [by rewrite list_lookup_fmap, Hk|].
  split; [by rewrite list_lookup_fmap, Hk'|].
  split.
  { apply activeTrackOrNone_run. simpl. eexists. split; [by eapply dlist_lookup|done]. }
  split.
  { apply activeTrackOrNone_run. simpl. eexists. split; [by eapply dlist_lookup|done]. }
  split.
  { rewrite (activeIndex_cells _ cs') by done. simpl.
    by rewrite (positionFrom_cell _ _ _ _ _ _ _ Hd' Hk'). }
  split; [|done].
  rewrite Hts. rewrite (app_assoc _ [t]).
  rewrite drop_app_length'; [apply shuffle_Permutation|].
  rewrite length_app. simpl. lia.
Qed.

Lemma all_found (og ts : list Track) :
  (forall t, t ∈ ts -> t ∈ og) -> filter (fun t => foundIn og t = false) ts = [].
Proof.
  intros Hin. induction ts as [|t ts IH]; [done|].
  rewrite filter_cons. rewrite decide_False.
  - apply IH. intros t' Ht'. apply Hin. by right.
  - assert (foundIn og t = true) as ->; [|done].
    apply existsb_exists. exists t. split; [|apply eq_refl_track].
    apply list_elem_of_In, Hin. by left.
Qed.

Lemma find_by_key (cs : list (ref * Track)) (t : Track) k c :
  NoDup (key <$> cs.*2) -> cs !! k = Some c -> c.2 = t ->
  list_find (fun c => __eq__ c.2 t = true) cs = Some (k, c).
Proof.
  intros Hnd Hk Ht. apply list_find_Some. split; [done|]. split.
  - rewrite Ht. apply eq_refl_track.
  - intros j c' Hj Hlt Heq. apply eq_key in Heq.
    assert (j = k); [|lia].
    eapply NoDup_lookup; [exact Hnd| |].
    + by rewrite !list_lookup_fmap, Hj.
    + rewrite !list_lookup_fmap, Hk. simpl. by rewrite Ht, Heq.
Qed.

(** C4: in a reachable world with a non-empty queue and shuffle off,
    [shuffleQueue] followed at once by [restoreOriginalOrder] returns, for
    every list of random draws, to the very sequence of tracks there was,
    with the same track active at the same position. *)
Theorem shuffle_then_restore (draws : list nat) (w : World) (ts : list Track) :
  reachable w ->
  shuffleEnabled (self w) = false ->
  sequence w = Some ts ->
  ts <> [] ->
  exists w1 w2 t,
    shuffleQueue draws w = Return tt w1
    /\ restoreOriginalOrder w1 = Return tt w2
    /\ sequence w2 = Some ts
    /\ getCurrentTrack w = Return (Some t) w
    /\ getCurrentTrack w2 = Return (Some t) w2
    /\ activeIndex w2 = activeIndex w
    /\ shuffleEnabled (self w2) = false.
Proof.
  intros Hreach Hsh Hseq Hne.
  pose proof (reachable_from_well_formed _ _ Hreach) as Hw.
  destruct (reachable_consistent _ Hreach) as (cs & Hc & Hac & Hct & _).
  rewrite (sequence_cells _ cs Hc) in Hseq. injection Hseq as <-.
  destruct w as [h [hd tl ac sz sh rp pl og] f]. unfold cells in Hc.
  simpl in Hc, Hac, Hct, Hsh. subst sh. destruct Hct as (Hnd & ->).
  pose proof Hc as (Hd & _ & Hsz).
  destruct Hac as [->|(r & -> & Hr)]; [done|].
  apply list_elem_of_lookup in Hr as [k Hr].
  destruct (lookup_fst_cell _ _ _ Hr) as [t Hk].
  assert (getCurrentTrack (mkWorld h (mkQueue hd tl (Some r) sz false rp pl cs.*2) f) =
          Return (Some t) (mkWorld h (mkQueue hd tl (Some r) sz false rp pl cs.*2) f)) as Hcur.
  { apply activeTrackOrNone_run. simpl. eexists. split; [by eapply dlist_lookup|done]. }
  destruct (decide (sz <= 1)) as [Hsmall|Hbig].
  { eexists _, _, t. split; [by apply shuffleQueue_small|].
    split; [reflexivity|]. split; [by rewrite (sequence_cells _ cs)|]. done. }
  destruct (shuffleQueue_at draws h hd tl sz rp pl cs.*2 f cs k r t Hc ltac:(lia) Hk)
    as (h1 & hd1 & tl1 & r1 & cs1 & Hrun1 & Hl1 & Hts1 & Hk1 & _).
  assert ((length cs.*2 =? 0) = false) as Hnz.
  { apply Nat.eqb_neq. rewrite length_fmap. lia. }
  rewrite Hnz in Hrun1. pose proof Hl1 as (Hd1 & _).
  assert (cs.*2 !! k = Some t) as Hkt by by rewrite list_lookup_fmap, Hk.
  destruct (restoreOriginalOrder_spec h1 hd1 tl1 (Some r1) (length cs1) rp pl cs.*2
              (Json (snapshot cs1.*2 (Z.of_nat k) true rp pl cs.*2)) cs1 (Some t) Hl1)
    as (h2 & hd2 & tl2 & ac2 & cs2 & Hrun2 & Hl2 & Hts2 & Hac2 & _).
  { eexists. split; [by eapply dlist_lookup|done]. }
  assert (filter (fun t => foundIn cs.*2 t = false) cs1.*2 = []) as Hnone.
  { apply all_found. intros t' Ht'. rewrite Hts1 in Ht'.
    rewrite shuffle_Permutation in Ht'. simpl in Ht'.
    by rewrite take_drop_middle in Ht'. }
  cbv zeta in Hrun2, Hts2. rewrite Hnone, !app_nil_r in Hrun2. rewrite Hnone, app_nil_r in Hts2.
  pose proof Hl2 as (Hd2 & _).
  pose proof (f_equal length Hts2) as Hlen2. rewrite !length_fmap in Hlen2.
  destruct (lookup_lt_is_Some_2 cs2 k) as [c2 Hk2].
  { rewrite Hlen2. by eapply lookup_lt_Some. }
  assert (c2.2 = t) as Hc2.
  { assert (cs2.*2 !! k = Some t) as H by by rewrite Hts2.
    rewrite list_lookup_fmap, Hk2 in H. by injection H. }
  rewrite (find_by_key cs2 t k c2) in Hac2; [|by rewrite Hts2|done|done].
  simpl in Hac2. subst ac2.
  assert (cs2 !! k = Some (c2.1, t)) as Hk2' by (rewrite <-Hc2; by destruct c2).
  eexists _, _, t. split; [exact Hrun1|]. split; [exact Hrun2|].
  split; [by rewrite (sequence_cells _ cs2), Hts2|].
  split; [exact Hcur|]. split.
  { apply activeTrackOrNone_run. simpl. eexists. split; [by eapply dlist_lookup|done]. }
  split; [|done].
  rewrite (activeIndex_cells _ cs2), (activeIndex_cells _ cs) by done. simpl.
  by rewrite (positionFrom_cell _ _ _ _ _ _ _ Hd2 Hk2'), (positionFrom_cell _ _ _ _ _ _ _ Hd Hk).
Qed.

(** ** Persistence *)

(** C2: in every reachable world [saveQueueState] returns, and
    [loadQueueState] run on the file it wrote, in the same process or in any
    other, returns true and rebuilds a queue with the same tracks in the
    same order, the same active index, the same three flags and the same
    [originalSequence]. *)
Theorem persist_then_restore (w : World) :
  reachable w ->
  exists w1 ts idx,
    saveQueueState w = Return tt w1
    /\ sequence w = Some ts
    /\ activeIndex w = Some idx
    /\ forall wt, file wt = file w1 ->
         exists w2,
           loadQueueState wt = Return true w2
           /\ sequence w2 = Some ts
           /\ activeIndex w2 = Some idx
           /\ shuffleEnabled (self w2) = shuffleEnabled (self w)
           /\ repeatEnabled (self w2) = repeatEnabled (self w)
           /\ playbackActive (self w2) = playbackActive (self w)
           /\ originalSequence (self w2) = originalSequence (self w).
Proof.
  intros Hreach.
  destruct (reachable_consistent _ Hreach) as (cs & Hc & Hac & Hct & _).
  destruct w as [h [hd tl ac sz sh rp pl og] f]. unfold cells in Hc.
  simpl in Hc, Hac, Hct. pose proof Hc as (Hd & _).
  eexists _, cs.*2, (positionFrom 0 ac cs.*1).
  split; [by apply (saveQueueState_spec _ _ _ _ _ _ _ _ _ _ cs)|].
  split; [by rewrite (sequence_cells _ cs)|].
  split; [by rewrite (activeIndex_cells _ cs)|].
  intros [ht [hdt tlt act szt sht rpt plt ogt] ft] Hft. simpl in Hft. subst ft.
  destruct (loadQueueState_snapshot ht hdt tlt act szt sht rpt plt ogt
              cs.*2 (positionFrom 0 ac cs.*1) sh rp pl og)
    as (h2 & hd2 & tl2 & cs2 & Hrun & Hl2 & Hts2 & _).
  pose proof Hl2 as (Hd2 & _).
  eexists. split; [exact Hrun|].
  split; [by rewrite (sequence_cells _ cs2), Hts2|].
  split; [|done].
  rewrite (activeIndex_cells _ cs2) by done. simpl. f_equal.
  destruct Hac as [->|(r & -> & Hr)].
  - simpl. destruct cs2; [done|]. done.
  - destruct (positionFrom_present 0 r cs.*1 Hr) as (k & Hk & -> & Hlt); [lia|].
    assert ((0 <=? 0 + Z.of_nat k)%Z = true) as -> by lia.
    replace (Z.to_nat (0 + Z.of_nat k)) with k by lia.
    pose proof (f_equal length Hts2) as Hlen2. rewrite !length_fmap in Hlen2.
    rewrite length_fmap in Hlt.
    destruct (lookup_lt_is_Some_2 cs2 k) as [[r2 t2] Hk2]; [lia|].
    rewrite list_lookup_fmap, Hk2. simpl.
    rewrite (positionFrom_cell _ _ _ _ _ _ _ Hd2 Hk2). lia.
Qed.

Lemma bind_inv {A B} (m : M A) (k : A -> M B) w b w' :
  bind m k w = Return b w' -> exists a w1, m w = Return a w1 /\ k a w1 = Return b w'.
Proof. unfold bind. destruct (m w) as [a w1| |]; [eauto|done|done]. Qed.






(** ** Failed restore *)



(** What the amended claim leaves open.  A state file that has its track
    list but not the rest makes [loadQueueState] fail after the list has
    been rebuilt: it returns false, and the queue of the new process then
    has one node and no active node; nothing can be played from it, and a
    track added next does not become active either. *)
Remark loadQueueState_fails_half_loaded :
  loadQueueState (startup truncatedFile) = Return false halfLoaded
  /\ getSize halfLoaded = Return 1 halfLoaded
  /\ sequence halfLoaded = Some [trackA]
  /\ activeNode (self halfLoaded) = None
  /\ getCurrentTrack halfLoaded = Return None halfLoaded
  /\ advanceToNext halfLoaded = Return None halfLoaded
  /\ addTrack trackB halfLoaded = Return true halfLoadedPlusB
  /\ sequence halfLoadedPlusB = Some [trackA; trackB]
  /\ getCurrentTrack halfLoadedPlusB = Return None halfLoadedPlusB.
Proof. split_and!; vm_compute; reflexivity. Qed.

(** And a queue that was in use is not safe after a failed restore either.
    On a state file that holds the empty JSON object [loadQueueState] has
    cleared the head, the tail and the size when the first subscript
    raises, and the active node is still the node that is no longer in
    the queue; with repeat on, [advanceToNext] and [rewindToPrevious] then
    raise [AttributeError]. *)
Remark failed_restore_can_break_navigation :
  well_formed queueA_edited
  /\ repeatEnabled (self queueA_edited) = true
  /\ loadQueueState queueA_edited = Return false queueA_cleared
  /\ sequence queueA_cleared = Some []
  /\ activeNode (self queueA_cleared) = Some 0
  /\ (exists w, advanceToNext queueA_cleared = Raise AttributeError w)
  /\ (exists w, rewindToPrevious queueA_cleared = Raise AttributeError w).
Proof.
  split.
  { split; [exists [(0, trackA)]; by vm_compute|].
    split; [|vm_compute; lia].
    intros r n Hr. vm_compute in Hr. destruct r as [|r]; simplify_eq; vm_compute; lia. }
  split_and!; try (vm_compute; reflexivity); eexists; vm_compute; reflexivity.
Qed.

(** ** The theorems at work on a small run *)

Lemma queueABC_reachable : reachable queueABC.
Proof.
  eapply reachable_step; [apply reachable_startup|].
  apply (step_return (CallLoadTracks [trackA; trackB; trackC])). vm_compute. reflexivity.
Qed.

Lemma queueABC_atB_reachable : reachable queueABC_atB.
Proof.
  eapply reachable_step; [apply queueABC_reachable|].
  apply (step_return CallAdvanceToNext). vm_compute. reflexivity.
Qed.

Lemma queueABC_atC_repeat_reachable : reachable queueABC_atC_repeat.
Proof.
  eapply reachable_step; [eapply reachable_step; [apply queueABC_atB_reachable|]|].
  - apply (step_return CallAdvanceToNext queueABC_atB queueABC_atC). vm_compute. reflexivity.
  - apply (step_return CallToggleRepeat). vm_compute. reflexivity.
Qed.

Lemma queueABC_repeat_reachable : reachable queueABC_repeat.
Proof.
  eapply reachable_step; [apply queueABC_reachable|].
  apply (step_return CallToggleRepeat). vm_compute. reflexivity.
Qed.

Lemma queueABCD_atB_reachable : reachable queueABCD_atB.
Proof.
  eapply reachable_step; [eapply reachable_step; [apply reachable_startup|]|].
  - apply (step_return (CallLoadTracks [trackA; trackB; trackC; trackD]) _ queueABCD).
    vm_compute. reflexivity.
  - apply (step_return CallAdvanceToNext). vm_compute. reflexivity.
Qed.

Lemma persist_then_restore_witness :
  reachable queueABC_atB
  /\ exists w1 ts idx,
       saveQueueState queueABC_atB = Return tt w1
       /\ sequence queueABC_atB = Some ts
       /\ activeIndex queueABC_atB = Some idx
       /\ forall wt, file wt = file w1 ->
            exists w2,
              loadQueueState wt = Return true w2
              /\ sequence w2 = Some ts
              /\ activeIndex w2 = Some idx
              /\ shuffleEnabled (self w2) = shuffleEnabled (self queueABC_atB)
              /\ repeatEnabled (self w2) = repeatEnabled (self queueABC_atB)
              /\ playbackActive (self w2) = playbackActive (self queueABC_atB)
              /\ originalSequence (self w2) = originalSequence (self queueABC_atB).
Proof.
  split; [exact queueABC_atB_reachable|].
  exact (persist_then_restore queueABC_atB queueABC_atB_reachable).
Defined.

Lemma shuffle_preserves_history_witness :
  well_formed queueABCD_atB
  /\ sequence queueABCD_atB = Some [trackA; trackB; trackC; trackD]
  /\ activeIndex queueABCD_atB = Some (Z.of_nat 1)
  /\ 1 < length [trackA; trackB; trackC; trackD]
  /\ shuffleEnabled (self queueABCD_atB) = false
  /\ exists w' ts' t,
       shuffleQueue [0] queueABCD_atB = Return tt w'
       /\ sequence w' = Some ts'
       /\ take 1 ts' = take 1 [trackA; trackB; trackC; trackD]
       /\ [trackA; trackB; trackC; trackD] !! 1 = Some t /\ ts' !! 1 = Some t
       /\ getCurrentTrack queueABCD_atB = Return (Some t) queueABCD_atB
       /\ getCurrentTrack w' = Return (Some t) w'
       /\ activeIndex w' = Some (Z.of_nat 1)
       /\ drop 2 ts' ≡ₚ drop 2 [trackA; trackB; trackC; trackD]
       /\ shuffleEnabled (self w') = true.
Proof.
  assert (well_formed queueABCD_atB) as Hw
    by exact (reachable_from_well_formed _ _ queueABCD_atB_reachable).
  assert (sequence queueABCD_atB = Some [trackA; trackB; trackC; trackD]) as Hseq
    by (vm_compute; reflexivity).
  assert (activeIndex queueABCD_atB = Some (Z.of_nat 1)) as Hidx
    by (vm_compute; reflexivity).
  assert (1 < length [trackA; trackB; trackC; trackD]) as Hlen by (simpl; lia).
  assert (shuffleEnabled (self queueABCD_atB) = false) as Hsh by reflexivity.
  split; [exact Hw|]. split; [exact Hseq|]. split; [exact Hidx|].
  split; [exact Hlen|]. split; [exact Hsh|].
  exact (shuffle_preserves_history [0] queueABCD_atB _ 1 Hw Hseq Hidx Hlen Hsh).
Defined.

Lemma shuffle_then_restore_witness :
  reachable queueABCD_atB
  /\ shuffleEnabled (self queueABCD_atB) = false
  /\ sequence queueABCD_atB = Some [trackA; trackB; trackC; trackD]
  /\ [trackA; trackB; trackC; trackD] <> []
  /\ exists w1 w2 t,
       shuffleQueue [0] queueABCD_atB = Return tt w1
       /\ restoreOriginalOrder w1 = Return tt w2
       /\ sequence w2 = Some [trackA; trackB; trackC; trackD]
       /\ getCurrentTrack queueABCD_atB = Return (Some t) queueABCD_atB
       /\ getCurrentTrack w2 = Return (Some t) w2
       /\ activeIndex w2 = activeIndex queueABCD_atB
       /\ shuffleEnabled (self w2) = false.
Proof.
  assert (sequence queueABCD_atB = Some [trackA; trackB; trackC; trackD]) as Hseq
    by (vm_compute; reflexivity).
  assert (shuffleEnabled (self queueABCD_atB) = false) as Hsh by reflexivity.
  assert ([trackA; trackB; trackC; trackD] <> []) as Hne by discriminate.
  split; [exact queueABCD_atB_reachable|]. split; [exact Hsh|]. split; [exact Hseq|].
  split; [exact Hne|].
  exact (shuffle_then_restore [0] queueABCD_atB _ queueABCD_atB_reachable Hsh Hseq Hne).
Defined.


Lemma advance_reaches_tail_then_stops_witness :
  well_formed queueABC
  /\ sequence queueABC = Some [trackA; trackB; trackC]
  /\ 1 < length [trackA; trackB; trackC]
  /\ repeatEnabled (self queueABC) = false
  /\ activeNode (self queueABC) = headNode (self queueABC)
  /\ exists w1 w2,
       advanceTimes 2 queueABC = Return [Some trackB; Some trackC] w1
       /\ activeNode (self w1) = tailNode (self w1)
       /\ activeIndex w1 = Some 2%Z
       /\ advanceToNext w1 = Return None w2
       /\ playbackActive (self w2) = false
       /\ activeNode (self w2) = tailNode (self w2)
       /\ activeIndex w2 = Some 2%Z
       /\ sequence w2 = Some [trackA; trackB; trackC].
Proof.
  assert (well_formed queueABC) as Hw
    by exact (reachable_from_well_formed _ _ queueABC_reachable).
  assert (sequence queueABC = Some [trackA; trackB; trackC]) as Hseq
    by (vm_compute; reflexivity).
  assert (1 < length [trackA; trackB; trackC]) as Hlen by (simpl; lia).
  assert (repeatEnabled (self queueABC) = false) as Hrp by reflexivity.
  assert (activeNode (self queueABC) = headNode (self queueABC)) as Hact by reflexivity.
  split; [exact Hw|]. split; [exact Hseq|]. split; [exact Hlen|]. split; [exact Hrp|].
  split; [exact Hact|].
  exact (advance_reaches_tail_then_stops queueABC _ Hw Hseq Hlen Hrp Hact).
Defined.

Lemma repeat_wraps_around_witness :
  (well_formed queueABC_atC_repeat
   /\ sequence queueABC_atC_repeat = Some [trackA; trackB; trackC]
   /\ [trackA; trackB; trackC] <> []
   /\ repeatEnabled (self queueABC_atC_repeat) = true
   /\ activeNode (self queueABC_atC_repeat) = tailNode (self queueABC_atC_repeat)
   /\ exists w', advanceToNext queueABC_atC_repeat = Return (Some trackA) w'
        /\ activeNode (self w') = headNode (self w')
        /\ activeIndex w' = Some 0%Z
        /\ sequence w' = Some [trackA; trackB; trackC])
  /\ (well_formed queueABC_repeat
      /\ sequence queueABC_repeat = Some [trackA; trackB; trackC]
      /\ repeatEnabled (self queueABC_repeat) = true
      /\ activeNode (self queueABC_repeat) = headNode (self queueABC_repeat)
      /\ exists w', rewindToPrevious queueABC_repeat = Return (Some trackC) w'
           /\ activeNode (self w') = tailNode (self w')
           /\ activeIndex w' = Some 2%Z
           /\ sequence w' = Some [trackA; trackB; trackC]).
Proof.
  assert ([trackA; trackB; trackC] <> []) as Hne by discriminate.
  split.
  - assert (well_formed queueABC_atC_repeat) as Hw
      by exact (reachable_from_well_formed _ _ queueABC_atC_repeat_reachable).
    assert (sequence queueABC_atC_repeat = Some [trackA; trackB; trackC]) as Hseq
      by (vm_compute; reflexivity).
    assert (repeatEnabled (self queueABC_atC_repeat) = true) as Hrp by reflexivity.
    assert (activeNode (self queueABC_atC_repeat) = tailNode (self queueABC_atC_repeat))
      as Hact by reflexivity.
    split; [exact Hw|]. split; [exact Hseq|]. split; [exact Hne|]. split; [exact Hrp|].
    split; [exact Hact|].
    exact (proj1 (repeat_wraps_around queueABC_atC_repeat _ Hw Hseq Hne Hrp) Hact).
  - assert (well_formed queueABC_repeat) as Hw
      by exact (reachable_from_well_formed _ _ queueABC_repeat_reachable).
    assert (sequence queueABC_repeat = Some [trackA; trackB; trackC]) as Hseq
      by (vm_compute; reflexivity).
    assert (repeatEnabled (self queueABC_repeat) = true) as Hrp by reflexivity.
    assert (activeNode (self queueABC_repeat) = headNode (self queueABC_repeat))
      as Hact by reflexivity.
    split; [exact Hw|]. split; [exact Hseq|]. split; [exact Hrp|]. split; [exact Hact|].
    exact (proj2 (repeat_wraps_around queueABC_repeat _ Hw Hseq Hne Hrp) Hact).
Defined.

Lemma getSize_counts_nodes_witness :
  reachable_from NoFile queueABC_atB
  /\ ends_in (fun w' => exists n, getSize w' = Return n w' /\ nodeCount w' = Some n)
       (exec (CallShuffleQueue [1; 0]) queueABC_atB).
Proof.
  split; [exact queueABC_atB_reachable|].
  exact (getSize_counts_nodes NoFile (CallShuffleQueue [1; 0]) queueABC_atB
           queueABC_atB_reachable).
Defined.


(** * The rest of the program

    What the statements above leave out of [src/Queue.py] and
    [src/Main.py], then the tracks, the albums, the library and the
    playlists. *)

(** ** Queue.py and the handlers of Main.py *)

Section PageNumber.

Lemma positionOfActive_dlist h prev first cs fuel active pos :
  dlist h prev first cs -> length cs <= fuel ->
  positionOfActive fuel h first active pos =
    Some (let p := positionFrom (Z.of_nat pos) active cs.*1 in
          if (p <? 0)%Z then pos + length cs else Z.to_nat p).
Proof.
  revert prev first fuel pos. induction cs as [|c cs IH]; intros prev first fuel pos Hd Hf.
  - simpl in Hd. subst first. destruct fuel; simpl; f_equal; lia.
  - simpl in Hd. destruct Hd as (-> & Hc & Hrest).
    destruct fuel as [|fuel]; [simpl in Hf; lia|].
    cbn [positionOfActive fmap list_fmap positionFrom length]. cbv zeta.
    destruct (decide (Some c.1 = active)) as [_|Hne].
    + destruct (Z.ltb_spec (Z.of_nat pos) 0); f_equal; lia.
    + rewrite Hc. cbn [nextNode].
      rewrite (IH _ _ fuel (pos + 1) Hrest) by (simpl in Hf; lia).
      replace (Z.of_nat (pos + 1)) with (Z.of_nat pos + 1)%Z by lia.
      f_equal. cbv zeta. destruct (_ <? 0)%Z; lia.
Qed.

End PageNumber.

Section MoreQueue.

Implicit Types (h : heap) (cs : list (ref * Track)) (w : World).

Lemma getCurrentPageNumber_cells h hd tl ac sz sh rp pl og f cs :
  dlist h None hd cs ->
  getCurrentPageNumber (mkWorld h (mkQueue hd tl ac sz sh rp pl og) f) =
    Return (match ac with
            | None => 1
            | Some _ =>
                let p := positionFrom 0 ac cs.*1 in
                (if (p <? 0)%Z then length cs else Z.to_nat p) / 10 + 1
            end)
      (mkWorld h (mkQueue hd tl ac sz sh rp pl og) f).
Proof.
  intros Hd. pose proof (dlist_length _ _ _ _ Hd) as Hlen.
  unfold getCurrentPageNumber. prim. destruct ac as [a|]; [|done].
  prim.
  looping ltac:(eapply countNodes_dlist; [exact Hd|lia]).
  looping ltac:(eapply positionOfActive_dlist; [exact Hd|lia]).
  unfold ret. f_equal. change (Z.of_nat 0) with 0%Z. cbv zeta. rewrite !Nat.add_0_l.
  set (p := positionFrom 0 (Some a) cs.*1).
  assert ((if (p <? 0)%Z then length cs else Z.to_nat p) <= length cs) as Hle.
  { destruct (positionFrom_range 0 (Some a) cs.*1) as [Hr|Hr]; fold p in Hr.
    - rewrite Hr. simpl. lia.
    - rewrite length_fmap in Hr. destruct (Z.ltb_spec p 0); lia. }
  assert (forall a b, a <= b -> (b / 10 + 1 <? a / 10 + 1) = false) as Hdiv.
  { intros x y Hxy. apply Nat.ltb_ge. pose proof (Nat.Div0.div_le_mono x y 10 Hxy). lia. }
  by rewrite Hdiv by exact Hle.
Qed.

(** X1: in a well-formed queue [getCurrentPageNumber] returns and changes
    nothing.  The page lies between 1 and [size // 10 + 1]; when a track is
    active at the zero-based position [idx] the page is [idx // 10 + 1],
    pages holding ten tracks, so that the cap on [totalPages] never cuts
    it; and without an active track the page is 1. *)
Theorem current_page_number (w : World) (ts : list Track) (idx : Z) :
  well_formed w -> sequence w = Some ts -> activeIndex w = Some idx ->
  exists page,
    getCurrentPageNumber w = Return page w
    /\ 1 <= page <= length ts / 10 + 1
    /\ ((0 <= idx)%Z -> page = Z.to_nat idx / 10 + 1)
    /\ (activeNode (self w) = None -> page = 1).
Proof.
  intros Hw Hseq Hidx.
  destruct (cells_of_sequence w ts Hw Hseq) as (cs & Hc & <-).
  rewrite (activeIndex_cells _ cs Hc) in Hidx. injection Hidx as Hidx.
  destruct w as [h [hd tl ac sz sh rp pl og] f]. unfold cells in Hc.
  simpl in Hc, Hidx. destruct Hc as (Hd & _).
  rewrite (getCurrentPageNumber_cells _ _ _ _ _ _ _ _ _ _ cs Hd).
  eexists. split; [done|]. rewrite length_fmap. cbn [self activeNode].
  destruct ac as [a|].
  - cbv zeta. subst idx. set (p := positionFrom 0 (Some a) cs.*1).
    destruct (positionFrom_range 0 (Some a) cs.*1) as [Hr|Hr]; fold p in Hr;
      destruct (Z.ltb_spec p 0) as [Hneg|Hpos]; try lia.
    + split_and!; [lia|lia|lia|done].
    + rewrite length_fmap in Hr.
      assert (Z.to_nat p <= length cs) as Hle by lia.
      pose proof (Nat.Div0.div_le_mono _ _ 10 Hle).
      split_and!; [lia|lia|done|done].
  - assert (idx = (-1)%Z) as ->.
    { rewrite <-Hidx. by apply positionFrom_absent. }
    split_and!; [lia|lia|lia|done].
Qed.

Lemma cell_of_track cs k (t : Track) :
  cs.*2 !! k = Some t -> exists r, cs !! k = Some (r, t).
Proof.
  rewrite list_lookup_fmap. destruct (cs !! k) as [[r t']|]; [|done].
  intros [= <-]. eauto.
Qed.

(** X2: when the active track is not the last one, [advanceToNext]
    returns the next track and [rewindToPrevious] right after it returns
    the track that was active before; the queue is then as it was before
    the two calls: the same nodes, the same fields, the same active
    position. *)
Theorem advance_then_rewind (w : World) (ts : list Track) (k : nat) (t' : Track) :
  well_formed w -> sequence w = Some ts -> activeIndex w = Some (Z.of_nat k) ->
  ts !! S k = Some t' ->
  exists t w1 w2,
    ts !! k = Some t
    /\ advanceToNext w = Return (Some t') w1
    /\ activeIndex w1 = Some (Z.of_nat (S k))
    /\ rewindToPrevious w1 = Return (Some t) w2
    /\ store w2 = store w /\ self w2 = self w
    /\ activeIndex w2 = Some (Z.of_nat k).
Proof.
  intros Hw Hseq Hidx Hk'.
  destruct (cells_of_sequence w ts Hw Hseq) as (cs & Hc & <-).
  rewrite (activeIndex_cells _ cs Hc) in Hidx. injection Hidx as Hidx.
  destruct (positionFrom_inv 0 _ _ k ltac:(lia) Hidx) as (r & Hac & Hr).
  destruct (lookup_fst_cell _ _ _ Hr) as [t Hk].
  destruct (cell_of_track _ _ _ Hk') as [r' Hk1].
  destruct w as [h [hd tl ac sz sh rp pl og] f]. unfold cells in Hc.
  simpl in Hc, Hac. subst ac. pose proof Hc as (Hd & _).
  exists t. eexists _, _.
  split; [by rewrite list_lookup_fmap, Hk|].
  split; [by apply (advanceToNext_step _ _ _ _ _ _ _ _ _ cs k r t r' t')|].
  split.
  { rewrite (activeIndex_cells _ cs) by done. simpl.
    by rewrite (positionFrom_cell _ _ _ _ _ _ _ Hd Hk1). }
  split.
  { rewrite (rewindToPrevious_normal _ _ _ _ _ _ _ _ _ _ cs Hd).
    rewrite (dlist_lookup _ _ _ _ _ _ _ Hd Hk1). cbn [prevNode].
    rewrite Hr. unfold afterMove. rewrite (dlist_lookup _ _ _ _ _ _ _ Hd Hk). done. }
  split; [done|]. split; [done|].
  rewrite (activeIndex_cells _ cs) by done. simpl.
  by rewrite (positionFrom_cell _ _ _ _ _ _ _ Hd Hk).
Qed.

(** X3: with repeat off and the head active, [rewindToPrevious] does not
    report the start of the queue the way [advanceToNext] reports its end:
    it returns the track of the head, leaves the queue as it was (playback
    is not stopped) and writes the state file. *)
Theorem rewind_at_head_stays (w : World) (ts : list Track) :
  well_formed w -> sequence w = Some ts -> activeIndex w = Some 0%Z ->
  repeatEnabled (self w) = false ->
  exists t w',
    head ts = Some t
    /\ rewindToPrevious w = Return (Some t) w'
    /\ store w' = store w /\ self w' = self w
    /\ serialization w' = Some (file w').
Proof.
  intros Hw Hseq Hidx Hrp.
  destruct (cells_of_sequence w ts Hw Hseq) as (cs & Hc & <-).
  rewrite (activeIndex_cells _ cs Hc) in Hidx. injection Hidx as Hidx.
  destruct (positionFrom_inv 0 _ _ 0 ltac:(lia) Hidx) as (r & Hac & Hr).
  destruct (lookup_fst_cell _ _ _ Hr) as [t Hk].
  destruct w as [h [hd tl ac sz sh rp pl og] f]. unfold cells in Hc.
  simpl in Hc, Hac, Hrp. subst ac rp. pose proof Hc as (Hd & _).
  exists t. eexists.
  split; [destruct cs; simpl in *; by simplify_eq|].
  split.
  { rewrite (rewindToPrevious_normal _ _ _ _ _ _ _ _ _ _ cs Hd).
    rewrite (dlist_lookup _ _ _ _ _ _ _ Hd Hk). cbn [prevNode].
    unfold afterMove. rewrite (dlist_lookup _ _ _ _ _ _ _ Hd Hk). done. }
  split; [done|]. split; [done|]. by apply serialization_snapshot.
Qed.

Lemma active_cell h hd cs ac :
  dlist h None hd cs -> active_ok ac cs -> cs <> [] ->
  exists k r t, ac = Some r /\ cs !! k = Some (r, t)
                /\ positionFrom 0 ac cs.*1 = Z.of_nat k.
Proof.
  intros Hd [->|(r & -> & Hr)] Hne; [done|].
  apply list_elem_of_lookup in Hr as [k Hk].
  destruct (lookup_fst_cell _ _ _ Hk) as [t Hc].
  exists k, r, t. split; [done|]. split; [done|].
  by eapply positionFrom_cell.
Qed.

(** X4: in every reachable world with a queue that is not empty,
    [startPlayback] returns with playback on and the tracks as they were;
    the active position moves only when repeat is off and the last track
    is active, and then to the first track. *)
Theorem startPlayback_restarts_at_end (w : World) (ts : list Track) (idx : Z) :
  reachable w -> sequence w = Some ts -> ts <> [] -> activeIndex w = Some idx ->
  exists w',
    startPlayback w = Return tt w'
    /\ playbackActive (self w') = true
    /\ sequence w' = Some ts
    /\ activeIndex w' =
         Some (if negb (repeatEnabled (self w)) && (idx =? Z.of_nat (length ts) - 1)%Z
               then 0%Z else idx).
Proof.
  intros Hreach Hseq Hne Hidx.
  destruct (reachable_consistent _ Hreach) as (cs & Hc & Hac & _).
  rewrite (sequence_cells _ cs Hc) in Hseq. injection Hseq as <-.
  rewrite (activeIndex_cells _ cs Hc) in Hidx. injection Hidx as Hidx.
  destruct w as [h [hd tl ac sz sh rp pl og] f]. unfold cells in Hc.
  simpl in Hc, Hac, Hidx. pose proof Hc as (Hd & Htl & _).
  assert (cs <> []) as Hne' by (by destruct cs).
  destruct (active_cell h hd cs ac Hd Hac Hne') as (k & r & t & -> & Hk & Hp).
  rewrite Hp in Hidx. subst idx.
  rewrite (startPlayback_normal _ _ _ _ _ _ _ _ _ _ cs Hd). cbv zeta.
  eexists. split; [done|]. split; [done|].
  split; [by rewrite (sequence_cells _ cs)|].
  rewrite (activeIndex_cells _ cs) by done. cbn [self activeNode repeatEnabled].
  rewrite length_fmap. f_equal.
  assert (bool_decide (Some r = tl) = (Z.of_nat k =? Z.of_nat (length cs) - 1)%Z) as ->.
  { subst tl. rewrite last_lookup.
    assert (k < length cs) as Hlt by (by eapply lookup_lt_Some).
    destruct (Z.eqb_spec (Z.of_nat k) (Z.of_nat (length cs) - 1)) as [He|He].
    - apply bool_decide_eq_true. replace (pred (length cs.*1)) with k
        by (rewrite length_fmap; lia). by rewrite list_lookup_fmap, Hk.
    - apply bool_decide_eq_false. intros Heq. apply He.
      assert (k = pred (length cs.*1)) as ->; [|rewrite length_fmap; lia].
      eapply NoDup_lookup; [by eapply dlist_NoDup| |symmetry; exact Heq].
      by rewrite list_lookup_fmap, Hk. }
  destruct (negb rp && _); [|done].
  destruct (lookup_lt_is_Some_2 cs 0) as [[r0 t0] H0]; [destruct cs; [done|simpl; lia]|].
  assert (hd = Some r0) as ->.
  { rewrite (dlist_head _ _ _ _ Hd). destruct cs; simpl in *; [done|]. by simplify_eq. }
  by rewrite (positionFrom_cell _ _ _ _ _ _ _ Hd H0).
Qed.

(** X5: [startPlayback], [pausePlayback], [advanceToNext],
    [rewindToPrevious] and [toggleRepeat] never touch the content of the
    queue: the tracks and their order, the size, the remembered original
    order and the shuffle flag are after the call what they were before. *)
Theorem navigation_keeps_tracks (c : call) (w w' : World) :
  well_formed w -> navigates c = true -> exec c w = Return tt w' ->
  sequence w' = sequence w
  /\ queueSize (self w') = queueSize (self w)
  /\ originalSequence (self w') = originalSequence (self w)
  /\ shuffleEnabled (self w') = shuffleEnabled (self w).
Proof.
  intros Hw Hnav Hrun.
  destruct w as [h [hd tl ac sz sh rp pl og] f]. destruct Hw as ((cs & Hd & _) & _).
  simpl in Hd.
  destruct c; try discriminate Hnav; unfold exec in Hrun.
  - rewrite (startPlayback_normal _ _ _ _ _ _ _ _ _ _ cs Hd) in Hrun. by injection Hrun as <-.
  - rewrite (pausePlayback_normal _ _ _ _ _ _ _ _ _ _ cs Hd) in Hrun. by injection Hrun as <-.
  - apply bind_inv in Hrun as (r & w1 & Hrun & [= <-]).
    rewrite (advanceToNext_normal _ _ _ _ _ _ _ _ _ _ cs Hd) in Hrun.
    destruct ac as [a|]; [|by injection Hrun as _ <-].
    destruct (h !! a) as [n|]; [|done]. unfold afterMove in Hrun.
    destruct (nextNode n) as [nx|].
    + destruct (h !! nx); [|done]. by injection Hrun as _ <-.
    + destruct rp; [|by injection Hrun as _ <-].
      destruct hd as [x|]; [|done]. destruct (h !! x); [|done]. by injection Hrun as _ <-.
  - apply bind_inv in Hrun as (r & w1 & Hrun & [= <-]).
    rewrite (rewindToPrevious_normal _ _ _ _ _ _ _ _ _ _ cs Hd) in Hrun.
    destruct ac as [a|]; [|by injection Hrun as _ <-].
    destruct (h !! a) as [n|] eqn:Ha; [|done]. unfold afterMove in Hrun.
    destruct (prevNode n) as [pv|].
    + destruct (h !! pv); [|done]. by injection Hrun as _ <-.
    + destruct rp.
      * destruct tl as [x|]; [|done]. destruct (h !! x); [|done]. by injection Hrun as _ <-.
      * rewrite Ha in Hrun. by injection Hrun as _ <-.
  - apply bind_inv in Hrun as (r & w1 & Hrun & [= <-]).
    rewrite (toggleRepeat_normal _ _ _ _ _ _ _ _ _ _ cs Hd) in Hrun. by injection Hrun as _ <-.
Qed.

(** X6: in every world that public calls, exceptions and restarts reach
    from a first start without a state file, no two positions of the queue
    hold tracks that [Track.__eq__] takes for equal: the check of
    [addTrack] is kept by shuffling, by restoring and by reloading the
    state. *)
Theorem queue_never_holds_duplicates (w : World) (ts : list Track) :
  reachable w -> sequence w = Some ts ->
  forall i j a b, ts !! i = Some a -> ts !! j = Some b -> __eq__ a b = true -> i = j.
Proof.
  intros Hreach Hseq i j a b Hi Hj Heq.
  destruct (reachable_consistent _ Hreach) as (cs & Hc & _ & (Hnd & _) & _).
  rewrite (sequence_cells _ cs Hc) in Hseq. injection Hseq as <-.
  apply eq_key in Heq.
  eapply NoDup_lookup; [exact Hnd| |].
  - by rewrite list_lookup_fmap, Hi.
  - rewrite list_lookup_fmap, Hj. simpl. by rewrite Heq.
Qed.

(** X7: in every reachable world a queue that holds a track has an
    active one: the active node is one of the nodes of the queue and
    [getCurrentTrack] returns its track, never [None]. *)
Theorem nonempty_queue_has_current_track (w : World) (ts : list Track) :
  reachable w -> sequence w = Some ts -> ts <> [] ->
  exists k t,
    activeIndex w = Some (Z.of_nat k)
    /\ ts !! k = Some t
    /\ getCurrentTrack w = Return (Some t) w.
Proof.
  intros Hreach Hseq Hne.
  destruct (reachable_consistent _ Hreach) as (cs & Hc & Hac & _).
  rewrite (sequence_cells _ cs Hc) in Hseq. injection Hseq as <-.
  destruct w as [h [hd tl ac sz sh rp pl og] f]. unfold cells in Hc.
  simpl in Hc, Hac. pose proof Hc as (Hd & _).
  assert (cs <> []) as Hne' by (by destruct cs).
  destruct (active_cell h hd cs ac Hd Hac Hne') as (k & r & t & -> & Hk & Hp).
  exists k, t. split; [by rewrite (activeIndex_cells _ cs), <-Hp|].
  split; [by rewrite list_lookup_fmap, Hk|].
  apply activeTrackOrNone_run. simpl. eexists. split; [by eapply dlist_lookup|done].
Qed.

(** X8: in every reachable world with shuffle on and a queue that is not
    empty, [restoreOriginalOrder] returns with the remembered original
    order followed by the tracks of the queue that are not in it (those
    added while shuffled), in the order the queue had them; that list is
    also the new [originalSequence], shuffle is off, the current track is
    equal to the one before and the state file is written. *)
Theorem restore_puts_arrivals_last (w : World) (ts : list Track) :
  reachable w -> shuffleEnabled (self w) = true -> sequence w = Some ts -> ts <> [] ->
  let original := originalSequence (self w) in
  let restored := original ++ filter (fun t => foundIn original t = false) ts in
  exists w' t t',
    restoreOriginalOrder w = Return tt w'
    /\ sequence w' = Some restored
    /\ originalSequence (self w') = restored
    /\ shuffleEnabled (self w') = false
    /\ getCurrentTrack w = Return (Some t) w
    /\ getCurrentTrack w' = Return (Some t') w'
    /\ __eq__ t' t = true
    /\ serialization w' = Some (file w').
Proof.
  intros Hreach Hsh Hseq Hne original restored.
  destruct (reachable_consistent _ Hreach) as (cs & Hc & Hac & _).
  rewrite (sequence_cells _ cs Hc) in Hseq. injection Hseq as <-.
  destruct w as [h [hd tl ac sz sh rp pl og] f]. unfold cells in Hc.
  simpl in Hc, Hac, Hsh, original, restored. subst sh. pose proof Hc as (Hd & _).
  assert (cs <> []) as Hne' by (by destruct cs).
  destruct (active_cell h hd cs ac Hd Hac Hne') as (k & r & t & -> & Hk & Hp).
  destruct (restoreOriginalOrder_spec h hd tl (Some r) sz rp pl og f cs (Some t) Hc)
    as (h' & hd' & tl' & ac' & cs' & Hrun & Hl' & Hts & Hac' & _).
  { eexists. split; [by eapply dlist_lookup|done]. }
  cbv zeta in Hrun, Hts. fold original in Hrun, Hts. fold restored in Hrun, Hts.
  pose proof Hl' as (Hd' & _).
  assert (exists c, c ∈ cs' /\ __eq__ c.2 t = true) as (c0 & Hc0 & Heq0).
  { assert (exists u, u ∈ restored /\ __eq__ u t = true) as (u & Hu & Heq).
    { destruct (foundIn original t) eqn:Hf.
      - apply existsb_exists in Hf as (o & Ho & Heq). exists o.
        split; [|by rewrite eq_sym_track].
        apply elem_of_app. left. by apply list_elem_of_In.
      - exists t. split; [|apply eq_refl_track].
        apply elem_of_app. right. apply list_elem_of_filter. split; [done|].
        apply list_elem_of_fmap. exists (r, t). split; [done|].
        by eapply list_elem_of_lookup_2. }
    rewrite <-Hts in Hu. apply list_elem_of_fmap in Hu as (c & -> & Hc'). eauto. }
  destruct (list_find (fun c => __eq__ c.2 t = true) cs') as [[k' c']|] eqn:Efind; cycle 1.
  { apply list_find_None in Efind. rewrite Forall_forall in Efind.
    exfalso. by apply (Efind c0). }
  apply list_find_Some in Efind as (Hk' & Heq' & _). simpl in Hac'. subst ac'.
  eexists _, t, c'.2. split; [exact Hrun|].
  split; [rewrite (sequence_cells _ cs') by done; by rewrite Hts|].
  split; [done|]. split; [done|]. split.
  { apply activeTrackOrNone_run. simpl. eexists. split; [by eapply dlist_lookup|done]. }
  split.
  { apply activeTrackOrNone_run. simpl.
    assert (cs' !! k' = Some (c'.1, c'.2)) as Hk'' by (rewrite Hk'; by destruct c').
    eexists. split; [by eapply dlist_lookup|done]. }
  split; [done|]. by apply serialization_snapshot.
Qed.

(** X9: a new process that finds a state file of the shape
    [saveQueueState] writes (the six keys, and the four fields in every
    track entry) loads it without any check of what it holds: the queue
    holds the tracks of the file in their order, duplicates included, with
    the flags and the original order of the file; the current track is the
    one at [current_index], and there is none when the index is negative
    or beyond the list. *)
Theorem loadQueueState_takes_file_as_is (ts : list Track) (idx : Z) (sh rp pl : bool)
    (og : list Track) :
  exists w',
    loadQueueState (startup (Json (snapshot ts idx sh rp pl og))) = Return true w'
    /\ sequence w' = Some ts
    /\ getSize w' = Return (length ts) w'
    /\ getCurrentTrack w' =
         Return (if (0 <=? idx)%Z then ts !! Z.to_nat idx else None) w'
    /\ shuffleEnabled (self w') = sh
    /\ repeatEnabled (self w') = rp
    /\ playbackActive (self w') = pl
    /\ originalSequence (self w') = og.
Proof.
  destruct (loadQueueState_snapshot [] None None None 0 false false false [] ts idx sh rp pl og)
    as (h' & hd' & tl' & cs' & Hrun & Hl' & Hts & _).
  pose proof Hl' as (Hd' & _).
  eexists. split; [exact Hrun|].
  split; [by rewrite (sequence_cells _ cs'), Hts|].
  split; [unfold getSize, getq; simpl; by rewrite <-Hts, length_fmap|].
  split; [|done].
  apply activeTrackOrNone_run. simpl.
  destruct (0 <=? idx)%Z; [|done].
  rewrite <-Hts, !list_lookup_fmap.
  destruct (cs' !! Z.to_nat idx) as [[r t]|] eqn:Hk; [|done]. simpl.
  eexists. split; [by eapply dlist_lookup|done].
Qed.

Lemma forEach_addTrack_fresh ts : forall h hd tl ac sz sh rp pl og f cs,
  linked h hd tl sz cs -> NoDup (key <$> (cs.*2 ++ ts)) ->
  exists h' hd' tl' cs',
    forEach ts (fun track => addTrack track ;; ret tt)
      (mkWorld h (mkQueue hd tl ac sz sh rp pl og) f) =
      Return tt
        (mkWorld h' (mkQueue hd' tl'
                       (match cs, cs' with [], c :: _ => Some c.1 | _, _ => ac end)
                       (length (cs ++ cs')) sh rp pl (if sh then og else og ++ ts)) f)
    /\ linked h' hd' tl' (length (cs ++ cs')) (cs ++ cs')
    /\ cs'.*2 = ts
    /\ (closed h -> closed h').
Proof.
  induction ts as [|t ts IH]; intros h hd tl ac sz sh rp pl og f cs Hl Hnd.
  - exists h, hd, tl, []. pose proof Hl as (_ & _ & ->).
    rewrite !app_nil_r. split; [|done]. simpl. unfold ret. do 3 f_equal.
    + by destruct cs.
    + by destruct sh.
  - pose proof Hl as (Hd & _ & Hsz).
    assert (existsb (fun c => __eq__ c.2 t) cs = false) as Hfresh.
    { apply not_true_is_false. intros Hex. apply existsb_exists in Hex as (c & Hc & Heq).
      apply eq_key in Heq. rewrite fmap_app in Hnd. apply NoDup_app in Hnd as (_ & Hdis & _).
      apply (Hdis (key t)).
      - rewrite <-Heq. apply list_elem_of_fmap. exists c.2. split; [done|].
        apply list_elem_of_fmap. exists c. split; [done|]. by apply list_elem_of_In.
      - simpl. by left. }
    destruct (addTrack_fresh h hd tl ac sz sh rp pl og f cs t Hd Hfresh)
      as (h1 & hd1 & Hrun1 & Hl1 & Hcl1 & _).
    edestruct (IH h1 hd1 (Some (length h)) (match cs with [] => Some (length h) | _ => ac end)
                 (S (length cs)) sh rp pl (if sh then og else og ++ [t]) f
                 (cs ++ [(length h, t)]))
      as (h' & hd' & tl' & cs' & Hrun' & Hl' & Hts & Hcl').
    { done. }
    { replace ((cs ++ [(length h, t)]).*2 ++ ts) with (cs.*2 ++ t :: ts); [done|].
      rewrite (fmap_app snd). simpl. by rewrite <-app_assoc. }
    exists h', hd', tl', ((length h, t) :: cs').
    replace (cs ++ (length h, t) :: cs') with ((cs ++ [(length h, t)]) ++ cs')
      by (by rewrite <-app_assoc).
    split; [|split; [done|split; [simpl; by f_equal|auto]]].
    cbn [forEach]. rewrite bind_assoc. erewrite bind_run by exact Hrun1.
    unfold ret at 1. unfold bind at 1. rewrite Hrun'. do 3 f_equal.
    + destruct cs as [|c cs]; [|done]. simpl. by destruct cs'.
    + destruct sh; [done|]. by rewrite <-app_assoc.
Qed.

Lemma queueTracks_fresh (w : World) (ts : list Track) :
  NoDup (key <$> ts) ->
  exists w',
    queueTracks ts w = Return tt w'
    /\ sequence w' = Some ts
    /\ getSize w' = Return (length ts) w'
    /\ getCurrentTrack w' = Return (head ts) w'
    /\ activeIndex w' = Some (if ts is [] then (-1)%Z else 0%Z)
    /\ shuffleEnabled (self w') = false
    /\ repeatEnabled (self w') = false
    /\ playbackActive (self w') = false
    /\ originalSequence (self w') = ts
    /\ serialization w' = Some (file w').
Proof.
  intros Hnd. destruct w as [h q f].
  destruct (forEach_addTrack_fresh ts h None None None 0 false false false []
              (Json (snapshot [] (-1) false false false [])) [])
    as (h' & hd' & tl' & cs' & Hrun & Hl' & Hts & _); [done|done|].
  simpl in Hrun, Hl'. pose proof Hl' as (Hd' & _).
  eexists. split.
  { unfold queueTracks. erewrite bind_run by apply clearQueue_normal.
    unfold loadTracks. erewrite bind_run by exact Hrun.
    by apply (saveQueueState_spec _ _ _ _ _ _ _ _ _ _ cs'). }
  split; [rewrite (sequence_cells _ cs') by done; by rewrite Hts|].
  split; [unfold getSize, getq; simpl; by rewrite <-Hts, length_fmap|].
  split.
  { apply activeTrackOrNone_run. simpl. subst ts. destruct cs' as [|[r t] cs']; [done|].
    simpl. eexists. split; [by eapply (dlist_lookup _ _ _ _ 0)|done]. }
  split.
  { rewrite (activeIndex_cells _ cs') by done. simpl. subst ts.
    destruct cs' as [|[r t] cs']; [done|]. simpl. by rewrite decide_True. }
  split; [done|]. split; [done|]. split; [done|]. split; [done|].
  by apply serialization_snapshot.
Qed.

(** X10: [clearQueue] followed by [loadTracks], the way Main queues a
    playlist or an album, on any queue whatever and for any list of tracks
    without two equal ones: the queue then holds exactly that list, in
    order, the first track current (none for the empty list), shuffle,
    repeat and playback off, the list as [originalSequence], and the state
    file written. *)
Theorem queue_holds_the_collection (w : World) (ts : list Track) :
  NoDup (key <$> ts) ->
  exists w',
    queueTracks ts w = Return tt w'
    /\ sequence w' = Some ts
    /\ getSize w' = Return (length ts) w'
    /\ getCurrentTrack w' = Return (head ts) w'
    /\ activeIndex w' = Some (if ts is [] then (-1)%Z else 0%Z)
    /\ shuffleEnabled (self w') = false
    /\ repeatEnabled (self w') = false
    /\ playbackActive (self w') = false
    /\ originalSequence (self w') = ts
    /\ serialization w' = Some (file w').
Proof. apply queueTracks_fresh. Qed.

(** X11: [handleToggleShuffle] always returns on a well-formed queue.
    When shuffle was on it is off afterwards; when it was off it is on
    afterwards only if the queue holds at least two tracks: on a queue of
    one track or none the handler reports a shuffle that did not
    happen. *)
Theorem shuffle_needs_two_tracks (draws : list nat) (w : World) :
  well_formed w ->
  exists w',
    handleToggleShuffle draws w = Return tt w'
    /\ shuffleEnabled (self w') =
         (if shuffleEnabled (self w) then false else 1 <? queueSize (self w)).
Proof.
  destruct w as [h [hd tl ac sz sh rp pl og] f]. intros ((cs & Hl) & _ & Hac).
  unfold cells in Hl. simpl in Hl, Hac.
  destruct (active_track_exists h ac Hac) as [act Hact].
  unfold handleToggleShuffle, isShuffled. prim. destruct sh.
  - destruct (restoreOriginalOrder_spec h hd tl ac sz rp pl og f cs act Hl Hact)
      as (h' & hd' & tl' & ac' & cs' & -> & Hl' & Hts & _).
    eexists. split; [done|]. done.
  - destruct (decide (sz <= 1)) as [Hsz|Hsz].
    + rewrite shuffleQueue_small by done. eexists. split; [done|]. simpl.
      symmetry. apply Nat.ltb_ge. lia.
    + destruct (shuffleQueue_spec draws h hd tl ac sz rp pl og f cs act Hl ltac:(lia) Hact)
        as (h' & hd' & tl' & ac' & cs' & -> & Hl' & Hts & _).
      eexists. split; [done|]. simpl. symmetry. apply Nat.ltb_lt. lia.
Qed.

End MoreQueue.

Section Sessions.

Implicit Types (h : heap) (cs : list (ref * Track)) (w : World).

Lemma dlist_nonempty h prev first cs r : dlist h prev first cs -> first = Some r -> cs <> [].
Proof. intros Hd -> ->. done. Qed.

Lemma dlist_empty h prev cs : dlist h prev None cs -> cs = [].
Proof. destruct cs; [done|]. by intros (? & _). Qed.

Lemma serialization_cells h hd tl ac sz sh rp pl og f cs :
  dlist h None hd cs ->
  serialization (mkWorld h (mkQueue hd tl ac sz sh rp pl og) f) =
    Some (Json (snapshot cs.*2 (positionFrom 0 ac cs.*1) sh rp pl og)).
Proof.
  intros Hd. unfold serialization.
  by rewrite (saveQueueState_spec _ _ _ _ _ _ _ _ _ _ cs Hd).
Qed.

Lemma addTrack_settled t w :
  well_formed w -> no_stale w ->
  exists b w', addTrack t w = Return b w' /\ well_formed w' /\ no_stale w'
               /\ file w' = file w /\ (b = false -> w' = w).
Proof.
  intros Hw Hns. pose proof (addTrack_well_formed t w Hw) as Hw'.
  destruct w as [h [hd tl ac sz sh rp pl og] f]. destruct Hw as ((cs & Hd & _) & _).
  simpl in Hd. unfold no_stale in Hns. simpl in Hns.
  destruct (existsb (fun c => __eq__ c.2 t) cs) eqn:Hdup.
  - rewrite (addTrack_duplicate _ _ _ cs) in * by done. by eexists _, _.
  - destruct (addTrack_fresh h hd tl ac sz sh rp pl og f cs t Hd Hdup)
      as (h' & hd' & Hrun & (Hd' & _) & _).
    rewrite Hrun in *. eexists _, _. split; [done|]. split; [done|].
    split; [|done]. unfold no_stale. simpl. intros ->.
    apply dlist_empty in Hd'. by destruct cs.
Qed.

Lemma forEach_addTrack_settled ts : forall w,
  well_formed w -> no_stale w ->
  exists w', forEach ts (fun track => addTrack track ;; ret tt) w = Return tt w'
             /\ well_formed w' /\ no_stale w' /\ file w' = file w.
Proof.
  induction ts as [|t ts IH]; intros w Hw Hns; [by exists w|].
  destruct (addTrack_settled t w Hw Hns) as (b & w1 & Hrun & Hw1 & Hns1 & Hf1 & _).
  destruct (IH w1 Hw1 Hns1) as (w' & Hrun' & Hw' & Hns' & Hf').
  exists w'. split; [|by rewrite Hf', Hf1].
  cbn [forEach]. rewrite bind_assoc. erewrite bind_run by exact Hrun.
  unfold ret at 1. unfold bind at 1. exact Hrun'.
Qed.

Lemma saveQueueState_settled w :
  well_formed w -> no_stale w ->
  exists w', saveQueueState w = Return tt w' /\ no_stale w' /\ in_sync w'.
Proof.
  destruct w as [h [hd tl ac sz sh rp pl og] f]. intros ((cs & Hd & _) & _) Hns.
  simpl in Hd. rewrite (saveQueueState_spec _ _ _ _ _ _ _ _ _ _ cs Hd).
  eexists. split; [done|]. split; [done|]. by apply serialization_snapshot.
Qed.

Lemma afterMove_settled h hd tl ac' sz sh rp pl og cs x :
  dlist h None hd cs -> hd = Some x -> in_store h ac' -> ac' <> None ->
  exists r w', afterMove h hd tl ac' sz sh rp pl og cs = Return r w'
               /\ no_stale w' /\ in_sync w'.
Proof.
  intros Hd -> Hac Hne. unfold afterMove. destruct ac' as [a|]; [|done].
  destruct (lookup_lt_is_Some_2 h a Hac) as [n ->].
  eexists _, _. split; [done|]. split; [done|]. by apply serialization_snapshot.
Qed.

Lemma advanceToNext_settled w :
  well_formed w -> no_stale w ->
  exists r w', advanceToNext w = Return r w' /\ no_stale w' /\ (w' = w \/ in_sync w').
Proof.
  intros Hw Hns.
  destruct w as [h [hd tl ac sz sh rp pl og] f]. destruct Hw as ((cs & Hd & _) & Hcl & Hac).
  simpl in Hd, Hcl, Hac. unfold no_stale in Hns. simpl in Hns.
  rewrite (advanceToNext_normal _ _ _ _ _ _ _ _ _ _ cs Hd).
  destruct ac as [a|]; [|by eexists _, _; eauto].
  destruct hd as [x|]; [|by specialize (Hns eq_refl)].
  destruct (lookup_lt_is_Some_2 h a Hac) as [n Hn]. rewrite Hn.
  destruct (Hcl a n Hn) as [Hnx _].
  destruct (nextNode n) as [nx|]; [|destruct rp].
  + destruct (afterMove_settled h (Some x) tl (Some nx) sz sh rp pl og cs x Hd eq_refl Hnx)
      as (r & w' & -> & ? & ?); [done|]. eauto 6.
  + destruct (afterMove_settled h (Some x) tl (Some x) sz sh true pl og cs x Hd eq_refl)
      as (r & w' & -> & ? & ?); [by eapply (dlist_in_store _ _ (Some x))|done|]. eauto 6.
  + eexists _, _. split; [done|]. split; [done|]. right. by apply serialization_snapshot.
Qed.

Lemma rewindToPrevious_settled w :
  well_formed w -> no_stale w ->
  exists r w', rewindToPrevious w = Return r w' /\ no_stale w' /\ (w' = w \/ in_sync w').
Proof.
  intros Hw Hns.
  destruct w as [h [hd tl ac sz sh rp pl og] f]. destruct Hw as ((cs & Hl) & Hcl & Hac).
  unfold cells in Hl. simpl in Hl, Hcl, Hac. pose proof Hl as (Hd & Htl & _).
  unfold no_stale in Hns. simpl in Hns.
  rewrite (rewindToPrevious_normal _ _ _ _ _ _ _ _ _ _ cs Hd).
  destruct ac as [a|]; [|by eexists _, _; eauto].
  destruct hd as [x|]; [|by specialize (Hns eq_refl)].
  destruct (lookup_lt_is_Some_2 h a Hac) as [n Hn]. rewrite Hn.
  destruct (Hcl a n Hn) as [_ Hpv].
  destruct (prevNode n) as [pv|]; [|destruct rp].
  + destruct (afterMove_settled h (Some x) tl (Some pv) sz sh rp pl og cs x Hd eq_refl Hpv)
      as (r & w' & -> & ? & ?); [done|]. eauto 6.
  + destruct (afterMove_settled h (Some x) tl tl sz sh true pl og cs x Hd eq_refl)
      as (r & w' & -> & ? & ?); [by eapply linked_tail_in_store| |by eauto 6].
    subst tl. pose proof (dlist_nonempty _ _ _ _ _ Hd eq_refl) as Hne.
    destruct (exists_last Hne) as (cs0 & c & ->).
    rewrite fmap_app. simpl. by rewrite last_snoc.
  + destruct (afterMove_settled h (Some x) tl (Some a) sz sh false pl og cs x Hd eq_refl Hac)
      as (r & w' & -> & ? & ?); [done|]. eauto 6.
Qed.

(** Every public call but the bare [addTrack] returns in a settled world
    and leaves the state file in step with the queue. *)
Lemma exec_settled (c : call) w :
  settled w -> pristine w \/ in_sync w -> (forall t, c <> CallAddTrack t) ->
  exists w', exec c w = Return tt w' /\ no_stale w' /\ (pristine w' \/ in_sync w').
Proof.
  intros (Hw & Hcon & Hns) Hsync Hc.
  destruct c; unfold exec.
  - by destruct (Hc track).
  - (* loadTracks *)
    destruct (forEach_addTrack_settled trackCollection w Hw Hns) as (w1 & Hrun1 & Hw1 & Hns1 & _).
    destruct (saveQueueState_settled w1 Hw1 Hns1) as (w' & Hrun' & Hns' & Hs').
    exists w'. split; [|auto]. unfold loadTracks. by erewrite bind_run by exact Hrun1.
  - (* startPlayback *)
    destruct w as [h [hd tl ac sz sh rp pl og] f]. destruct Hw as ((cs & Hd & _) & _).
    simpl in Hd. unfold no_stale in Hns. simpl in Hns.
    rewrite (startPlayback_normal _ _ _ _ _ _ _ _ _ _ cs Hd). cbv zeta.
    eexists. split; [done|]. split; [|right; by apply serialization_snapshot].
    unfold no_stale. simpl. intros ->. destruct (negb rp && _); auto.
  - (* pausePlayback *)
    destruct w as [h [hd tl ac sz sh rp pl og] f]. destruct Hw as ((cs & Hd & _) & _).
    simpl in Hd. rewrite (pausePlayback_normal _ _ _ _ _ _ _ _ _ _ cs Hd).
    eexists. split; [done|]. split; [done|]. right. by apply serialization_snapshot.
  - (* advanceToNext *)
    destruct (advanceToNext_settled w Hw Hns) as (r & w' & Hrun & Hns' & [->|Hs]);
      unfold bind; rewrite Hrun; unfold ret; eauto.
  - (* rewindToPrevious *)
    destruct (rewindToPrevious_settled w Hw Hns) as (r & w' & Hrun & Hns' & [->|Hs]);
      unfold bind; rewrite Hrun; unfold ret; eauto.
  - (* shuffleQueue *)
    destruct w as [h [hd tl ac sz sh rp pl og] f]. destruct Hw as ((cs & Hl) & _ & Hac).
    unfold cells in Hl. simpl in Hl, Hac.
    destruct sh; [by eexists|].
    destruct (decide (sz <= 1)) as [Hsz|Hsz].
    { rewrite shuffleQueue_small by done. by eexists. }
    destruct (active_track_exists h ac Hac) as [act Hact].
    destruct (shuffleQueue_spec draws h hd tl ac sz rp pl og f cs act Hl ltac:(lia) Hact)
      as (h' & hd' & tl' & ac' & cs' & -> & (Hd' & _) & _ & Hac' & _).
    eexists. split; [done|]. split; [|right; by apply serialization_snapshot].
    unfold no_stale. simpl. intros ->. apply dlist_empty in Hd'. subst cs'.
    destruct act; [by destruct Hac' as (? & ? & _)|done].
  - (* restoreOriginalOrder *)
    destruct w as [h [hd tl ac sz sh rp pl og] f]. destruct Hw as ((cs & Hl) & _ & Hac).
    unfold cells in Hl. simpl in Hl, Hac.
    destruct sh; [|by eexists].
    destruct (active_track_exists h ac Hac) as [act Hact].
    destruct (restoreOriginalOrder_spec h hd tl ac sz rp pl og f cs act Hl Hact)
      as (h' & hd' & tl' & ac' & cs' & -> & (Hd' & _) & _ & Hac' & _).
    eexists. split; [done|]. split; [|right; by apply serialization_snapshot].
    unfold no_stale. simpl. intros ->. apply dlist_empty in Hd'. subst cs'.
    by destruct act.
  - (* toggleRepeat *)
    destruct w as [h [hd tl ac sz sh rp pl og] f]. destruct Hw as ((cs & Hd & _) & _).
    simpl in Hd. unfold bind. rewrite (toggleRepeat_normal _ _ _ _ _ _ _ _ _ _ cs Hd).
    eexists. split; [done|]. split; [done|]. right. by apply serialization_snapshot.
  - (* clearQueue *)
    destruct w as [h q f]. rewrite clearQueue_normal.
    eexists. split; [done|]. split; [done|]. right.
    by apply (serialization_snapshot _ _ _ _ _ _ _ _ _ []).
  - (* saveQueueState *)
    destruct (saveQueueState_settled w Hw Hns) as (w' & -> & ? & ?). eauto.
  - (* loadQueueState *)
    destruct w as [h [hd tl ac sz sh rp pl og] f].
    destruct Hcon as (cs & Hl & _ & _ & Hf). unfold cells in Hl. simpl in Hl, Hf.
    unfold no_stale in Hns. simpl in Hns.
    destruct Hf as [->|(ts & idx & sh' & rp' & pl' & og' & -> & _ & Hidx)].
    { exists (mkWorld h (mkQueue hd tl ac sz sh rp pl og) NoFile). done. }
    destruct (loadQueueState_snapshot h hd tl ac sz sh rp pl og ts idx sh' rp' pl' og')
      as (h' & hd' & tl' & cs' & Hrun & Hl' & Hts & _).
    unfold bind. rewrite Hrun. unfold ret. pose proof Hl' as (Hd' & _).
    eexists. split; [done|].
    destruct Hidx as [[-> ->]|Hidx].
    + assert (cs' = []) as -> by (by destruct cs').
      assert (ac = None) as ->.
      { destruct Hsync as [[_ Hq]|Hs]; [simpl in Hq; by injection Hq|].
        unfold in_sync in Hs. pose proof Hl as (Hd & _).
        rewrite (serialization_cells _ _ _ _ _ _ _ _ _ _ cs Hd) in Hs.
        simpl in Hs. injection Hs as Hs _. apply fmap_nil_inv in Hs.
        apply fmap_nil_inv in Hs. subst cs. simpl in Hd. auto. }
      split; [done|]. right. apply (serialization_cells _ _ _ _ _ _ _ _ _ _ []). done.
    + assert ((0 <=? idx)%Z = true) as Hpos by lia. rewrite Hpos.
      destruct (lookup_lt_is_Some_2 cs' (Z.to_nat idx)) as [[r t] Hk].
      { rewrite <-Hts, length_fmap in Hidx. lia. }
      rewrite list_lookup_fmap, Hk. simpl. split.
      * unfold no_stale. simpl. intros ->. apply dlist_empty in Hd'. by subst cs'.
      * right. unfold in_sync.
        rewrite (serialization_cells _ _ _ _ _ _ _ _ _ _ cs' Hd'). simpl.
        rewrite (positionFrom_cell _ _ _ _ _ _ _ Hd' Hk), Hts. do 3 f_equal. lia.
  - (* handleAddTrackToQueue *)
    destruct (addTrack_settled track w Hw Hns) as (b & w1 & Hrun & Hw1 & Hns1 & _ & Hsame).
    unfold handleAddTrackToQueue. erewrite bind_run by exact Hrun. destruct b.
    + destruct (saveQueueState_settled w1 Hw1 Hns1) as (w' & -> & ? & ?). eauto.
    + rewrite (Hsame eq_refl). by exists w.
Qed.

Lemma exec_keeps_settled (c : call) w :
  settled w -> pristine w \/ in_sync w -> (forall t, c <> CallAddTrack t) ->
  exists w', exec c w = Return tt w' /\ settled w' /\ (pristine w' \/ in_sync w').
Proof.
  intros Hs Hsync Hc. destruct (exec_settled c w Hs Hsync Hc) as (w' & Hrun & Hns' & Hsync').
  destruct Hs as (Hw & Hcon & _).
  pose proof (exec_well_formed c w Hw) as Hw'. rewrite Hrun in Hw'.
  pose proof (exec_consistent c w Hw Hcon) as Hcon'. rewrite Hrun in Hcon'.
  exists w'. done.
Qed.

Lemma perform_settled (a : action) w :
  settled w -> pristine w \/ in_sync w ->
  exists w', perform a w = Return tt w' /\ settled w' /\ (pristine w' \/ in_sync w').
Proof.
  intros Hs Hsync.
  destruct a as [| | | |draws|confirm|selectedTrack|trackCollection|]; unfold perform.
  - unfold handlePlayPause, isPlaying. unfold bind at 1. unfold getq at 1.
    destruct (playbackActive (self w)).
    + by apply (exec_keeps_settled CallPausePlayback).
    + by apply (exec_keeps_settled CallStartPlayback).
  - by apply (exec_keeps_settled CallAdvanceToNext).
  - by apply (exec_keeps_settled CallRewindToPrevious).
  - by apply (exec_keeps_settled CallToggleRepeat).
  - unfold handleToggleShuffle, isShuffled. unfold bind at 1. unfold getq at 1.
    destruct (shuffleEnabled (self w)).
    + by apply (exec_keeps_settled CallRestoreOriginalOrder).
    + by apply (exec_keeps_settled (CallShuffleQueue draws)).
  - unfold handleClearQueue. destruct (String.eqb _ _).
    + by apply (exec_keeps_settled CallClearQueue).
    + by exists w.
  - by apply (exec_keeps_settled (CallHandleAddTrackToQueue selectedTrack)).
  - destruct (exec_keeps_settled CallClearQueue w Hs Hsync) as (w1 & Hrun1 & Hs1 & Hsync1);
      [done|].
    destruct (exec_keeps_settled (CallLoadTracks trackCollection) w1 Hs1 Hsync1)
      as (w' & Hrun' & Hs' & Hsync'); [done|].
    exists w'. split; [|done]. unfold queueTracks. by erewrite bind_run by exact Hrun1.
  - by apply (exec_keeps_settled CallLoadQueueState).
Qed.

Lemma session_settled f0 w :
  file_ok f0 -> session f0 w -> settled w /\ (pristine w \/ in_sync w).
Proof.
  intros Hf. induction 1 as [|w w' _ [Hs Hsync] Hstep].
  - split; [|by left].
    split; [apply startup_well_formed|]. split; [by apply startup_consistent|done].
  - destruct Hstep as [a w w' Hrun|a e w w' Hrun|w].
    + destruct (perform_settled a w Hs Hsync) as (w1 & Hrun1 & Hs1 & Hsync1).
      rewrite Hrun in Hrun1. by injection Hrun1 as <-.
    + destruct (perform_settled a w Hs Hsync) as (w1 & Hrun1 & _).
      rewrite Hrun in Hrun1. done.
    + destruct Hs as (_ & Hcon & _). split; [|by left].
      split; [apply startup_well_formed|].
      split; [apply startup_consistent; by apply consistent_file_ok|done].
Qed.

(** X12: whatever the user does through Main (the six handlers of the
    queue menu, adding a track from the library, queueing a collection,
    opening the queue menu, leaving and starting the program again, a
    crash at any moment), from a state file that is absent or was written
    by the program: either the process has not touched its queue yet, or
    the state file is exactly what [saveQueueState] would write now. *)
Theorem session_keeps_file_in_sync (f0 : stateFile) (w : World) :
  file_ok f0 -> session f0 w -> pristine w \/ in_sync w.
Proof. intros Hf Hs. by destruct (session_settled f0 w Hf Hs). Qed.

(** X13: in such a run the calls that an action of Main makes on the
    queue never raise and never loop: every action returns, and what it
    leaves is again a world of the run.  (The [AttributeError] that
    [addTrack] can raise after a half-loaded state file is out of reach
    of Main.) *)
Theorem session_never_fails (f0 : stateFile) (a : action) (w : World) :
  file_ok f0 -> session f0 w ->
  exists w', perform a w = Return tt w' /\ session f0 w'.
Proof.
  intros Hf Hs. destruct (session_settled f0 w Hf Hs) as [Hset Hsync].
  destruct (perform_settled a w Hset Hsync) as (w' & Hrun & _).
  exists w'. split; [done|]. eapply session_next; [exact Hs|]. by eapply session_return.
Qed.

End Sessions.

(** ** Built-in functions and the duration of a track *)

Section TracksAndAlbums.

Local Open Scope result_scope.

Example int_examples :
  int "  42 " = Ok 42%Z /\ int "-7" = Ok (-7)%Z /\ int "1_000" = Ok 1000%Z
  /\ int "007" = Ok 7%Z /\ int EmptyString = Err ValueError /\ int "1__0" = Err ValueError
  /\ int "_1" = Err ValueError /\ int "1_" = Err ValueError /\ int "+ 1" = Err ValueError
  /\ int "1 2" = Err ValueError /\ int "3.5" = Err ValueError /\ int "+-1" = Err ValueError.
Proof. repeat split. Qed.

Example split_examples :
  split ":" "3:05" = ["3"; "05"] /\ split ":" EmptyString = [EmptyString]
  /\ split ":" ":" = [EmptyString; EmptyString]
  /\ split ":" "1:02:03" = ["1"; "02"; "03"] /\ split ":" "abc" = ["abc"].
Proof. repeat split. Qed.

Section Numerals.

Lemma digit_range c d : digit c = Some d -> 48 <= nat_of_ascii c <= 57.
Proof.
  unfold digit. destruct (Nat.leb 48 _) eqn:E1; [|done].
  destruct (Nat.leb _ 57) eqn:E2; [|done]. intros _.
  apply Nat.leb_le in E1, E2. lia.
Qed.

Lemma digit_not_space c d : digit c = Some d -> is_space c = false.
Proof.
  intros H. apply digit_range in H. unfold is_space.
  destruct (Nat.leb_spec 9 (nat_of_ascii c)), (Nat.leb_spec (nat_of_ascii c) 13),
    (Nat.eqb_spec (nat_of_ascii c) 32); simpl; try done; lia.
Qed.

Lemma digit_not_char c d (x : ascii) :
  digit c = Some d -> ~ (48 <= nat_of_ascii x <= 57) -> Ascii.eqb c x = false.
Proof.
  intros H Hx. apply digit_range in H. apply Ascii.eqb_neq. intros ->. lia.
Qed.

Lemma all_digits_cons c s :
  all_digits (String c s) = true <-> (exists d, digit c = Some d) /\ all_digits s = true.
Proof.
  simpl. rewrite andb_true_iff, bool_decide_eq_true. unfold is_Some. done.
Qed.

Lemma digits_all_digits s : forall value seen after_digit,
  all_digits s = true -> s <> EmptyString \/ after_digit = true ->
  digits value seen after_digit s = Some (number_from value s, seen + String.length s).
Proof.
  induction s as [|c s IH]; intros value seen after_digit Hall Hne.
  - destruct Hne as [?| ->]; [done|]. simpl. f_equal. f_equal. lia.
  - apply all_digits_cons in Hall as [[d Hd] Hall]. simpl. rewrite Hd. simpl.
    rewrite IH by auto. f_equal. f_equal. lia.
Qed.

Lemma int_numeral s : numeral s -> int s = Ok (number s).
Proof.
  intros (Hne & Hall & Hlen). destruct s as [|c s]; [done|].
  pose proof Hall as Hall'. apply all_digits_cons in Hall' as [[d Hd] _].
  unfold int. cbn [lstrip]. rewrite (digit_not_space c d Hd).
  rewrite (digit_not_char c d "-" Hd) by (vm_compute; lia).
  rewrite (digit_not_char c d "+" Hd) by (vm_compute; lia).
  rewrite digits_all_digits by auto. cbn [Nat.add].
  assert (Nat.ltb max_str_digits (String.length (String c s)) = false) as ->
    by (apply Nat.ltb_ge; exact Hlen).
  done.
Qed.

Lemma split_digits m rest :
  all_digits m = true ->
  split ":" (m +:+ String ":" rest) = m :: split ":" rest.
Proof.
  induction m as [|c m IH]; intros Hall; [done|].
  apply all_digits_cons in Hall as [[d Hd] Hall]. simpl.
  rewrite (digit_not_char c d ":" Hd) by (vm_compute; lia).
  by rewrite IH.
Qed.

Lemma split_no_separator sep s : has_char sep s = false -> split sep s = [s].
Proof.
  induction s as [|c s IH]; [done|]. simpl.
  rewrite (Ascii.eqb_sym c sep). destruct (Ascii.eqb sep c); [done|].
  intros H. by rewrite IH.
Qed.

Lemma all_digits_no_colon s : all_digits s = true -> has_char ":" s = false.
Proof.
  induction s as [|c s IH]; [done|]. intros Hall.
  apply all_digits_cons in Hall as [[d Hd] Hall]. cbn [has_char].
  rewrite Ascii.eqb_sym, (digit_not_char c d ":" Hd) by (vm_compute; lia). auto.
Qed.

End Numerals.

(** X14: for a duration [minutes:seconds] of two numerals, each of one to
    4300 ASCII decimal digits (the most [int] reads), leading zeros
    allowed, [convertDurationToSeconds] returns sixty times the minutes
    plus the seconds; the seconds may exceed 59, and whatever follows a
    second colon is ignored. *)
Theorem duration_is_minutes_and_seconds (t : Track) (minutes seconds rest : string) :
  numeral minutes -> numeral seconds ->
  trackDuration t = minutes +:+ String ":" seconds
  \/ trackDuration t = minutes +:+ String ":" (seconds +:+ String ":" rest) ->
  convertDurationToSeconds t = Ok (number minutes * 60 + number seconds)%Z.
Proof.
  intros Hm Hs Hd. unfold convertDurationToSeconds.
  assert (split ":" (trackDuration t) !! 0 = Some minutes
          /\ split ":" (trackDuration t) !! 1 = Some seconds) as [H0 H1].
  { pose proof Hm as (_ & Hma & _). pose proof Hs as (_ & Hsa & _).
    destruct Hd as [-> | ->]; rewrite split_digits by done.
    - by rewrite (split_no_separator ":" seconds) by by apply all_digits_no_colon.
    - by rewrite split_digits by done. }
  unfold item. rewrite H0, H1. simpl.
  by rewrite (int_numeral _ Hm), (int_numeral _ Hs).
Qed.

Lemma int_raises_ValueError s e : int s = Err e -> e = ValueError.
Proof.
  unfold int. destruct (lstrip s) as [|c s']; simpl.
  - by intros [= <-].
  - destruct (Ascii.eqb c "-"), (Ascii.eqb c "+");
      destruct (digits _ _ _ _) as [[v n]|]; try (by intros [= <-]);
      destruct (Nat.ltb _ _); by intros [= <-].
Qed.

(** X15: on a duration of ASCII text without a colon
    [convertDurationToSeconds] always raises: [IndexError] when [int]
    accepts the whole string, [ValueError] when it does not. *)
Theorem duration_needs_a_colon (t : Track) :
  is_ascii (trackDuration t) = true ->
  has_char ":" (trackDuration t) = false ->
  match int (trackDuration t) with
  | Ok _ => convertDurationToSeconds t = Err IndexError
  | Err _ => convertDurationToSeconds t = Err ValueError
  end.
Proof.
  intros _ H. unfold convertDurationToSeconds.
  rewrite (split_no_separator _ _ H). unfold item. simpl.
  destruct (int (trackDuration t)) as [n|e] eqn:E; simpl; [done|].
  by rewrite (int_raises_ValueError _ _ E).
Qed.

Section Albums.

Import Album.

Lemma appendTrack_keys track album :
  NoDup (key <$> albumTracks album) ->
  NoDup (key <$> albumTracks (appendTrack track album).2).
Proof.
  intros Hnd. unfold appendTrack.
  destruct (existsb _ _) eqn:Hex; [done|]. simpl.
  rewrite fmap_app. apply NoDup_app. split; [done|]. split; [|apply NoDup_singleton].
  intros k Hk Hk'. apply list_elem_of_singleton in Hk'. subst k.
  apply list_elem_of_fmap in Hk as (u & Hu & Hin).
  assert (existsb (fun existingTrack => __eq__ existingTrack track) (albumTracks album) = true)
    as Htrue; [|congruence].
  apply existsb_exists. exists u. split; [by apply list_elem_of_In|].
  by apply eq_key.
Qed.

Lemma made_keys album : made album -> NoDup (key <$> albumTracks album).
Proof.
  induction 1 as [name|track album _ IH]; [constructor|]. by apply appendTrack_keys.
Qed.

Lemma appendTrack_name track album :
  albumName (appendTrack track album).2 = albumName album.
Proof. unfold appendTrack. by destruct (existsb _ _). Qed.

Lemma appendMatch_made trackData trackObjects : forall album album',
  made album -> appendMatch trackData trackObjects album = Some album' -> made album'.
Proof.
  induction trackObjects as [|track rest IH]; intros album album' Hm; simpl.
  - by intros [= <-].
  - destruct (matches track trackData) as [[|]|]; simpl; [|by apply IH|done].
    intros [= <-]. by constructor.
Qed.

Lemma appendMatches_made trackDicts trackObjects : forall album album',
  made album -> appendMatches trackDicts trackObjects album = Some album' -> made album'.
Proof.
  induction trackDicts as [|d rest IH]; intros album album' Hm; simpl.
  - by intros [= <-].
  - destruct (appendMatch d trackObjects album) as [album1|] eqn:E; simpl; [|done].
    apply IH. by eapply appendMatch_made.
Qed.

Lemma fromDict_made data trackObjects album :
  fromDict data trackObjects = Some album -> made album.
Proof.
  unfold fromDict. destruct (d_name data) as [name|]; simpl; [|done].
  destruct (d_tracks data) as [ds|]; simpl; [|done].
  apply appendMatches_made. constructor.
Qed.

(** X16: an album made by [Album(name)] and calls of [appendTrack], or
    read by [Album.fromDict], never holds at two positions tracks that
    [Track.__eq__] takes for equal. *)
Theorem album_never_holds_duplicates (album : Album) :
  made album \/ (exists data trackObjects, fromDict data trackObjects = Some album) ->
  forall i j a b,
    getTracks album !! i = Some a -> getTracks album !! j = Some b ->
    __eq__ a b = true -> i = j.
Proof.
  intros Hm i j a b Hi Hj Heq.
  assert (made album) as Hmade.
  { destruct Hm as [?|(data & objs & Hf)]; [done|]. by eapply fromDict_made. }
  apply eq_key in Heq. unfold getTracks in *.
  eapply NoDup_lookup; [exact (made_keys _ Hmade)| |].
  - by rewrite list_lookup_fmap, Hi.
  - rewrite list_lookup_fmap, Hj. simpl. by rewrite Heq.
Qed.

(** round trip *)
Lemma matches_toDict u t :
  matches u (Track.toDict t) =
    Some (String.eqb (trackTitle u) (trackTitle t)
          && String.eqb (py_str (trackArtist u)) (py_str (trackArtist t))
          && String.eqb (trackAlbum u) (trackAlbum t)).
Proof.
  unfold matches. simpl.
  destruct (String.eqb (trackTitle u) _); simpl; [|done].
  destruct (String.eqb (py_str _) _); simpl; done.
Qed.

Lemma appendMatch_toDict t trackObjects album :
  t ∈ trackObjects ->
  (forall u, u ∈ trackObjects ->
     trackTitle u = trackTitle t -> py_str (trackArtist u) = py_str (trackArtist t) ->
     trackAlbum u = trackAlbum t -> u = t) ->
  appendMatch (Track.toDict t) trackObjects album = Some (appendTrack t album).2.
Proof.
  induction trackObjects as [|u rest IH]; intros Hin Huniq; [by apply elem_of_nil in Hin|].
  cbn [appendMatch]. rewrite matches_toDict. simpl.
  destruct (String.eqb_spec (trackTitle u) (trackTitle t)) as [E1|N1]; simpl.
  - destruct (String.eqb_spec (py_str (trackArtist u)) (py_str (trackArtist t))) as [E2|N2];
      simpl.
    + destruct (String.eqb_spec (trackAlbum u) (trackAlbum t)) as [E3|N3]; simpl.
      * rewrite (Huniq u); [done|by left|done|done|done].
      * apply IH; [|intros; apply Huniq; try done; by right].
        apply elem_of_cons in Hin as [->|]; done.
    + apply IH; [|intros; apply Huniq; try done; by right].
      apply elem_of_cons in Hin as [->|]; done.
  - apply IH; [|intros; apply Huniq; try done; by right].
    apply elem_of_cons in Hin as [->|]; done.
Qed.

Lemma appendMatches_toDict ts trackObjects : forall album,
  (forall t, t ∈ ts -> t ∈ trackObjects) ->
  (forall t u, t ∈ ts -> u ∈ trackObjects ->
     trackTitle u = trackTitle t -> py_str (trackArtist u) = py_str (trackArtist t) ->
     trackAlbum u = trackAlbum t -> u = t) ->
  NoDup (key <$> (albumTracks album ++ ts)) ->
  appendMatches (map Track.toDict ts) trackObjects album =
    Some (mkAlbum (albumName album) (albumTracks album ++ ts)).
Proof.
  induction ts as [|t ts IH]; intros album Hin Huniq Hnd.
  - simpl. rewrite app_nil_r. by destruct album.
  - cbn [map appendMatches].
    rewrite (appendMatch_toDict t trackObjects album);
      [|apply Hin; by left|intros; apply (Huniq t); try done; by left].
    simpl.
    assert (appendTrack t album = (true, mkAlbum (albumName album) (albumTracks album ++ [t])))
      as ->.
    { unfold appendTrack.
      destruct (existsb _ _) eqn:Hex; [|done]. exfalso.
      apply existsb_exists in Hex as (u & Hu & Heq). apply eq_key in Heq.
      rewrite fmap_app in Hnd. apply NoDup_app in Hnd as (_ & Hdis & _).
      apply (Hdis (key t)).
      - rewrite <-Heq. apply list_elem_of_fmap. exists u. split; [done|].
        by apply list_elem_of_In.
      - simpl. by left. }
    simpl. rewrite IH.
    + simpl. by rewrite <-app_assoc.
    + intros; apply Hin; by right.
    + intros; apply (Huniq t0); try done; by right.
    + simpl. by rewrite <-app_assoc.
Qed.

(** X17: [Album.fromDict] gives back the album that [toDict] wrote, name
    and tracks in order, when the tracks handed to it contain those of the
    album and none of them could be mistaken for another: [fromDict]
    matches on title, artist and album and takes the first match, without
    looking at the duration. *)
Theorem album_survives_its_dictionary (album : Album) (trackObjects : list Track) :
  made album ->
  (forall t, t ∈ getTracks album -> t ∈ trackObjects) ->
  (forall t u, t ∈ getTracks album -> u ∈ trackObjects ->
     trackTitle u = trackTitle t -> py_str (trackArtist u) = py_str (trackArtist t) ->
     trackAlbum u = trackAlbum t -> u = t) ->
  fromDict (toDict album) trackObjects = Some album.
Proof.
  intros Hm Hin Huniq. unfold fromDict, toDict. simpl.
  rewrite (appendMatches_toDict (albumTracks album) trackObjects (init (albumName album)));
    [by destruct album|done|done|].
  simpl. by apply made_keys.
Qed.

End Albums.

End TracksAndAlbums.

(** ** The library *)

Section TheLibrary.

Local Open Scope result_scope.
Import Album Managers Library.

Section StringOrder.

Lemma ascii_compare_refl c : Ascii.compare c c = Eq.
Proof. unfold Ascii.compare. apply N.compare_refl. Qed.

Lemma string_compare_refl s : String.compare s s = Eq.
Proof. induction s as [|c s IH]; [done|]. simpl. by rewrite ascii_compare_refl. Qed.

Lemma string_compare_eq s1 s2 : String.compare s1 s2 = Eq <-> s1 = s2.
Proof. split; [apply String.compare_eq_iff|intros ->; apply string_compare_refl]. Qed.

Lemma ascii_compare_lt_trans a b c :
  Ascii.compare a b = Lt -> Ascii.compare b c = Lt -> Ascii.compare a c = Lt.
Proof. unfold Ascii.compare. rewrite !N.compare_lt_iff. lia. Qed.

Lemma string_compare_lt_trans s1 : forall s2 s3,
  String.compare s1 s2 = Lt -> String.compare s2 s3 = Lt -> String.compare s1 s3 = Lt.
Proof.
  induction s1 as [|a s1 IH]; intros [|b s2] [|c s3]; simpl; try done.
  destruct (Ascii.compare a b) eqn:Eab; try done;
    destruct (Ascii.compare b c) eqn:Ebc; try done; intros H1 H2.
  - apply Ascii.compare_eq_iff in Eab, Ebc. subst. rewrite ascii_compare_refl. eauto.
  - apply Ascii.compare_eq_iff in Eab. subst. by rewrite Ebc.
  - apply Ascii.compare_eq_iff in Ebc. subst. by rewrite Eab.
  - by rewrite (ascii_compare_lt_trans a b c).
Qed.

Lemma string_compare_gt s1 s2 : String.compare s1 s2 = Gt <-> String.compare s2 s1 = Lt.
Proof. rewrite (String.compare_antisym s2 s1). destruct (String.compare s1 s2); simpl; split; done. Qed.

Lemma string_compare_chains x y z :
  chains (String.compare x y) (String.compare y z) (String.compare x z).
Proof.
  unfold chains.
  destruct (String.compare x y) eqn:E1, (String.compare y z) eqn:E2; try done;
    rewrite ?string_compare_eq in *; subst; rewrite ?string_compare_refl; try done.
  - by eapply string_compare_lt_trans.
  - apply string_compare_gt in E1, E2. apply string_compare_gt.
    by eapply string_compare_lt_trans.
Qed.

Lemma Z_compare_chains x y z : chains (x ?= y)%Z (y ?= z)%Z (x ?= z)%Z.
Proof.
  unfold chains.
  destruct (Z.compare_spec x y), (Z.compare_spec y z); try done;
    subst; rewrite ?Z.compare_refl; try done;
    first [apply Z.compare_lt_iff|apply Z.compare_gt_iff]; lia.
Qed.

End StringOrder.

Section Compare.

Lemma string_level x y (next : result Z) :
  (if negb (String.eqb x y) then Ok (if String.ltb x y then -1 else 1)%Z else next) =
    level (String.compare x y) next.
Proof.
  unfold String.ltb. destruct (String.eqb_spec x y) as [->|Hne]; simpl.
  - by rewrite string_compare_refl.
  - destruct (String.compare x y) eqn:E; [|done|done].
    by apply string_compare_eq in E.
Qed.

Lemma Z_level x y :
  (if negb (x =? y)%Z then Ok (if (x <? y)%Z then -1 else 1)%Z else Ok 0%Z) =
    level (x ?= y)%Z (Ok 0%Z).
Proof.
  unfold Z.ltb. destruct (Z.eqb_spec x y) as [->|Hne]; simpl.
  - by rewrite Z.compare_refl.
  - destruct (Z.compare_spec x y); [done|done|done].
Qed.

Lemma compare_levels t1 t2 :
  compareTrackObjects t1 t2 =
    level (String.compare (lower (trackTitle t1)) (lower (trackTitle t2)))
      (artist1 <- getPrimaryArtist t1 ;;
       artist2 <- getPrimaryArtist t2 ;;
       level (String.compare (lower artist1) (lower artist2))
         (level (String.compare (lower (trackAlbum t1)) (lower (trackAlbum t2)))
            (dur1 <- convertDurationToSeconds t1 ;;
             dur2 <- convertDurationToSeconds t2 ;;
             level (dur1 ?= dur2)%Z (Ok 0%Z)))).
Proof.
  unfold compareTrackObjects. cbv zeta. rewrite string_level. f_equal.
  destruct (getPrimaryArtist t1) as [a1|]; [|done].
  destruct (getPrimaryArtist t2) as [a2|]; [|done]. simpl.
  rewrite string_level. f_equal. rewrite string_level. f_equal.
  destruct (convertDurationToSeconds t1) as [d1|]; [|done].
  destruct (convertDurationToSeconds t2) as [d2|]; [|done]. simpl.
  apply Z_level.
Qed.

Lemma compare_values t1 t2 c :
  compareTrackObjects t1 t2 = Ok c -> c = (-1)%Z \/ c = 0%Z \/ c = 1%Z.
Proof.
  rewrite compare_levels. unfold level.
  repeat first
    [ progress simpl
    | match goal with
      | |- context [String.compare ?x ?y] => destruct (String.compare x y)
      | |- context [(?x ?= ?y)%Z] => destruct (x ?= y)%Z
      | |- context [getPrimaryArtist ?t] => destruct (getPrimaryArtist t)
      | |- context [convertDurationToSeconds ?t] => destruct (convertDurationToSeconds t)
      end ];
    intros [= <-]; auto.
Qed.

Lemma compare_antisym t1 t2 c :
  compareTrackObjects t1 t2 = Ok c -> compareTrackObjects t2 t1 = Ok (- c)%Z.
Proof.
  rewrite !compare_levels. unfold level.
  rewrite (String.compare_antisym (lower (trackTitle t1))).
  rewrite (String.compare_antisym (lower (trackAlbum t1))).
  destruct (String.compare (lower (trackTitle t2)) _); simpl; [|by intros [= <-]..].
  destruct (getPrimaryArtist t1) as [a1|]; [|done].
  destruct (getPrimaryArtist t2) as [a2|]; [|done]. simpl.
  rewrite (String.compare_antisym (lower a1)).
  destruct (String.compare (lower a2) _); simpl; [|by intros [= <-]..].
  destruct (String.compare (lower (trackAlbum t2)) _); simpl; [|by intros [= <-]..].
  destruct (convertDurationToSeconds t1) as [d1|]; [|done].
  destruct (convertDurationToSeconds t2) as [d2|]; [|done]. simpl.
  rewrite (Z.compare_antisym d1 d2).
  destruct (d1 ?= d2)%Z; simpl; by intros [= <-].
Qed.

End Compare.

Section Chains.

Ltac decided Hch :=
  unfold chains in Hch; simpl in Hch; try rewrite Hch; simpl;
  let E1 := fresh in let E2 := fresh in let E3 := fresh in
  intros E1 E2 E3;
  match goal with
  | c1 : comparison, c2 : comparison |- _ =>
      destruct c1, c2; try discriminate E1; try discriminate E2; try discriminate E3;
      injection E3 as <-; done
  end.

Lemma compare_chain t1 t2 t3 (c1 c2 c3 : comparison) :
  compareTrackObjects t1 t2 = Ok (sgn c1) ->
  compareTrackObjects t2 t3 = Ok (sgn c2) ->
  chain c1 c2 = Some c3 ->
  compareTrackObjects t1 t3 = Ok (sgn c3).
Proof.
  rewrite !compare_levels. unfold level.
  pose proof (string_compare_chains (lower (trackTitle t1)) (lower (trackTitle t2))
                (lower (trackTitle t3))) as Hch.
  destruct (String.compare (lower (trackTitle t1)) (lower (trackTitle t2))),
    (String.compare (lower (trackTitle t2)) (lower (trackTitle t3)));
    try (by decided Hch).
  simpl in Hch. rewrite Hch. clear Hch.
  destruct (getPrimaryArtist t1) as [a1|]; [|done].
  destruct (getPrimaryArtist t2) as [a2|]; [|done].
  destruct (getPrimaryArtist t3) as [a3|]; [|simpl; by destruct (String.compare _ _)].
  simpl.
  pose proof (string_compare_chains (lower a1) (lower a2) (lower a3)) as Hch.
  destruct (String.compare (lower a1) (lower a2)),
    (String.compare (lower a2) (lower a3));
    try (by decided Hch).
  simpl in Hch. rewrite Hch. clear Hch.
  pose proof (string_compare_chains (lower (trackAlbum t1)) (lower (trackAlbum t2))
                (lower (trackAlbum t3))) as Hch.
  destruct (String.compare (lower (trackAlbum t1)) (lower (trackAlbum t2))),
    (String.compare (lower (trackAlbum t2)) (lower (trackAlbum t3)));
    try (by decided Hch).
  simpl in Hch. rewrite Hch. clear Hch.
  destruct (convertDurationToSeconds t1) as [d1|]; [|done].
  destruct (convertDurationToSeconds t2) as [d2|]; [|done].
  destruct (convertDurationToSeconds t3) as [d3|]; [|simpl; by destruct (_ ?= _)%Z].
  simpl.
  pose proof (Z_compare_chains d1 d2 d3) as Hch.
  destruct (d1 ?= d2)%Z, (d2 ?= d3)%Z; by decided Hch.
Qed.

Lemma before_trans a b c : before a b -> before b c -> before a c.
Proof. intros H1 H2. by apply (compare_chain a b c Lt Lt Lt). Qed.

Lemma before_after a b : compareTrackObjects a b = Ok 1%Z <-> before b a.
Proof.
  unfold before. split; intros H; apply compare_antisym in H; done.
Qed.

End Chains.

Lemma compare_zero_iff (a b : Track) :
  compareTrackObjects a b = Ok 0%Z <->
    lower (trackTitle a) = lower (trackTitle b)
    /\ (exists x y, getPrimaryArtist a = Ok x /\ getPrimaryArtist b = Ok y
                    /\ lower x = lower y)
    /\ lower (trackAlbum a) = lower (trackAlbum b)
    /\ (exists d, convertDurationToSeconds a = Ok d /\ convertDurationToSeconds b = Ok d).
Proof.
  rewrite compare_levels. unfold level. split.
  - destruct (String.compare (lower (trackTitle a)) _) eqn:E1; [|done|done].
    apply string_compare_eq in E1.
    destruct (getPrimaryArtist a) as [x|]; [|done].
    destruct (getPrimaryArtist b) as [y|]; [|done]. simpl.
    destruct (String.compare (lower x) _) eqn:E2; [|done|done].
    apply string_compare_eq in E2.
    destruct (String.compare (lower (trackAlbum a)) _) eqn:E3; [|done|done].
    apply string_compare_eq in E3.
    destruct (convertDurationToSeconds a) as [d1|]; [|done].
    destruct (convertDurationToSeconds b) as [d2|]; [|done]. simpl.
    destruct (Z.compare_spec d1 d2); [|done|done]. subst. intros _.
    split; [done|]. split; [by exists x, y|]. split; [done|]. by exists d2.
  - intros (-> & (x & y & -> & -> & Hxy) & -> & (d & -> & ->)). simpl.
    rewrite Hxy, !string_compare_refl, Z.compare_refl. done.
Qed.

(** X18: for two tracks whose fields are ASCII text,
    [__compareTrackObjects] returns 0, so that the library takes the second
    for a duplicate of the first, exactly when the titles, the primary
    artists and the albums are the same up to the case of the letters and
    the durations are the same number of seconds.  This is not the equality
    of [Track.__eq__]: it ignores case, the artists after the first and
    the spelling of the duration.  (Beyond ASCII [lower] is not
    [str.lower].) *)
Theorem library_duplicate_iff (a b : Track) :
  ascii_track a = true -> ascii_track b = true ->
  (compareTrackObjects a b = Ok 0%Z <->
     lower (trackTitle a) = lower (trackTitle b)
     /\ (exists x y, getPrimaryArtist a = Ok x /\ getPrimaryArtist b = Ok y
                     /\ lower x = lower y)
     /\ lower (trackAlbum a) = lower (trackAlbum b)
     /\ (exists d, convertDurationToSeconds a = Ok d /\ convertDurationToSeconds b = Ok d)).
Proof. intros _ _. apply compare_zero_iff. Qed.

Section Tree.

Lemma traverseInOrder_app t : forall acc,
  traverseInOrder t acc = acc ++ traverseInOrder t [].
Proof.
  induction t as [|x l IHl r IHr]; intros acc; simpl.
  - by rewrite app_nil_r.
  - rewrite IHr, (IHl acc), (IHr (_ ++ _)), (IHl []). simpl. by rewrite <-!app_assoc.
Qed.

Lemma traverseInOrder_node x l r :
  traverseInOrder (mkTreeNode x l r) [] =
    traverseInOrder l [] ++ x :: traverseInOrder r [].
Proof.
  simpl. rewrite traverseInOrder_app. by rewrite <-app_assoc.
Qed.

(** What an insertion does to a well-ordered tree. *)
Lemma insert_ordered t : forall x flag t' flag',
  ordered t ->
  insertTrackRecursive t x flag = Ok (t', flag') ->
  ordered t'
  /\ ((flag' = true
       /\ exists l1 l2,
            traverseInOrder t [] = l1 ++ l2
            /\ traverseInOrder t' [] = l1 ++ x :: l2
            /\ (forall u, u ∈ l1 -> before u x)
            /\ (forall v, v ∈ l2 -> before x v))
      \/ (flag' = flag /\ t' = t
          /\ exists u, u ∈ traverseInOrder t [] /\ compareTrackObjects x u = Ok 0%Z)).
Proof.
  induction t as [|y l IHl r IHr]; intros x flag t' flag' Hord Hins.
  - simpl in Hins. injection Hins as <- <-. split.
    + constructor; try constructor; intros ? Hin; by apply elem_of_nil in Hin.
    + left. split; [done|]. exists [], []. split; [done|]. split; [done|].
      split; intros ? Hin; by apply elem_of_nil in Hin.
  - inversion Hord as [|? ? ? Hl Hr Hlt Hgt]; subst.
    cbn [insertTrackRecursive] in Hins.
    destruct (compareTrackObjects x y) as [c|] eqn:Hc; [|done]. simpl in Hins.
    destruct (compare_values _ _ _ Hc) as [->|[->| ->]]; simpl in Hins.
    + (* to the left *)
      destruct (insertTrackRecursive l x flag) as [[l' f']|] eqn:Hl'; [|done].
      simpl in Hins. injection Hins as <- <-.
      destruct (IHl x flag l' f' Hl Hl') as [Hord' Hres].
      assert (before x y) as Hxy by exact Hc.
      destruct Hres as [(-> & l1 & l2 & E & E' & H1 & H2)|(-> & -> & u & Hu & Hu0)].
      * split.
        -- constructor; [done|done| |done].
           intros u. rewrite E'. rewrite elem_of_app, elem_of_cons.
           intros [Hin|[->|Hin]]; [|done|]; apply Hlt; rewrite E, elem_of_app; auto.
        -- left. split; [done|]. exists l1, (l2 ++ y :: traverseInOrder r []).
           rewrite !traverseInOrder_node, E, E', <-!app_assoc. simpl.
           split; [done|]. split; [done|]. split; [done|].
           intros v. rewrite elem_of_app, elem_of_cons.
           intros [Hin|[->|Hin]]; [auto|done|].
           eapply before_trans; [exact Hxy|auto].
      * split; [done|]. right. split; [done|]. split; [done|].
        exists u. split; [|done]. rewrite traverseInOrder_node, elem_of_app. auto.
    + (* the same track *)
      simpl in Hins. injection Hins as <- <-. split; [done|]. right.
      split; [done|]. split; [done|]. exists y. split; [|done].
      rewrite traverseInOrder_node, elem_of_app, elem_of_cons. auto.
    + (* to the right *)
      destruct (insertTrackRecursive r x flag) as [[r' f']|] eqn:Hr'; [|done].
      simpl in Hins. injection Hins as <- <-.
      destruct (IHr x flag r' f' Hr Hr') as [Hord' Hres].
      assert (before y x) as Hyx by (by apply before_after).
      destruct Hres as [(-> & l1 & l2 & E & E' & H1 & H2)|(-> & -> & u & Hu & Hu0)].
      * split.
        -- constructor; [done|done|done|].
           intros v. rewrite E'. rewrite elem_of_app, elem_of_cons.
           intros [Hin|[->|Hin]]; [|done|]; apply Hgt; rewrite E, elem_of_app; auto.
        -- left. split; [done|]. exists (traverseInOrder l [] ++ y :: l1), l2.
           rewrite !traverseInOrder_node, E, E', <-!app_assoc. simpl.
           split; [done|]. split; [done|]. split; [|done].
           intros u. rewrite elem_of_app, elem_of_cons.
           intros [Hin|[->|Hin]]; [|done|auto].
           eapply before_trans; [|exact Hyx]. auto.
      * split; [done|]. right. split; [done|]. split; [done|].
        exists u. split; [|done]. rewrite traverseInOrder_node, elem_of_app, elem_of_cons. auto.
Qed.

Lemma ordered_sorted t : ordered t -> StronglySorted before (traverseInOrder t []).
Proof.
  induction 1 as [|x l r _ IHl _ IHr Hlt Hgt]; [constructor|].
  rewrite traverseInOrder_node.
  apply StronglySorted_app_2; [|done|].
  - intros u v Hu Hv. apply elem_of_cons in Hv as [->|Hv]; [by apply Hlt|].
    eapply before_trans; [by apply Hlt|by apply Hgt].
  - constructor; [done|]. apply Forall_forall. intros v Hv. by apply Hgt.
Qed.

End Tree.

Section Libraries.

Lemma loadTracks_ordered ds : forall root,
  ordered root -> ordered (loadTracks ds root).1.
Proof.
  induction ds as [|d ds IH]; intros root Hord; [done|]. simpl.
  destruct (Track.fromDict d) as [t|]; [|done].
  destruct (insertTrackRecursive root t false) as [[root' f]|] eqn:E; [|done].
  apply IH. by destruct (insert_ordered _ _ _ _ _ Hord E).
Qed.

Lemma init_ordered disk : ordered (rootNode (Library.init disk)).
Proof.
  unfold Library.init, loadLibraryFromFile. simpl.
  destruct (libraryFile disk) as [| |ds]; simpl; try constructor.
  pose proof (loadTracks_ordered ds NoNode ordered_none) as H.
  by destruct (loadTracks ds NoNode).2.
Qed.

Lemma addTrack_ordered track lib disk b lib' disk' :
  ordered (rootNode lib) ->
  Library.addTrack track lib disk = Ok (b, lib', disk') ->
  ordered (rootNode lib').
Proof.
  intros Hord. unfold Library.addTrack.
  destruct (insertTrackRecursive _ _ _) as [[root' f]|] eqn:E; [|done]. simpl.
  destruct (insert_ordered _ _ _ _ _ Hord E) as [Hord' _].
  destruct f; by intros [= _ <- _].
Qed.

Lemma stocked_ordered disk0 lib disk : stocked disk0 lib disk -> ordered (rootNode lib).
Proof.
  induction 1 as [|track lib disk b lib' disk' _ IH Hadd]; [apply init_ordered|].
  by eapply addTrack_ordered.
Qed.

(** X19: whatever files the process found, and after any number of
    [addTrack] calls, [getAllTracks] lists the library in strictly
    increasing order of [__compareTrackObjects]: each track compares as
    smaller than every track after it, so no two are duplicates of each
    other. *)
Theorem library_is_sorted (disk0 : Disk) (lib : Library) (disk : Disk) :
  stocked disk0 lib disk -> StronglySorted before (getAllTracks lib).
Proof. intros H. apply ordered_sorted. by eapply stocked_ordered. Qed.

Lemma addTrack_outcome lib lib' disk disk' track b :
  ordered (rootNode lib) ->
  Library.addTrack track lib disk = Ok (b, lib', disk') ->
  if b then
    getAllTracks lib' ≡ₚ track :: getAllTracks lib
    /\ (forall u, u ∈ getAllTracks lib -> before u track \/ before track u)
    /\ libraryFile disk' = Content (map Track.toDict (getAllTracks lib'))
    /\ albumMgr lib' = (addTrackToAlbum track (albumMgr lib)).1
    /\ albumFile disk' = (addTrackToAlbum track (albumMgr lib)).2
  else
    lib' = lib /\ disk' = disk
    /\ exists u, u ∈ getAllTracks lib /\ compareTrackObjects track u = Ok 0%Z.
Proof.
  intros Hord.
  unfold Library.addTrack, getAllTracks.
  destruct (insertTrackRecursive _ _ _) as [[root' f]|] eqn:E; [|done]. simpl.
  destruct (insert_ordered _ _ _ _ _ Hord E)
    as [Hord' [(-> & l1 & l2 & E1 & E2 & H1 & H2)|(-> & -> & u & Hu & Hu0)]].
  - intros [= <- <- <-]. split; [|split; [|done]].
    + simpl. rewrite E1, E2. by rewrite Permutation_middle.
    + intros u. rewrite E1. rewrite elem_of_app. intros [?|?]; auto.
  - intros [= <- <- <-]. split; [by destruct lib|]. split; [done|]. by exists u.
Qed.

(** X20: what [Library.addTrack] returns says what it did.  When it
    returns [True] the library holds the tracks it held and the new one,
    which is comparable with and different from each of them, and the
    library file holds the new listing; when it returns [False] the
    library and both files are as they were and the library holds a
    duplicate of the track. *)
Theorem library_addTrack_result (disk0 : Disk) (lib lib' : Library) (disk disk' : Disk)
    (track : Track) (b : bool) :
  stocked disk0 lib disk ->
  Library.addTrack track lib disk = Ok (b, lib', disk') ->
  if b then
    getAllTracks lib' ≡ₚ track :: getAllTracks lib
    /\ (forall u, u ∈ getAllTracks lib -> before u track \/ before track u)
    /\ libraryFile disk' = Content (map Track.toDict (getAllTracks lib'))
  else
    lib' = lib /\ disk' = disk
    /\ exists u, u ∈ getAllTracks lib /\ compareTrackObjects track u = Ok 0%Z.
Proof.
  intros Hst Hadd. pose proof (stocked_ordered _ _ _ Hst) as Hord.
  pose proof (addTrack_outcome _ _ _ _ _ _ Hord Hadd) as H.
  destruct b; [|done]. by destruct H as (? & ? & ? & _).
Qed.

Lemma insert_last t : forall x flag,
  ordered t -> (forall u, u ∈ traverseInOrder t [] -> before u x) ->
  exists t', insertTrackRecursive t x flag = Ok (t', true)
             /\ traverseInOrder t' [] = traverseInOrder t [] ++ [x].
Proof.
  induction t as [|y l IHl r IHr]; intros x flag Hord Hlt.
  - by exists (mkTreeNode x NoNode NoNode).
  - inversion Hord as [|? ? ? Hl Hr Hly Hyr]; subst.
    assert (before y x) as Hyx.
    { apply Hlt. rewrite traverseInOrder_node, elem_of_app, elem_of_cons. auto. }
    apply before_after in Hyx.
    destruct (IHr x flag Hr) as (r' & Hins & Hel).
    { intros u Hu. apply Hlt. rewrite traverseInOrder_node, elem_of_app, elem_of_cons. auto. }
    exists (mkTreeNode y l r'). split.
    + cbn [insertTrackRecursive]. rewrite Hyx. simpl. by rewrite Hins.
    + rewrite !traverseInOrder_node, Hel, <-app_assoc. done.
Qed.

Lemma StronglySorted_snoc {A} (R : relation A) l x :
  StronglySorted R (l ++ [x]) -> forall u, u ∈ l -> R u x.
Proof.
  intros H u Hu. eapply StronglySorted_app_1_elem_of; [exact H|done|]. by left.
Qed.

Lemma loadTracks_sorted ts : forall root,
  ordered root -> StronglySorted before (traverseInOrder root [] ++ ts) ->
  exists root', loadTracks (map Track.toDict ts) root = (root', true)
                /\ traverseInOrder root' [] = traverseInOrder root [] ++ ts.
Proof.
  induction ts as [|t ts IH]; intros root Hord Hs.
  - exists root. by rewrite app_nil_r.
  - cbn [map loadTracks]. rewrite fromDict_toDict.
    destruct (insert_last root t false Hord) as (root1 & Hins & Hel).
    { apply (StronglySorted_snoc before).
      rewrite (cons_middle t) , app_assoc in Hs. by apply StronglySorted_app_1_l in Hs. }
    rewrite Hins. simpl.
    destruct (IH root1) as (root' & Hld & Hel').
    { by destruct (insert_ordered _ _ _ _ _ Hord Hins). }
    { rewrite Hel, <-app_assoc. done. }
    exists root'. split; [done|]. rewrite Hel', Hel, <-app_assoc. done.
Qed.

Lemma init_of_saved disk ts :
  libraryFile disk = Content (map Track.toDict ts) -> StronglySorted before ts ->
  getAllTracks (Library.init disk) = ts.
Proof.
  intros Hf Hs. unfold Library.init, loadLibraryFromFile. simpl. rewrite Hf.
  destruct (loadTracks_sorted ts NoNode ordered_none Hs) as (root' & -> & Hel).
  simpl in *. exact Hel.
Qed.

Lemma init_shelved disk :
  libraryFile disk = Absent
  \/ (exists ts, libraryFile disk = Content (map Track.toDict ts) /\ StronglySorted before ts) ->
  shelved (Library.init disk) disk.
Proof.
  intros [Hf|(ts & Hf & Hs)].
  - left. split; [done|]. unfold Library.init, loadLibraryFromFile. simpl. by rewrite Hf.
  - right. by rewrite (init_of_saved disk ts).
Qed.

Lemma stocked_shelved disk0 lib disk :
  shelved (Library.init disk0) disk0 -> stocked disk0 lib disk -> shelved lib disk.
Proof.
  intros H0. induction 1 as [|track lib disk b lib' disk' Hst IH Hadd]; [done|].
  pose proof (addTrack_outcome lib lib' disk disk' track b (stocked_ordered _ _ _ Hst) Hadd)
    as Hres.
  destruct b.
  - right. by destruct Hres as (_ & _ & -> & _).
  - by destruct Hres as (-> & -> & _).
Qed.

Lemma kept_saved disk :
  kept disk ->
  libraryFile disk = Absent
  \/ (exists ts, libraryFile disk = Content (map Track.toDict ts) /\ StronglySorted before ts).
Proof.
  induction 1 as [|disk0 lib disk _ IH Hst]; [by left|].
  destruct (stocked_shelved disk0 lib disk (init_shelved disk0 IH) Hst) as [[Hf _]|Hf].
  - by left.
  - right. exists (getAllTracks lib). split; [done|].
    apply ordered_sorted. by eapply stocked_ordered.
Qed.

Lemma insert_last_spine t : forall x flag,
  spine t -> (forall u, u ∈ traverseInOrder t [] -> before u x) ->
  exists t', insertTrackRecursive t x flag = Ok (t', true)
             /\ spine t' /\ height t' = S (height t).
Proof.
  induction t as [|y l IHl r IHr]; intros x flag Hsp Hlt.
  - by exists (mkTreeNode x NoNode NoNode).
  - destruct Hsp as [-> Hsp].
    assert (before y x) as Hyx.
    { apply Hlt. rewrite traverseInOrder_node, elem_of_app, elem_of_cons. auto. }
    apply before_after in Hyx.
    destruct (IHr x flag Hsp) as (r' & Hins & Hsp' & Hh).
    { intros u Hu. apply Hlt. rewrite traverseInOrder_node, elem_of_app, elem_of_cons. auto. }
    exists (mkTreeNode y NoNode r'). split; [|split; [done|]].
    + cbn [insertTrackRecursive]. rewrite Hyx. simpl. by rewrite Hins.
    + simpl. by rewrite Hh.
Qed.

Lemma loadTracks_spine ts : forall root,
  ordered root -> spine root -> StronglySorted before (traverseInOrder root [] ++ ts) ->
  exists root', loadTracks (map Track.toDict ts) root = (root', true)
                /\ spine root' /\ height root' = height root + length ts.
Proof.
  induction ts as [|t ts IH]; intros root Hord Hsp Hs.
  - exists root. split; [done|]. split; [done|]. simpl. lia.
  - assert (forall u, u ∈ traverseInOrder root [] -> before u t) as Hlt.
    { apply (StronglySorted_snoc before).
      rewrite (cons_middle t) , app_assoc in Hs. by apply StronglySorted_app_1_l in Hs. }
    cbn [map loadTracks]. rewrite fromDict_toDict.
    destruct (insert_last root t false Hord Hlt) as (root1 & Hins & Hel).
    destruct (insert_last_spine root t false Hsp Hlt) as (root2 & Hins2 & Hsp2 & Hh2).
    rewrite Hins in Hins2. injection Hins2 as <-.
    rewrite Hins. simpl.
    destruct (IH root1) as (root' & Hld & Hsp' & Hh').
    { by destruct (insert_ordered _ _ _ _ _ Hord Hins). }
    { done. }
    { rewrite Hel, <-app_assoc. done. }
    exists root'. split; [done|]. split; [done|]. rewrite Hh', Hh2. simpl. lia.
Qed.

Lemma init_height disk ts :
  libraryFile disk = Content (map Track.toDict ts) -> StronglySorted before ts ->
  height (rootNode (Library.init disk)) = length ts.
Proof.
  intros Hf Hs. unfold Library.init, loadLibraryFromFile. simpl. rewrite Hf.
  destruct (loadTracks_spine ts NoNode ordered_none I Hs) as (root' & -> & _ & Hh).
  simpl in *. exact Hh.
Qed.

(** X21: the library file carries the library from one process to the
    next: after any number of processes, the first of which found no
    file, a new [Library()] lists exactly the tracks, in the same order,
    that the library of the last process listed.  The tree it builds from
    the sorted file is a chain as deep as the library is long, whatever
    shape the tree had when the file was written.  The recursion limit of
    the interpreter is not modelled: the statement is about libraries so
    small that no call reaches it, in any of the processes. *)
Theorem library_survives_restart (disk0 : Disk) (lib : Library) (disk : Disk) :
  kept disk0 -> stocked disk0 lib disk ->
  getAllTracks (Library.init disk) = getAllTracks lib
  /\ height (rootNode (Library.init disk)) = length (getAllTracks lib).
Proof.
  intros Hk Hst.
  destruct (stocked_shelved disk0 lib disk (init_shelved disk0 (kept_saved disk0 Hk)) Hst)
    as [[Hf Hnil]|Hf].
  - rewrite Hnil. unfold Library.init, loadLibraryFromFile. simpl. by rewrite Hf.
  - assert (StronglySorted before (getAllTracks lib)) as Hs.
    { apply ordered_sorted. by eapply stocked_ordered. }
    split; [by apply init_of_saved|by apply init_height].
Qed.

End Libraries.

Section AlbumsOfTheLibrary.

Lemma dict_get_set {V} (d : list (string * V)) k v k' :
  dict_get (dict_set d k v) k' = if String.eqb k k' then Some v else dict_get d k'.
Proof.
  induction d as [|[k0 v0] d IH]; simpl.
  - done.
  - destruct (String.eqb_spec k0 k) as [->|Hne]; simpl.
    + by destruct (String.eqb k k').
    + rewrite IH. destruct (String.eqb_spec k0 k') as [->|Hne'].
      * by rewrite (proj2 (String.eqb_neq k k')) by congruence.
      * done.
Qed.

Lemma addTrackToAlbum_get track mgr k :
  dict_get (albumCollection (addTrackToAlbum track mgr).1) k =
    if String.eqb (trackAlbum track) k then
      Some (appendTrack track
              (default (Album.init (trackAlbum track))
                 (dict_get (albumCollection mgr) (trackAlbum track)))).2
    else dict_get (albumCollection mgr) k.
Proof.
  unfold addTrackToAlbum, getOrCreateAlbum.
  destruct (dict_get (albumCollection mgr) (trackAlbum track)) as [a|] eqn:E; simpl.
  - by rewrite dict_get_set.
  - rewrite !dict_get_set. by destruct (String.eqb _ k).
Qed.

Lemma appendTrack_tracks track album t :
  t ∈ albumTracks (appendTrack track album).2 -> t ∈ albumTracks album \/ t = track.
Proof.
  unfold appendTrack. destruct (existsb _ _); simpl; [auto|].
  rewrite elem_of_app, list_elem_of_singleton. auto.
Qed.

Lemma appendTrack_keeps track album t :
  t ∈ albumTracks album -> t ∈ albumTracks (appendTrack track album).2.
Proof.
  unfold appendTrack. destruct (existsb _ _); simpl; [auto|].
  rewrite elem_of_app. auto.
Qed.

Lemma appendTrack_holds track album :
  exists u, u ∈ albumTracks (appendTrack track album).2 /\ __eq__ u track = true.
Proof.
  unfold appendTrack. destruct (existsb _ _) eqn:E; simpl.
  - apply existsb_exists in E as (u & Hu & Heq). exists u.
    split; [by apply list_elem_of_In|done].
  - exists track. split; [|apply eq_refl_track]. rewrite elem_of_app, list_elem_of_singleton.
    auto.
Qed.

Lemma addTrack_shelves_agree lib lib' disk disk' track b :
  ordered (rootNode lib) -> shelves_agree lib ->
  Library.addTrack track lib disk = Ok (b, lib', disk') ->
  shelves_agree lib'.
Proof.
  intros Hord [Halb Htr] Hadd.
  pose proof (addTrack_outcome _ _ _ _ _ _ Hord Hadd) as Hres.
  destruct b; [|by destruct Hres as (-> & _)].
  destruct Hres as (Hperm & _ & _ & Hmgr & _).
  assert (forall t, t ∈ getAllTracks lib' <-> t = track \/ t ∈ getAllTracks lib) as Hin.
  { intros t. rewrite Hperm. apply elem_of_cons. }
  unfold shelves_agree, getAlbum, getTracks, getName in *. rewrite Hmgr. split.
  - intros name album. rewrite addTrackToAlbum_get.
    destruct (String.eqb_spec (trackAlbum track) name) as [<-|Hne].
    + intros [= <-]. rewrite appendTrack_name.
      destruct (dict_get (albumCollection (albumMgr lib)) (trackAlbum track)) as [a0|] eqn:E;
        simpl.
      * destruct (Halb _ _ E) as [Hname Hts]. split; [done|].
        intros t Ht. apply appendTrack_tracks in Ht as [Ht| ->].
        -- destruct (Hts t Ht). rewrite Hin. auto.
        -- rewrite Hin. auto.
      * split; [done|]. intros t Ht. apply list_elem_of_singleton in Ht as ->.
        rewrite Hin. auto.
    + intros E. destruct (Halb _ _ E) as [Hname Hts]. split; [done|].
      intros t Ht. destruct (Hts t Ht). rewrite Hin. auto.
  - intros t. rewrite Hin. rewrite addTrackToAlbum_get. intros [->|Ht].
    + rewrite String.eqb_refl.
      destruct (appendTrack_holds track
                  (default (Album.init (trackAlbum track))
                     (dict_get (albumCollection (albumMgr lib)) (trackAlbum track))))
        as (u & Hu & Heq).
      eauto.
    + destruct (Htr t Ht) as (album & u & E & Hu & Heq).
      destruct (String.eqb_spec (trackAlbum track) (trackAlbum t)) as [Heqn|Hne].
      * rewrite Heqn, E. simpl. eexists _, u. split; [done|]. split; [|done].
        by apply appendTrack_keeps.
      * eauto.
Qed.

Lemma stocked_shelves_agree lib disk :
  stocked (mkDisk Absent Absent) lib disk -> shelves_agree lib.
Proof.
  induction 1 as [|track lib disk b lib' disk' Hst IH Hadd].
  - split.
    + intros name album. done.
    + intros t Ht. by apply elem_of_nil in Ht.
  - eapply addTrack_shelves_agree; [by eapply stocked_ordered|done|done].
Qed.

(** X22: in a process that started without files, the albums follow the
    library: every album is stored under its own name and holds only
    tracks of the library whose album is that name; and for every track
    of the library the album of its name exists and holds a track equal to
    it by [Track.__eq__] (not always the track itself: a track whose artist
    is a list and one whose artist is the string that prints like that
    list are two tracks for the library and one for the album). *)
Theorem albums_follow_the_library (lib : Library) (disk : Disk) :
  stocked (mkDisk Absent Absent) lib disk ->
  (forall name album,
     getAlbum name (albumMgr lib) = Some album ->
     getName album = name
     /\ forall t, t ∈ getTracks album -> t ∈ getAllTracks lib /\ trackAlbum t = name)
  /\ (forall t, t ∈ getAllTracks lib ->
        exists album u,
          getAlbum (trackAlbum t) (albumMgr lib) = Some album
          /\ u ∈ getTracks album /\ __eq__ u t = true).
Proof. apply stocked_shelves_agree. Qed.

End AlbumsOfTheLibrary.

Section Sound.

Lemma compare_sound a b : sound a -> sound b -> exists c, compareTrackObjects a b = Ok c.
Proof.
  intros [[x Hx] [d Hd]] [[y Hy] [e He]]. rewrite compare_levels, Hx, Hy, Hd, He.
  unfold level. simpl.
  destruct (String.compare _ _); [|eauto..].
  destruct (String.compare _ _); [|eauto..].
  destruct (String.compare _ _); [|eauto..].
  destruct (d ?= e)%Z; eauto.
Qed.

Lemma insert_sound t : forall x flag,
  (forall u, u ∈ traverseInOrder t [] -> sound u) -> sound x ->
  exists r, insertTrackRecursive t x flag = Ok r.
Proof.
  induction t as [|y l IHl r IHr]; intros x flag Hall Hx.
  - by eexists.
  - cbn [insertTrackRecursive].
    destruct (compare_sound x y Hx) as [c Hc].
    { apply Hall. rewrite traverseInOrder_node, elem_of_app, elem_of_cons. auto. }
    rewrite Hc. simpl.
    destruct (IHl x flag) as [rl Hl]; [|done|].
    { intros u Hu. apply Hall. rewrite traverseInOrder_node, elem_of_app. auto. }
    destruct (IHr x flag) as [rr Hr]; [|done|].
    { intros u Hu. apply Hall. rewrite traverseInOrder_node, elem_of_app, elem_of_cons. auto. }
    rewrite Hl, Hr. simpl.
    destruct (c <? 0)%Z; [by eexists|]. destruct (0 <? c)%Z; by eexists.
Qed.

(** X23: [Library.addTrack] raises only on a track that cannot be
    compared: when the primary artist and the duration in seconds of the
    new track and of every track of the library exist, the call returns.
    (The recursion limit of the interpreter apart, which is not
    modelled.) *)
Theorem library_accepts_sound_tracks (lib : Library) (disk : Disk) (track : Track) :
  (forall u, u ∈ getAllTracks lib -> sound u) -> sound track ->
  exists b lib' disk', Library.addTrack track lib disk = Ok (b, lib', disk').
Proof.
  intros Hall Ht. unfold Library.addTrack.
  destruct (insert_sound (rootNode lib) track false Hall Ht) as [[root' f] ->]. simpl.
  destruct f; by eexists _, _, _.
Qed.

End Sound.

Section AlbumNames.

Lemma dict_set_keys {V} (d : list (string * V)) k v :
  (dict_set d k v).*1 = if bool_decide (k ∈ d.*1) then d.*1 else d.*1 ++ [k].
Proof.
  induction d as [|[k0 v0] d IH]; cbn [dict_set fmap list_fmap].
  - by rewrite bool_decide_eq_false_2 by apply not_elem_of_nil.
  - destruct (String.eqb_spec k0 k) as [->|Hne]; cbn [fmap list_fmap fst].
    + by rewrite bool_decide_eq_true_2 by (by left).
    + rewrite IH. case_bool_decide as Hin.
      * by rewrite bool_decide_eq_true_2 by (by right).
      * rewrite bool_decide_eq_false_2; [done|].
        intros Hin'. apply elem_of_cons in Hin' as [->|?]; done.
Qed.

Lemma dict_get_Some {V} (d : list (string * V)) k : is_Some (dict_get d k) <-> k ∈ d.*1.
Proof.
  induction d as [|[k0 v0] d IH]; simpl.
  - split; [by intros [? ?]|by intros ?%elem_of_nil].
  - destruct (String.eqb_spec k0 k) as [->|Hne].
    + split; [intros _; by left|eauto].
    + rewrite IH, elem_of_cons. split; [auto|]. intros [?|?]; [congruence|done].
Qed.

Lemma addTrackToAlbum_names track mgr :
  getAlbumNames (addTrackToAlbum track mgr).1 =
    if bool_decide (trackAlbum track ∈ getAlbumNames mgr) then getAlbumNames mgr
    else getAlbumNames mgr ++ [trackAlbum track].
Proof.
  unfold addTrackToAlbum, getOrCreateAlbum, getAlbumNames.
  destruct (dict_get (albumCollection mgr) (trackAlbum track)) as [a|] eqn:E; simpl.
  - by rewrite dict_set_keys.
  - rewrite !dict_set_keys.
    assert (trackAlbum track ∉ (albumCollection mgr).*1) as Hnot.
    { intros Hin. apply dict_get_Some in Hin as [? ?]. congruence. }
    rewrite (bool_decide_eq_false_2 _ Hnot).
    rewrite bool_decide_eq_true_2; [done|]. apply elem_of_app. right. by left.
Qed.

Lemma managed_names mgr : managed mgr -> NoDup (getAlbumNames mgr).
Proof.
  induction 1 as [|track mgr _ IH]; [constructor|].
  rewrite addTrackToAlbum_names. case_bool_decide as Hin; [done|].
  apply NoDup_app. split; [done|]. split; [|apply NoDup_singleton].
  intros k Hk Hk'. apply list_elem_of_singleton in Hk'. by subst.
Qed.

(** X24: the album manager numbers the albums in the order in which
    their first tracks arrived.  The names are all different;
    [addTrackToAlbum] leaves the list of names as it is when the album of
    the track is there and appends the name at the end when it is new; the
    album that [getAlbumByIndex] returns for a position of the list is the
    one stored under the name at that position; and an index outside the
    list gives [None]. *)
Theorem album_names_in_order_of_first_track (mgr : AlbumManager) (track : Track) :
  managed mgr ->
  NoDup (getAlbumNames mgr)
  /\ getAlbumNames (addTrackToAlbum track mgr).1 =
       (if bool_decide (trackAlbum track ∈ getAlbumNames mgr) then getAlbumNames mgr
        else getAlbumNames mgr ++ [trackAlbum track])
  /\ (forall i name,
        getAlbumNames mgr !! i = Some name ->
        exists album,
          getAlbumByIndex (Z.of_nat i) mgr = Some album /\ getAlbum name mgr = Some album)
  /\ (forall index,
        (index < 0 \/ Z.of_nat (length (getAlbumNames mgr)) <= index)%Z ->
        getAlbumByIndex index mgr = None).
Proof.
  intros Hm. split; [by apply managed_names|]. split; [apply addTrackToAlbum_names|]. split.
  - intros i name Hi. unfold getAlbumByIndex, getAlbum.
    assert (i < length (getAlbumNames mgr)) as Hlt by (by eapply lookup_lt_Some).
    assert ((0 <=? Z.of_nat i)%Z && (Z.of_nat i <? Z.of_nat (length (getAlbumNames mgr)))%Z
            = true) as ->.
    { apply andb_true_iff. split; [apply Z.leb_le|apply Z.ltb_lt]; lia. }
    rewrite Nat2Z.id, Hi. simpl.
    destruct (proj2 (dict_get_Some (albumCollection mgr) name)) as [album Ha].
    { by eapply list_elem_of_lookup_2. }
    exists album. done.
  - intros index Hidx. unfold getAlbumByIndex.
    destruct (Z.leb_spec 0 index), (Z.ltb_spec index (Z.of_nat (length (getAlbumNames mgr))));
      simpl; try done; lia.
Qed.

End AlbumNames.

End TheLibrary.

(** ** Playlists *)

Section ThePlaylists.

Local Open Scope result_scope.
Import Playlist.

Section TupleOrder.

Lemma component_eqb_eq a b : component_eqb a b = true <-> a = b.
Proof.
  destruct a, b; simpl; try (split; [done|congruence]).
  - rewrite Z.eqb_eq. split; congruence.
  - rewrite String.eqb_eq. split; congruence.
  - rewrite Z.eqb_eq. split; congruence.
Qed.

Lemma component_eqb_refl a : component_eqb a a = true.
Proof. by apply component_eqb_eq. Qed.

Lemma component_ltb_irrefl a : component_ltb a a = false.
Proof.
  destruct a; simpl.
  - apply Z.ltb_irrefl.
  - unfold String.ltb. by rewrite string_compare_refl.
  - apply Z.ltb_irrefl.
Qed.

Lemma component_ltb_trans a b c :
  component_ltb a b = true -> component_ltb b c = true -> component_ltb a c = true.
Proof.
  destruct a, b, c; simpl; try done.
  - rewrite !Z.ltb_lt. lia.
  - unfold String.ltb. intros H1 H2.
    destruct (String.compare s s0) eqn:E1; try done.
    destruct (String.compare s0 s1) eqn:E2; try done.
    by rewrite (string_compare_lt_trans _ _ _ E1 E2).
  - rewrite !Z.ltb_lt. lia.
Qed.

Lemma tuple_ltb_irrefl x : tuple_ltb x x = false.
Proof. induction x as [|a x IH]; [done|]. simpl. by rewrite component_eqb_refl. Qed.

Lemma tuple_ltb_trans x : forall y z,
  tuple_ltb x y = true -> tuple_ltb y z = true -> tuple_ltb x z = true.
Proof.
  induction x as [|a x IH]; intros [|b y] [|c z]; simpl; try done.
  destruct (component_eqb a b) eqn:Eab, (component_eqb b c) eqn:Ebc.
  - apply component_eqb_eq in Eab, Ebc. subst. rewrite component_eqb_refl. apply IH.
  - apply component_eqb_eq in Eab. subst. by rewrite Ebc.
  - apply component_eqb_eq in Ebc. subst. by rewrite Eab.
  - intros H1 H2. destruct (component_eqb a c) eqn:Eac.
    + apply component_eqb_eq in Eac. subst.
      pose proof (component_ltb_trans _ _ _ H1 H2) as H. by rewrite component_ltb_irrefl in H.
    + by eapply component_ltb_trans.
Qed.

Lemma tuple_ltb_asym x y : tuple_ltb x y = true -> tuple_ltb y x = false.
Proof.
  intros H. destruct (tuple_ltb y x) eqn:E; [|done].
  pose proof (tuple_ltb_trans _ _ _ H E) as H'. by rewrite tuple_ltb_irrefl in H'.
Qed.

End TupleOrder.

Section Sort.

Local Abbreviation has_key := (fun x : keyed_entry => is_Some x.1).
Local Abbreviation key_is k := (fun x : keyed_entry => x.1 = Some k).

Lemma filter_none {A} (P : A -> Prop) `{forall x, Decision (P x)} (l : list A) :
  Forall (fun x => ~ P x) l -> filter P l = [].
Proof.
  induction 1 as [|x l Hx _ IH]; [done|]. rewrite filter_cons.
  by destruct (decide (P x)).
Qed.

Lemma sorted_lookup {A} (R : A -> A -> Prop) (l : list A) : forall i j x y,
  StronglySorted R l -> i < j -> l !! i = Some x -> l !! j = Some y -> R x y.
Proof.
  induction l as [|z l IH]; intros i j x y Hl Hij Hi Hj; [done|].
  apply StronglySorted_inv in Hl as [Hl Hall].
  destruct j as [|j]; [lia|]. simpl in Hj. destruct i as [|i].
  - injection Hi as ->. apply (proj1 (Forall_lookup _ _) Hall _ _ Hj).
  - simpl in Hi. apply (IH i j); [done|lia|done|done].
Qed.

Lemma insert_spec x : forall sorted,
  is_Some x.1 -> Forall has_key sorted -> StronglySorted keyed_le sorted ->
  exists sorted',
    insert x sorted = Ok sorted'
    /\ sorted' ≡ₚ sorted ++ [x]
    /\ StronglySorted keyed_le sorted'
    /\ forall k, filter (key_is k) sorted' = filter (key_is k) sorted ++ filter (key_is k) [x].
Proof.
  intros sorted [kx Hx]. induction sorted as [|y rest IH]; intros Hkeys Hsorted.
  - exists [x]. split; [done|]. split; [done|]. split; [repeat constructor|done].
  - apply Forall_cons in Hkeys as [[ky Hy] Hkeys].
    apply StronglySorted_inv in Hsorted as [Hrest Hall].
    cbn [insert]. rewrite Hx, Hy. cbn [key_ltb result_bind].
    destruct (tuple_ltb kx ky) eqn:Hlt.
    + exists (x :: y :: rest). split; [done|]. split.
      { by rewrite (Permutation_app_comm _ [x]). }
      split.
      { constructor; [by constructor|]. constructor.
        - unfold keyed_le. rewrite Hx, Hy. by apply tuple_ltb_asym.
        - eapply Forall_impl; [exact Hall|]. intros z. unfold keyed_le. rewrite Hx, Hy.
          destruct z.1 as [kz|]; [|done]. intros Hyz.
          destruct (tuple_ltb kz kx) eqn:Hzx; [|done].
          by rewrite (tuple_ltb_trans _ _ _ Hzx Hlt) in Hyz. }
      intros k. rewrite (filter_cons _ x), (filter_cons _ x []), filter_nil.
      destruct (decide (x.1 = Some k)) as [Hk|Hk]; [|by rewrite app_nil_r].
      assert (Forall (fun z : keyed_entry => z.1 <> Some k) (y :: rest)) as Hnone;
        [|by rewrite !(filter_none _ (y :: rest)) by done].
      rewrite Hx in Hk. injection Hk as ->.
      constructor.
      * rewrite Hy. intros [= ->]. by rewrite tuple_ltb_irrefl in Hlt.
      * eapply Forall_impl; [exact Hall|]. intros z. unfold keyed_le. rewrite Hy.
        intros Hyz Hz. rewrite Hz in Hyz. congruence.
    + destruct (IH Hkeys Hrest) as (below & -> & Hperm & Hbelow & Hfilter).
      exists (y :: below). split; [done|]. split; [by rewrite Hperm|]. split.
      { constructor; [done|]. rewrite Hperm. apply Forall_app. split; [done|].
        constructor; [|done]. unfold keyed_le. by rewrite Hx, Hy. }
      intros k. rewrite !(filter_cons _ y), Hfilter.
      by destruct (decide (y.1 = Some k)).
Qed.

Lemma sort_into_spec rest : forall sorted,
  Forall has_key sorted -> Forall has_key rest -> StronglySorted keyed_le sorted ->
  exists sorted',
    sort_into sorted rest = Ok sorted'
    /\ sorted' ≡ₚ sorted ++ rest
    /\ StronglySorted keyed_le sorted'
    /\ forall k, filter (key_is k) sorted' = filter (key_is k) sorted ++ filter (key_is k) rest.
Proof.
  induction rest as [|x rest IH]; intros sorted Hkeys Hrest Hsorted.
  - exists sorted. rewrite app_nil_r. split; [done|]. split; [done|]. split; [done|].
    intros k. by rewrite app_nil_r.
  - apply Forall_cons in Hrest as [Hx Hrest].
    destruct (insert_spec x sorted Hx Hkeys Hsorted) as (s1 & Hrun & Hperm & Hs1 & Hfilter).
    cbn [sort_into]. rewrite Hrun. cbn [result_bind].
    destruct (IH s1) as (s2 & -> & Hperm2 & Hs2 & Hfilter2); [|done|done|].
    { rewrite Hperm. apply Forall_app. split; [done|]. by constructor. }
    exists s2. split; [done|]. split.
    { rewrite Hperm2, Hperm. by rewrite <-app_assoc. }
    split; [done|]. intros k.
    rewrite Hfilter2, Hfilter, <-app_assoc. f_equal.
    by rewrite (filter_cons _ x rest), (filter_cons _ x []), filter_nil;
      destruct (decide (x.1 = Some k)).
Qed.

Lemma insert_perm x : forall sorted l, insert x sorted = Ok l -> l ≡ₚ sorted ++ [x].
Proof.
  induction sorted as [|y rest IH]; intros l; cbn [insert].
  - by intros [= <-].
  - destruct (key_ltb x.1 y.1) as [[|]|]; cbn [result_bind]; [| |done].
    + intros [= <-]. by rewrite (Permutation_app_comm _ [x]).
    + destruct (insert x rest) as [below|]; [|done]. cbn [result_bind].
      intros [= <-]. simpl. by rewrite (IH below).
Qed.

Lemma sort_into_perm rest : forall sorted l, sort_into sorted rest = Ok l -> l ≡ₚ sorted ++ rest.
Proof.
  induction rest as [|x rest IH]; intros sorted l; cbn [sort_into].
  - intros [= <-]. by rewrite app_nil_r.
  - destruct (insert x sorted) as [s1|] eqn:E; [|done]. cbn [result_bind]. intros Hrun.
    rewrite (IH _ _ Hrun), (insert_perm _ _ _ E). by rewrite <-app_assoc.
Qed.

Lemma keyed_entries sortCriteria : forall entries keys,
  keyed sortCriteria entries = Ok keys -> keys.*2 = entries.
Proof.
  induction entries as [|entry entries IH]; intros keys; cbn [keyed].
  - by intros [= <-].
  - destruct (getSortKey sortCriteria entry) as [key|]; [|done]. cbn [result_bind].
    destruct (keyed sortCriteria entries) as [below|]; [|done]. cbn [result_bind].
    intros [= <-]. cbn [fmap list_fmap snd]. by rewrite (IH below).
Qed.

Lemma sortTracks_perm sortCriteria playlist sorted :
  sortTracks sortCriteria playlist = Ok sorted ->
  trackList sorted ≡ₚ trackList playlist
  /\ playlistName sorted = playlistName playlist
  /\ trackIdentifiers sorted = trackIdentifiers playlist
  /\ creationTimestamp sorted = creationTimestamp playlist.
Proof.
  unfold sortTracks. destruct (trackList playlist) as [|first others] eqn:Hlist.
  { intros [= <-]. by rewrite Hlist. }
  destruct (keyed sortCriteria (first :: others)) as [keys|] eqn:Hkeys; [|done].
  cbn [result_bind]. unfold sort.
  destruct (sort_into [] keys) as [s|] eqn:Hsort; [|done]. cbn [result_bind].
  intros [= <-]. cbn [trackList playlistName trackIdentifiers creationTimestamp].
  split; [|done].
  apply sort_into_perm in Hsort. simpl in Hsort.
  by rewrite Hsort, (keyed_entries _ _ _ Hkeys).
Qed.

Lemma getSortKey_sound sortCriteria entry :
  sortCriteria ∈ criteria -> sound entry.1 ->
  exists key, getSortKey sortCriteria entry = Ok (Some key).
Proof.
  intros Hc [[artist Ha] [seconds Hs]]. destruct entry as [trackObj added]. simpl in *.
  unfold getSortKey. rewrite Ha, Hs. cbn [result_bind].
  repeat (apply elem_of_cons in Hc as [->|Hc]; [by eexists|]).
  by apply elem_of_nil in Hc.
Qed.

Lemma getSortKey_unsound sortCriteria entry :
  sortCriteria ∈ criteria -> ~ sound entry.1 ->
  exists e, getSortKey sortCriteria entry = Err e.
Proof.
  intros Hc Hno. destruct entry as [trackObj added]. simpl in *.
  unfold getSortKey, sound in *.
  destruct (getPrimaryArtist trackObj) as [artist|e1] eqn:Ha,
    (convertDurationToSeconds trackObj) as [seconds|e2] eqn:Hs.
  - destruct Hno. eauto.
  - repeat (apply elem_of_cons in Hc as [->|Hc]; [by eexists|]). by apply elem_of_nil in Hc.
  - repeat (apply elem_of_cons in Hc as [->|Hc]; [by eexists|]). by apply elem_of_nil in Hc.
  - repeat (apply elem_of_cons in Hc as [->|Hc]; [by eexists|]). by apply elem_of_nil in Hc.
Qed.

Lemma getSortKey_unknown sortCriteria entry :
  sortCriteria ∉ criteria -> getSortKey sortCriteria entry = Ok None.
Proof.
  intros Hc. destruct entry as [trackObj added]. unfold getSortKey.
  repeat match goal with
  | |- context [String.eqb sortCriteria ?s] =>
      destruct (String.eqb_spec sortCriteria s) as [->|_];
      [destruct Hc; unfold criteria; rewrite !elem_of_cons; tauto|]
  end.
  done.
Qed.

Lemma keyed_sound sortCriteria entries :
  sortCriteria ∈ criteria -> Forall (fun entry => sound entry.1) entries ->
  exists keys,
    keyed sortCriteria entries = Ok keys
    /\ keys.*2 = entries
    /\ Forall has_key keys
    /\ Forall (fun x : keyed_entry => getSortKey sortCriteria x.2 = Ok x.1) keys.
Proof.
  intros Hc. induction 1 as [|entry entries He _ (keys & Hrun & Hsnd & Hkeys & Hfrom)].
  - by exists [].
  - destruct (getSortKey_sound sortCriteria entry Hc He) as [key Hkey].
    exists ((Some key, entry) :: keys). cbn [keyed]. rewrite Hkey, Hrun. cbn [result_bind].
    split; [done|]. split; [cbn [fmap list_fmap snd]; by rewrite Hsnd|].
    split; constructor; done.
Qed.

Lemma keyed_unsound sortCriteria entries entry :
  sortCriteria ∈ criteria -> entry ∈ entries -> ~ sound entry.1 ->
  exists e, keyed sortCriteria entries = Err e.
Proof.
  intros Hc Hin Hno. induction Hin as [entry entries|entry other entries _ IH].
  - destruct (getSortKey_unsound sortCriteria entry Hc Hno) as [e He].
    exists e. cbn [keyed]. by rewrite He.
  - destruct (IH Hno) as [e He]. cbn [keyed]. rewrite He.
    destruct (getSortKey sortCriteria other); by eexists.
Qed.

Lemma keyed_unknown sortCriteria entries :
  sortCriteria ∉ criteria ->
  keyed sortCriteria entries = Ok ((fun entry => (None, entry)) <$> entries).
Proof.
  intros Hc. induction entries as [|entry entries IH]; [done|].
  cbn [keyed]. by rewrite (getSortKey_unknown _ _ Hc), IH.
Qed.

Lemma filter_keys sortCriteria (keys : list keyed_entry) k :
  Forall (fun x : keyed_entry => getSortKey sortCriteria x.2 = Ok x.1) keys ->
  filter (fun entry => getSortKey sortCriteria entry = Ok (Some k)) keys.*2
  = (filter (key_is k) keys).*2.
Proof.
  induction 1 as [|x keys Hx _ IH]; [done|].
  cbn [fmap list_fmap]. rewrite !filter_cons, IH, Hx.
  destruct (decide (Ok x.1 = Ok (Some k))) as [Heq|Hne], (decide (x.1 = Some k)) as [Hk|Hk];
    try done; congruence.
Qed.

End Sort.

(** X25: for one of the four criteria and a playlist whose tracks all
    have a primary artist and a duration in seconds, [sortTracks] returns;
    it keeps the name, the creation time and the identifiers; the entries
    afterwards are the entries before, each as often as before; no entry
    comes before one with a smaller key; and entries with the same key
    stay in the order they had. *)
Theorem playlist_sort_orders_the_tracks (sortCriteria : string) (playlist : Playlist) :
  sortCriteria ∈ criteria ->
  (forall track, track ∈ getTracks playlist -> sound track) ->
  exists sorted,
    sortTracks sortCriteria playlist = Ok sorted
    /\ getName sorted = getName playlist
    /\ getCreationTime sorted = getCreationTime playlist
    /\ trackIdentifiers sorted = trackIdentifiers playlist
    /\ trackList sorted ≡ₚ trackList playlist
    /\ (forall i j earlier later,
          i < j -> trackList sorted !! i = Some earlier -> trackList sorted !! j = Some later ->
          exists key1 key2,
            getSortKey sortCriteria earlier = Ok (Some key1)
            /\ getSortKey sortCriteria later = Ok (Some key2)
            /\ tuple_ltb key2 key1 = false)
    /\ (forall key,
          filter (fun entry => getSortKey sortCriteria entry = Ok (Some key)) (trackList sorted)
          = filter (fun entry => getSortKey sortCriteria entry = Ok (Some key))
              (trackList playlist)).
Proof.
  intros Hc Hsound. unfold sortTracks.
  destruct (trackList playlist) as [|first others] eqn:Hlist.
  { exists playlist. rewrite Hlist. repeat split; [done|]. intros i j ? ? _ Hi. done. }
  rewrite <-Hlist.
  destruct (keyed_sound sortCriteria (trackList playlist) Hc)
    as (keys & -> & Hsnd & Hkeys & Hfrom).
  { apply Forall_forall. intros entry Hin. apply Hsound. unfold getTracks.
    by apply list_elem_of_fmap_2. }
  cbn [result_bind]. unfold sort.
  destruct (sort_into_spec keys []) as (s & -> & Hperm & Hs & Hfilter);
    [constructor|done|constructor|].
  cbn [result_bind]. eexists. split; [done|]. simpl in Hperm.
  assert (Forall (fun x : keyed_entry => getSortKey sortCriteria x.2 = Ok x.1) s) as Hfrom'.
  { by rewrite Hperm. }
  split; [done|]. split; [done|]. split; [done|]. cbn [trackList]. split.
  { by rewrite Hperm, Hsnd. }
  split.
  - intros i j earlier later Hij Hi Hj.
    apply list_lookup_fmap_Some in Hi as (x & -> & Hx).
    apply list_lookup_fmap_Some in Hj as (y & -> & Hy).
    pose proof (proj1 (Forall_lookup _ _) Hfrom' _ _ Hx) as Hkx.
    pose proof (proj1 (Forall_lookup _ _) Hfrom' _ _ Hy) as Hky.
    simpl in Hkx, Hky.
    assert (keyed_le x y) as Hle.
    { by apply (sorted_lookup keyed_le s i j x y). }
    unfold keyed_le in Hle. destruct x.1 as [k1|], y.1 as [k2|]; try done.
    by exists k1, k2.
  - intros key. rewrite (filter_keys _ _ _ Hfrom'), Hfilter. simpl.
    by rewrite <-(filter_keys _ _ _ Hfrom), Hsnd.
Qed.

(** X26: one track without a primary artist or without a duration in
    seconds makes the whole playlist unsortable: for each of the four
    criteria [sortTracks] raises, every key being computed from both. *)
Theorem playlist_sort_needs_sound_tracks (sortCriteria : string) (playlist : Playlist)
    (track : Track) :
  sortCriteria ∈ criteria -> track ∈ getTracks playlist -> ~ sound track ->
  exists e, sortTracks sortCriteria playlist = Err e.
Proof.
  intros Hc Hin Hno. unfold getTracks in Hin.
  apply list_elem_of_fmap_1 in Hin as (entry & -> & Hin).
  unfold sortTracks. destruct (trackList playlist) as [|first others] eqn:Hlist.
  { by apply elem_of_nil in Hin. }
  destruct (keyed_unsound sortCriteria (first :: others) entry Hc Hin Hno) as [e ->].
  by exists e.
Qed.

(** X27: a criterion that is not one of the four is not rejected as
    such: [getSortKey] falls off its end, so that every key is [None].
    The call then does nothing at all on a playlist of one track or none,
    and raises [TypeError] on any longer one. *)
Theorem playlist_sort_unknown_criterion (sortCriteria : string) (playlist : Playlist) :
  sortCriteria ∉ criteria ->
  sortTracks sortCriteria playlist =
    (if decide (getSize playlist <= 1) then Ok playlist else Err TypeError).
Proof.
  intros Hc. unfold sortTracks, getSize.
  destruct playlist as [name entries ids created]. cbn [trackList].
  destruct entries as [|first [|second others]]; [done| |].
  - by rewrite keyed_unknown.
  - by rewrite keyed_unknown.
Qed.

Section Playlists.

Import Playlist.

Lemma compiled_identifiers playlist :
  compiled playlist ->
  NoDup (identifier <$> getTracks playlist)
  /\ forall i, i ∈ trackIdentifiers playlist <-> i ∈ identifier <$> getTracks playlist.
Proof.
  induction 1 as [name creationTime now|track now playlist _ [IHnd IHin]
                  |sortCriteria playlist sorted _ [IHnd IHin] Hsort].
  - split; [constructor|]. done.
  - unfold appendTrack, trackExists. case_bool_decide as Hex; [done|]. simpl.
    unfold getTracks in *. simpl. rewrite !fmap_app. simpl. split.
    + apply NoDup_app. split; [done|]. split; [|apply NoDup_singleton].
      intros i Hi Hi'. apply list_elem_of_singleton in Hi'. subst i.
      apply Hex. by apply IHin.
    + intros i. rewrite elem_of_cons, elem_of_app, list_elem_of_singleton, IHin. tauto.
  - destruct (sortTracks_perm _ _ _ Hsort) as (Hperm & _ & Hids & _).
    unfold getTracks in *. split; [by rewrite Hperm|].
    intros i. by rewrite Hids, Hperm.
Qed.

(** X28: for a playlist made by [Playlist(name)], [appendTrack] and
    [sortTracks] and tracks of ASCII text: [appendTrack] returns [False]
    exactly when the playlist holds a track with the same identifier, the
    title in small letters followed at once by [str] of the artist in
    small letters, whatever the album and the duration, and then changes
    nothing; otherwise the track is appended at the end; and in either
    case no two positions of the playlist hold tracks with the same
    identifier.  The identifier is one string: tracks with the same title
    and artist up to case share it, and so do tracks whose title and
    artist differ but run together to the same text. *)
Theorem playlist_rejects_same_title_and_artist (playlist : Playlist) (track : Track)
    (now : datetime) :
  compiled playlist ->
  (forall u, u ∈ getTracks playlist -> ascii_track u = true) ->
  ascii_track track = true ->
  let appended := appendTrack track now playlist in
  (appended.1 = false <->
     exists u, u ∈ getTracks playlist /\ identifier u = identifier track)
  /\ (appended.1 = false -> appended.2 = playlist)
  /\ (appended.1 = true -> getTracks appended.2 = getTracks playlist ++ [track])
  /\ forall i j a b,
       getTracks appended.2 !! i = Some a -> getTracks appended.2 !! j = Some b ->
       identifier a = identifier b -> i = j.
Proof.
  intros Hc _ _ appended.
  destruct (compiled_identifiers _ Hc) as [Hnd Hin].
  destruct (compiled_identifiers _ (compiled_append track now _ Hc)) as [Hnd' _].
  fold appended in Hnd'.
  split; [|split; [|split]].
  - subst appended. unfold appendTrack, trackExists. case_bool_decide as Hex; simpl.
    + split; [|done]. intros _. apply Hin, list_elem_of_fmap in Hex as (u & Hu & Hin').
      eauto.
    + split; [done|]. intros (u & Hu & Heq). exfalso. apply Hex, Hin.
      apply list_elem_of_fmap. eauto.
  - subst appended. unfold appendTrack. by destruct (trackExists _ _).
  - subst appended. unfold appendTrack. destruct (trackExists _ _); [done|]. intros _.
    unfold getTracks. simpl. by rewrite fmap_app.
  - intros i j a b Hi Hj Heq. eapply NoDup_lookup; [exact Hnd'| |].
    + by rewrite list_lookup_fmap, Hi.
    + rewrite list_lookup_fmap, Hj. simpl. by rewrite Heq.
Qed.

Lemma identifier_of_key a b : key a = key b -> identifier a = identifier b.
Proof. unfold key, identifier. by intros [= -> -> _ _]. Qed.

Lemma compiled_keys playlist : compiled playlist -> NoDup (key <$> getTracks playlist).
Proof.
  intros Hc. destruct (compiled_identifiers _ Hc) as [Hnd _].
  apply NoDup_alt. intros i j k Hi Hj.
  rewrite list_lookup_fmap in Hi, Hj.
  destruct (getTracks playlist !! i) as [a|] eqn:Ea; [|done].
  destruct (getTracks playlist !! j) as [b|] eqn:Eb; [|done].
  simpl in Hi, Hj. injection Hi as Hi. injection Hj as Hj.
  eapply NoDup_lookup; [exact Hnd| |].
  - by rewrite list_lookup_fmap, Ea.
  - rewrite list_lookup_fmap, Eb. simpl. f_equal. apply identifier_of_key. congruence.
Qed.

End Playlists.

End ThePlaylists.

(** ** From the albums and the playlists to the queue *)

(** X29: an album built by [Album] itself (a new album and calls of
    [appendTrack], which is also all [Album.fromDict] does) becomes the
    queue whole, whatever the queue held before: after [clearQueue] and
    [loadTracks] of its tracks the queue holds exactly the tracks of the
    album in their order, as many as [getTrackCount] says, the first one
    current, and the state file is written.  The album and the queue
    reject the same duplicates, so the queue drops nothing. *)
Theorem queue_holds_the_album (album : Album.Album) (w : World) :
  made album ->
  exists w',
    queueTracks (Album.getTracks album) w = Return tt w'
    /\ sequence w' = Some (Album.getTracks album)
    /\ getSize w' = Return (Album.getTrackCount album) w'
    /\ getCurrentTrack w' = Return (head (Album.getTracks album)) w'
    /\ originalSequence (self w') = Album.getTracks album
    /\ serialization w' = Some (file w').
Proof.
  intros Hm.
  destruct (queueTracks_fresh w (Album.getTracks album) (made_keys album Hm))
    as (w' & Hrun & Hseq & Hsize & Hcur & _ & _ & _ & _ & Hog & Hfile).
  by exists w'.
Qed.

(** X30: a playlist built by [Playlist] itself (a new playlist, calls of
    [appendTrack] and sorts) becomes the queue whole and in its current
    order: the playlist rejects a track when title and artist match
    whatever the case, which is more than the queue rejects, so the queue
    drops nothing. *)
Theorem queue_holds_the_playlist (playlist : Playlist.Playlist) (w : World) :
  compiled playlist ->
  exists w',
    queueTracks (Playlist.getTracks playlist) w = Return tt w'
    /\ sequence w' = Some (Playlist.getTracks playlist)
    /\ getSize w' = Return (Playlist.getSize playlist) w'
    /\ getCurrentTrack w' = Return (head (Playlist.getTracks playlist)) w'
    /\ originalSequence (self w') = Playlist.getTracks playlist
    /\ serialization w' = Some (file w').
Proof.
  intros Hc.
  destruct (queueTracks_fresh w (Playlist.getTracks playlist) (compiled_keys playlist Hc))
    as (w' & Hrun & Hseq & Hsize & Hcur & _ & _ & _ & _ & Hog & Hfile).
  exists w'. repeat (split; [done|]). split; [|done].
  unfold Playlist.getSize, Playlist.getTracks in *. by rewrite length_fmap in Hsize.
Qed.

(** ** The theorems on the rest of the program at work on small runs *)

Lemma queueABC_atC_reachable : reachable queueABC_atC.
Proof.
  eapply reachable_step; [apply queueABC_atB_reachable|].
  apply (step_return CallAdvanceToNext). vm_compute. reflexivity.
Qed.

Lemma queueABCD_shuffled_reachable : reachable queueABCD_shuffled.
Proof.
  eapply reachable_step; [apply queueABCD_atB_reachable|].
  apply (step_return (CallShuffleQueue [0])). vm_compute. reflexivity.
Qed.

Lemma queueABC_session : session NoFile queueABC.
Proof.
  eapply session_next; [apply session_startup|].
  apply (session_return (QueueTracks [trackA; trackB; trackC])). vm_compute. reflexivity.
Qed.

Lemma stock_stocked trackCollection : forall disk0 lib disk,
  stocked disk0 lib disk ->
  stocked disk0 (stock trackCollection lib disk).1 (stock trackCollection lib disk).2.
Proof.
  induction trackCollection as [|track rest IH]; intros disk0 lib disk Hst; [done|].
  cbn [stock]. destruct (Library.addTrack track lib disk) as [[[b lib'] disk']|] eqn:E.
  - apply IH. by eapply stocked_add.
  - by apply IH.
Qed.

Lemma libraryCAB_stocked : stocked noDisk libraryCAB diskCAB.
Proof. exact (stock_stocked [trackC; trackA; trackB] noDisk _ _ (stocked_init noDisk)). Qed.

Lemma albumFirst_made : made albumFirst.
Proof. exact (made_append trackB _ (made_append trackA _ (made_init "First"))). Qed.

Lemma managerACB_managed : managed managerACB.
Proof.
  exact (managed_add trackB _ (managed_add trackC _ (managed_add trackA _ managed_init))).
Qed.

Lemma playlistCAB_compiled : compiled playlistCAB.
Proof.
  exact (compiled_append trackB 3%Z _
           (compiled_append trackA 2%Z _
              (compiled_append trackC 1%Z _ (compiled_init "Mix" None 0%Z)))).
Qed.

Lemma tracksABCD_sound : sound trackA /\ sound trackB /\ sound trackC /\ sound trackD.
Proof. repeat split; eexists; vm_compute; reflexivity. Qed.

Lemma current_page_number_witness :
  well_formed queueABC_atB
  /\ sequence queueABC_atB = Some [trackA; trackB; trackC]
  /\ activeIndex queueABC_atB = Some 1%Z
  /\ exists page,
       getCurrentPageNumber queueABC_atB = Return page queueABC_atB
       /\ 1 <= page <= length [trackA; trackB; trackC] / 10 + 1
       /\ ((0 <= 1)%Z -> page = Z.to_nat 1 / 10 + 1)
       /\ (activeNode (self queueABC_atB) = None -> page = 1).
Proof.
  assert (well_formed queueABC_atB) as Hw
    by exact (reachable_from_well_formed _ _ queueABC_atB_reachable).
  assert (sequence queueABC_atB = Some [trackA; trackB; trackC]) as Hseq
    by (vm_compute; reflexivity).
  assert (activeIndex queueABC_atB = Some 1%Z) as Hidx by (vm_compute; reflexivity).
  split; [exact Hw|]. split; [exact Hseq|]. split; [exact Hidx|].
  exact (current_page_number queueABC_atB _ 1%Z Hw Hseq Hidx).
Defined.

Lemma advance_then_rewind_witness :
  well_formed queueABC
  /\ sequence queueABC = Some [trackA; trackB; trackC]
  /\ activeIndex queueABC = Some (Z.of_nat 0)
  /\ [trackA; trackB; trackC] !! 1 = Some trackB
  /\ exists t w1 w2,
       [trackA; trackB; trackC] !! 0 = Some t
       /\ advanceToNext queueABC = Return (Some trackB) w1
       /\ activeIndex w1 = Some (Z.of_nat 1)
       /\ rewindToPrevious w1 = Return (Some t) w2
       /\ store w2 = store queueABC /\ self w2 = self queueABC
       /\ activeIndex w2 = Some (Z.of_nat 0).
Proof.
  assert (well_formed queueABC) as Hw
    by exact (reachable_from_well_formed _ _ queueABC_reachable).
  assert (sequence queueABC = Some [trackA; trackB; trackC]) as Hseq
    by (vm_compute; reflexivity).
  assert (activeIndex queueABC = Some (Z.of_nat 0)) as Hidx by (vm_compute; reflexivity).
  assert ([trackA; trackB; trackC] !! 1 = Some trackB) as Hnext by reflexivity.
  split; [exact Hw|]. split; [exact Hseq|]. split; [exact Hidx|]. split; [exact Hnext|].
  exact (advance_then_rewind queueABC _ 0 trackB Hw Hseq Hidx Hnext).
Defined.

Lemma rewind_at_head_stays_witness :
  well_formed queueABC
  /\ sequence queueABC = Some [trackA; trackB; trackC]
  /\ activeIndex queueABC = Some 0%Z
  /\ repeatEnabled (self queueABC) = false
  /\ exists t w',
       head [trackA; trackB; trackC] = Some t
       /\ rewindToPrevious queueABC = Return (Some t) w'
       /\ store w' = store queueABC /\ self w' = self queueABC
       /\ serialization w' = Some (file w').
Proof.
  assert (well_formed queueABC) as Hw
    by exact (reachable_from_well_formed _ _ queueABC_reachable).
  assert (sequence queueABC = Some [trackA; trackB; trackC]) as Hseq
    by (vm_compute; reflexivity).
  assert (activeIndex queueABC = Some 0%Z) as Hidx by (vm_compute; reflexivity).
  assert (repeatEnabled (self queueABC) = false) as Hrp by reflexivity.
  split; [exact Hw|]. split; [exact Hseq|]. split; [exact Hidx|]. split; [exact Hrp|].
  exact (rewind_at_head_stays queueABC _ Hw Hseq Hidx Hrp).
Defined.

Lemma startPlayback_restarts_at_end_witness :
  reachable queueABC_atC
  /\ sequence queueABC_atC = Some [trackA; trackB; trackC]
  /\ [trackA; trackB; trackC] <> []
  /\ activeIndex queueABC_atC = Some 2%Z
  /\ exists w',
       startPlayback queueABC_atC = Return tt w'
       /\ playbackActive (self w') = true
       /\ sequence w' = Some [trackA; trackB; trackC]
       /\ activeIndex w' =
            Some (if negb (repeatEnabled (self queueABC_atC))
                     && (2 =? Z.of_nat (length [trackA; trackB; trackC]) - 1)%Z
                  then 0%Z else 2%Z).
Proof.
  assert (sequence queueABC_atC = Some [trackA; trackB; trackC]) as Hseq
    by (vm_compute; reflexivity).
  assert ([trackA; trackB; trackC] <> []) as Hne by discriminate.
  assert (activeIndex queueABC_atC = Some 2%Z) as Hidx by (vm_compute; reflexivity).
  split; [exact queueABC_atC_reachable|]. split; [exact Hseq|]. split; [exact Hne|].
  split; [exact Hidx|].
  exact (startPlayback_restarts_at_end queueABC_atC _ 2%Z queueABC_atC_reachable Hseq Hne
           Hidx).
Defined.

Lemma navigation_keeps_tracks_witness :
  well_formed queueABC
  /\ navigates CallAdvanceToNext = true
  /\ exec CallAdvanceToNext queueABC = Return tt queueABC_atB
  /\ sequence queueABC_atB = sequence queueABC
  /\ queueSize (self queueABC_atB) = queueSize (self queueABC)
  /\ originalSequence (self queueABC_atB) = originalSequence (self queueABC)
  /\ shuffleEnabled (self queueABC_atB) = shuffleEnabled (self queueABC).
Proof.
  assert (well_formed queueABC) as Hw
    by exact (reachable_from_well_formed _ _ queueABC_reachable).
  assert (navigates CallAdvanceToNext = true) as Hnav by reflexivity.
  assert (exec CallAdvanceToNext queueABC = Return tt queueABC_atB) as Hrun
    by (vm_compute; reflexivity).
  split; [exact Hw|]. split; [exact Hnav|]. split; [exact Hrun|].
  exact (navigation_keeps_tracks CallAdvanceToNext queueABC queueABC_atB Hw Hnav Hrun).
Defined.

Lemma queue_never_holds_duplicates_witness :
  reachable queueABC_atB
  /\ sequence queueABC_atB = Some [trackA; trackB; trackC]
  /\ forall i j a b,
       [trackA; trackB; trackC] !! i = Some a -> [trackA; trackB; trackC] !! j = Some b ->
       __eq__ a b = true -> i = j.
Proof.
  assert (sequence queueABC_atB = Some [trackA; trackB; trackC]) as Hseq
    by (vm_compute; reflexivity).
  split; [exact queueABC_atB_reachable|]. split; [exact Hseq|].
  exact (queue_never_holds_duplicates queueABC_atB _ queueABC_atB_reachable Hseq).
Defined.

Lemma nonempty_queue_has_current_track_witness :
  reachable queueABC_atB
  /\ sequence queueABC_atB = Some [trackA; trackB; trackC]
  /\ [trackA; trackB; trackC] <> []
  /\ exists k t,
       activeIndex queueABC_atB = Some (Z.of_nat k)
       /\ [trackA; trackB; trackC] !! k = Some t
       /\ getCurrentTrack queueABC_atB = Return (Some t) queueABC_atB.
Proof.
  assert (sequence queueABC_atB = Some [trackA; trackB; trackC]) as Hseq
    by (vm_compute; reflexivity).
  assert ([trackA; trackB; trackC] <> []) as Hne by discriminate.
  split; [exact queueABC_atB_reachable|]. split; [exact Hseq|]. split; [exact Hne|].
  exact (nonempty_queue_has_current_track queueABC_atB _ queueABC_atB_reachable Hseq Hne).
Defined.

Lemma restore_puts_arrivals_last_witness :
  reachable queueABCD_shuffled
  /\ shuffleEnabled (self queueABCD_shuffled) = true
  /\ sequence queueABCD_shuffled = Some [trackA; trackB; trackD; trackC]
  /\ [trackA; trackB; trackD; trackC] <> []
  /\ let original := originalSequence (self queueABCD_shuffled) in
     let restored :=
       original ++ filter (fun t => foundIn original t = false)
                     [trackA; trackB; trackD; trackC] in
     exists w' t t',
       restoreOriginalOrder queueABCD_shuffled = Return tt w'
       /\ sequence w' = Some restored
       /\ originalSequence (self w') = restored
       /\ shuffleEnabled (self w') = false
       /\ getCurrentTrack queueABCD_shuffled = Return (Some t) queueABCD_shuffled
       /\ getCurrentTrack w' = Return (Some t') w'
       /\ __eq__ t' t = true
       /\ serialization w' = Some (file w').
Proof.
  assert (shuffleEnabled (self queueABCD_shuffled) = true) as Hsh by reflexivity.
  assert (sequence queueABCD_shuffled = Some [trackA; trackB; trackD; trackC]) as Hseq
    by (vm_compute; reflexivity).
  assert ([trackA; trackB; trackD; trackC] <> []) as Hne by discriminate.
  split; [exact queueABCD_shuffled_reachable|]. split; [exact Hsh|]. split; [exact Hseq|].
  split; [exact Hne|].
  exact (restore_puts_arrivals_last queueABCD_shuffled _ queueABCD_shuffled_reachable Hsh
           Hseq Hne).
Defined.

Lemma queue_holds_the_collection_witness :
  NoDup (key <$> [trackA; trackB; trackC])
  /\ exists w',
       queueTracks [trackA; trackB; trackC] queueABCD_atB = Return tt w'
       /\ sequence w' = Some [trackA; trackB; trackC]
       /\ getSize w' = Return (length [trackA; trackB; trackC]) w'
       /\ getCurrentTrack w' = Return (head [trackA; trackB; trackC]) w'
       /\ activeIndex w' = Some 0%Z
       /\ shuffleEnabled (self w') = false
       /\ repeatEnabled (self w') = false
       /\ playbackActive (self w') = false
       /\ originalSequence (self w') = [trackA; trackB; trackC]
       /\ serialization w' = Some (file w').
Proof.
  assert (NoDup (key <$> [trackA; trackB; trackC])) as Hnd
    by (apply (bool_decide_unpack (NoDup (key <$> [trackA; trackB; trackC])));
        vm_compute; exact I).
  split; [exact Hnd|].
  exact (queue_holds_the_collection queueABCD_atB [trackA; trackB; trackC] Hnd).
Defined.

Lemma shuffle_needs_two_tracks_witness :
  well_formed (startup NoFile)
  /\ exists w',
       handleToggleShuffle [] (startup NoFile) = Return tt w'
       /\ shuffleEnabled (self w') =
            (if shuffleEnabled (self (startup NoFile)) then false
             else 1 <? queueSize (self (startup NoFile))).
Proof.
  split; [exact (startup_well_formed NoFile)|].
  exact (shuffle_needs_two_tracks [] (startup NoFile) (startup_well_formed NoFile)).
Defined.

Lemma session_keeps_file_in_sync_witness :
  file_ok NoFile /\ session NoFile queueABC /\ (pristine queueABC \/ in_sync queueABC).
Proof.
  assert (file_ok NoFile) as Hf by (left; reflexivity).
  split; [exact Hf|]. split; [exact queueABC_session|].
  exact (session_keeps_file_in_sync NoFile queueABC Hf queueABC_session).
Defined.

Lemma session_never_fails_witness :
  file_ok NoFile
  /\ session NoFile queueABC
  /\ exists w', perform Next queueABC = Return tt w' /\ session NoFile w'.
Proof.
  assert (file_ok NoFile) as Hf by (left; reflexivity).
  split; [exact Hf|]. split; [exact queueABC_session|].
  exact (session_never_fails NoFile Next queueABC Hf queueABC_session).
Defined.

Lemma duration_is_minutes_and_seconds_witness :
  numeral "3"
  /\ numeral "05"
  /\ (trackDuration trackA = "3" +:+ String ":" "05"
      \/ trackDuration trackA = "3" +:+ String ":" ("05" +:+ String ":" EmptyString))
  /\ convertDurationToSeconds trackA = Ok (number "3" * 60 + number "05")%Z.
Proof.
  assert (numeral "3") as Hm by (repeat split; [discriminate|simpl; unfold max_str_digits; lia]).
  assert (numeral "05") as Hs by (repeat split; [discriminate|simpl; unfold max_str_digits; lia]).
  assert (trackDuration trackA = "3" +:+ String ":" "05"
          \/ trackDuration trackA = "3" +:+ String ":" ("05" +:+ String ":" EmptyString))
    as Hd by (left; reflexivity).
  split; [exact Hm|]. split; [exact Hs|]. split; [exact Hd|].
  exact (duration_is_minutes_and_seconds trackA "3" "05" EmptyString Hm Hs Hd).
Defined.

Lemma duration_needs_a_colon_witness :
  is_ascii (trackDuration trackE) = true
  /\ has_char ":" (trackDuration trackE) = false
  /\ match int (trackDuration trackE) with
     | Ok _ => convertDurationToSeconds trackE = Err IndexError
     | Err _ => convertDurationToSeconds trackE = Err ValueError
     end.
Proof.
  assert (is_ascii (trackDuration trackE) = true) as Ha by reflexivity.
  assert (has_char ":" (trackDuration trackE) = false) as Hc by reflexivity.
  split; [exact Ha|]. split; [exact Hc|].
  exact (duration_needs_a_colon trackE Ha Hc).
Defined.

Lemma album_never_holds_duplicates_witness :
  (made albumFirst
   \/ exists data trackObjects, Album.fromDict data trackObjects = Some albumFirst)
  /\ forall i j a b,
       Album.getTracks albumFirst !! i = Some a -> Album.getTracks albumFirst !! j = Some b ->
       __eq__ a b = true -> i = j.
Proof.
  assert (made albumFirst
          \/ exists data trackObjects, Album.fromDict data trackObjects = Some albumFirst)
    as Hm by (left; exact albumFirst_made).
  split; [exact Hm|].
  exact (album_never_holds_duplicates albumFirst Hm).
Defined.

Lemma album_survives_its_dictionary_witness :
  made albumFirst
  /\ (forall t, t ∈ Album.getTracks albumFirst -> t ∈ [trackC; trackA; trackB])
  /\ (forall t u, t ∈ Album.getTracks albumFirst -> u ∈ [trackC; trackA; trackB] ->
        trackTitle u = trackTitle t -> py_str (trackArtist u) = py_str (trackArtist t) ->
        trackAlbum u = trackAlbum t -> u = t)
  /\ Album.fromDict (Album.toDict albumFirst) [trackC; trackA; trackB] = Some albumFirst.
Proof.
  assert (forall t, t ∈ Album.getTracks albumFirst -> t ∈ [trackC; trackA; trackB]) as Hin.
  { intros t Ht. change (t ∈ [trackA; trackB]) in Ht.
    rewrite !elem_of_cons in Ht. rewrite !elem_of_cons. tauto. }
  assert (forall t u, t ∈ Album.getTracks albumFirst -> u ∈ [trackC; trackA; trackB] ->
            trackTitle u = trackTitle t -> py_str (trackArtist u) = py_str (trackArtist t) ->
            trackAlbum u = trackAlbum t -> u = t) as Hone.
  { intros t u Ht Hu. change (t ∈ [trackA; trackB]) in Ht.
    rewrite !elem_of_cons in Ht. rewrite !elem_of_cons in Hu.
    destruct Ht as [->|[->|Ht]]; [| |by apply elem_of_nil in Ht];
      (destruct Hu as [->|[->|[->|Hu]]]; [| | |by apply elem_of_nil in Hu]);
      intros Htitle; first [reflexivity|discriminate Htitle]. }
  split; [exact albumFirst_made|]. split; [exact Hin|]. split; [exact Hone|].
  exact (album_survives_its_dictionary albumFirst [trackC; trackA; trackB] albumFirst_made
           Hin Hone).
Defined.

Lemma album_names_in_order_of_first_track_witness :
  managed managerACB
  /\ NoDup (Managers.getAlbumNames managerACB)
  /\ Managers.getAlbumNames (Managers.addTrackToAlbum trackD managerACB).1 =
       (if bool_decide (trackAlbum trackD ∈ Managers.getAlbumNames managerACB)
        then Managers.getAlbumNames managerACB
        else Managers.getAlbumNames managerACB ++ [trackAlbum trackD])
  /\ (forall i name,
        Managers.getAlbumNames managerACB !! i = Some name ->
        exists album,
          Managers.getAlbumByIndex (Z.of_nat i) managerACB = Some album
          /\ Managers.getAlbum name managerACB = Some album)
  /\ (forall index,
        (index < 0 \/ Z.of_nat (length (Managers.getAlbumNames managerACB)) <= index)%Z ->
        Managers.getAlbumByIndex index managerACB = None).
Proof.
  split; [exact managerACB_managed|].
  exact (album_names_in_order_of_first_track managerACB trackD managerACB_managed).
Defined.

Lemma library_duplicate_iff_witness :
  ascii_track trackA = true
  /\ ascii_track trackA_loud = true
  /\ (Library.compareTrackObjects trackA trackA_loud = Ok 0%Z <->
        lower (trackTitle trackA) = lower (trackTitle trackA_loud)
        /\ (exists x y, getPrimaryArtist trackA = Ok x /\ getPrimaryArtist trackA_loud = Ok y
                        /\ lower x = lower y)
        /\ lower (trackAlbum trackA) = lower (trackAlbum trackA_loud)
        /\ (exists d, convertDurationToSeconds trackA = Ok d
                      /\ convertDurationToSeconds trackA_loud = Ok d)).
Proof.
  assert (ascii_track trackA = true) as Ha by reflexivity.
  assert (ascii_track trackA_loud = true) as Hb by reflexivity.
  split; [exact Ha|]. split; [exact Hb|].
  exact (library_duplicate_iff trackA trackA_loud Ha Hb).
Defined.

Lemma library_is_sorted_witness :
  stocked noDisk libraryCAB diskCAB
  /\ StronglySorted before (Library.getAllTracks libraryCAB).
Proof.
  split; [exact libraryCAB_stocked|].
  exact (library_is_sorted noDisk libraryCAB diskCAB libraryCAB_stocked).
Defined.

Lemma library_addTrack_result_witness :
  stocked noDisk libraryCAB diskCAB
  /\ Library.addTrack trackA_loud libraryCAB diskCAB = Ok (false, libraryCAB, diskCAB)
  /\ libraryCAB = libraryCAB /\ diskCAB = diskCAB
  /\ exists u,
       u ∈ Library.getAllTracks libraryCAB
       /\ Library.compareTrackObjects trackA_loud u = Ok 0%Z.
Proof.
  assert (Library.addTrack trackA_loud libraryCAB diskCAB = Ok (false, libraryCAB, diskCAB))
    as Hadd by (vm_compute; reflexivity).
  split; [exact libraryCAB_stocked|]. split; [exact Hadd|].
  exact (library_addTrack_result noDisk libraryCAB libraryCAB diskCAB diskCAB trackA_loud
           false libraryCAB_stocked Hadd).
Defined.

Lemma library_survives_restart_witness :
  kept noDisk
  /\ stocked noDisk libraryCAB diskCAB
  /\ Library.getAllTracks (Library.init diskCAB) = Library.getAllTracks libraryCAB
  /\ height (Library.rootNode (Library.init diskCAB))
     = length (Library.getAllTracks libraryCAB).
Proof.
  split; [exact kept_nothing|]. split; [exact libraryCAB_stocked|].
  exact (library_survives_restart noDisk libraryCAB diskCAB kept_nothing libraryCAB_stocked).
Defined.

Lemma albums_follow_the_library_witness :
  stocked (Library.mkDisk Absent Absent) libraryCAB diskCAB
  /\ (forall name album,
        Managers.getAlbum name (Library.albumMgr libraryCAB) = Some album ->
        Album.getName album = name
        /\ forall t, t ∈ Album.getTracks album ->
             t ∈ Library.getAllTracks libraryCAB /\ trackAlbum t = name)
  /\ (forall t, t ∈ Library.getAllTracks libraryCAB ->
        exists album u,
          Managers.getAlbum (trackAlbum t) (Library.albumMgr libraryCAB) = Some album
          /\ u ∈ Album.getTracks album /\ __eq__ u t = true).
Proof.
  split; [exact libraryCAB_stocked|].
  exact (albums_follow_the_library libraryCAB diskCAB libraryCAB_stocked).
Defined.

Lemma library_accepts_sound_tracks_witness :
  (forall u, u ∈ Library.getAllTracks libraryCAB -> sound u)
  /\ sound trackD
  /\ exists b lib' disk', Library.addTrack trackD libraryCAB diskCAB = Ok (b, lib', disk').
Proof.
  destruct tracksABCD_sound as (HA & HB & HC & HD).
  assert (forall u, u ∈ Library.getAllTracks libraryCAB -> sound u) as Hall.
  { intros u Hu. change (u ∈ [trackB; trackC; trackA]) in Hu. rewrite !elem_of_cons in Hu.
    destruct Hu as [->|[->|[->|Hu]]]; [exact HB|exact HC|exact HA|by apply elem_of_nil in Hu]. }
  split; [exact Hall|]. split; [exact HD|].
  exact (library_accepts_sound_tracks libraryCAB diskCAB trackD Hall HD).
Defined.

Lemma playlist_rejects_same_title_and_artist_witness :
  compiled playlistCAB
  /\ (forall u, u ∈ Playlist.getTracks playlistCAB -> ascii_track u = true)
  /\ ascii_track trackA_loud = true
  /\ let appended := Playlist.appendTrack trackA_loud 4 playlistCAB in
     (appended.1 = false <->
        exists u, u ∈ Playlist.getTracks playlistCAB
                  /\ Playlist.identifier u = Playlist.identifier trackA_loud)
     /\ (appended.1 = false -> appended.2 = playlistCAB)
     /\ (appended.1 = true ->
         Playlist.getTracks appended.2 = Playlist.getTracks playlistCAB ++ [trackA_loud])
     /\ forall i j a b,
          Playlist.getTracks appended.2 !! i = Some a ->
          Playlist.getTracks appended.2 !! j = Some b ->
          Playlist.identifier a = Playlist.identifier b -> i = j.
Proof.
  assert (forall u, u ∈ Playlist.getTracks playlistCAB -> ascii_track u = true) as Hall.
  { intros u Hu. change (u ∈ [trackC; trackA; trackB]) in Hu. rewrite !elem_of_cons in Hu.
    destruct Hu as [->|[->|[->|Hu]]]; [reflexivity..|by apply elem_of_nil in Hu]. }
  assert (ascii_track trackA_loud = true) as Ht by reflexivity.
  split; [exact playlistCAB_compiled|]. split; [exact Hall|]. split; [exact Ht|].
  exact (playlist_rejects_same_title_and_artist playlistCAB trackA_loud 4%Z
           playlistCAB_compiled Hall Ht).
Defined.

Lemma playlist_sort_orders_the_tracks_witness :
  "title" ∈ criteria
  /\ (forall track, track ∈ Playlist.getTracks playlistCAB -> sound track)
  /\ exists sorted,
       Playlist.sortTracks "title" playlistCAB = Ok sorted
       /\ Playlist.getName sorted = Playlist.getName playlistCAB
       /\ Playlist.getCreationTime sorted = Playlist.getCreationTime playlistCAB
       /\ Playlist.trackIdentifiers sorted = Playlist.trackIdentifiers playlistCAB
       /\ Playlist.trackList sorted ≡ₚ Playlist.trackList playlistCAB
       /\ (forall i j earlier later,
             i < j -> Playlist.trackList sorted !! i = Some earlier ->
             Playlist.trackList sorted !! j = Some later ->
             exists key1 key2,
               Playlist.getSortKey "title" earlier = Ok (Some key1)
               /\ Playlist.getSortKey "title" later = Ok (Some key2)
               /\ Playlist.tuple_ltb key2 key1 = false)
       /\ (forall key,
             filter (fun entry => Playlist.getSortKey "title" entry = Ok (Some key))
               (Playlist.trackList sorted)
             = filter (fun entry => Playlist.getSortKey "title" entry = Ok (Some key))
                 (Playlist.trackList playlistCAB)).
Proof.
  destruct tracksABCD_sound as (HA & HB & HC & HD).
  assert ("title" ∈ criteria) as Hc by (unfold criteria; rewrite !elem_of_cons; tauto).
  assert (forall track, track ∈ Playlist.getTracks playlistCAB -> sound track) as Hall.
  { intros u Hu. change (u ∈ [trackC; trackA; trackB]) in Hu. rewrite !elem_of_cons in Hu.
    destruct Hu as [->|[->|[->|Hu]]]; [exact HC|exact HA|exact HB|by apply elem_of_nil in Hu]. }
  split; [exact Hc|]. split; [exact Hall|].
  exact (playlist_sort_orders_the_tracks "title" playlistCAB Hc Hall).
Defined.

Lemma playlist_sort_needs_sound_tracks_witness :
  "duration" ∈ criteria
  /\ trackE ∈ Playlist.getTracks playlistCABE
  /\ ~ sound trackE
  /\ exists e, Playlist.sortTracks "duration" playlistCABE = Err e.
Proof.
  assert ("duration" ∈ criteria) as Hc by (unfold criteria; rewrite !elem_of_cons; tauto).
  assert (trackE ∈ Playlist.getTracks playlistCABE) as Hin.
  { change (trackE ∈ [trackC; trackA; trackB; trackE]). rewrite !elem_of_cons. tauto. }
  assert (~ sound trackE) as Hno.
  { intros [_ [seconds Hs]]. vm_compute in Hs. discriminate Hs. }
  split; [exact Hc|]. split; [exact Hin|]. split; [exact Hno|].
  exact (playlist_sort_needs_sound_tracks "duration" playlistCABE trackE Hc Hin Hno).
Defined.

Lemma playlist_sort_unknown_criterion_witness :
  ("album" ∉ criteria)
  /\ Playlist.sortTracks "album" playlistCAB =
       (if decide (Playlist.getSize playlistCAB <= 1) then Ok playlistCAB
        else Err TypeError).
Proof.
  assert ("album" ∉ criteria) as Hc.
  { unfold criteria. rewrite !elem_of_cons. intros [H|[H|[H|[H|H]]]];
      [discriminate H..|by apply elem_of_nil in H]. }
  split; [exact Hc|].
  exact (playlist_sort_unknown_criterion "album" playlistCAB Hc).
Defined.

Lemma queue_holds_the_album_witness :
  made albumFirst
  /\ exists w',
       queueTracks (Album.getTracks albumFirst) queueABC = Return tt w'
       /\ sequence w' = Some (Album.getTracks albumFirst)
       /\ getSize w' = Return (Album.getTrackCount albumFirst) w'
       /\ getCurrentTrack w' = Return (head (Album.getTracks albumFirst)) w'
       /\ originalSequence (self w') = Album.getTracks albumFirst
       /\ serialization w' = Some (file w').
Proof.
  split; [exact albumFirst_made|].
  exact (queue_holds_the_album albumFirst queueABC albumFirst_made).
Defined.

Lemma queue_holds_the_playlist_witness :
  compiled playlistCAB
  /\ exists w',
       queueTracks (Playlist.getTracks playlistCAB) queueABC = Return tt w'
       /\ sequence w' = Some (Playlist.getTracks playlistCAB)
       /\ getSize w' = Return (Playlist.getSize playlistCAB) w'
       /\ getCurrentTrack w' = Return (head (Playlist.getTracks playlistCAB)) w'
       /\ originalSequence (self w') = Playlist.getTracks playlistCAB
       /\ serialization w' = Some (file w').
Proof.
  split; [exact playlistCAB_compiled|].
  exact (queue_holds_the_playlist playlistCAB queueABC playlistCAB_compiled).
Defined.
